(** * TAMV: camera-based tool alignment -- a verification development

    This file embeds the optical alignment engine of [TAMV_GUI.py]
    (class [CalibrateNozzles]: [analyzeFrame], [calibrateTool],
    [normalize_coords], [least_square_mapping], [getDistance]) together
    with the result records consumed by [App.stats] / [App.parseData],
    the alignment pass of [CalibrateNozzles.run] that calls the engine,
    [App.parseData] and [App.cleanPrinterURL], and proves properties of
    them.

    Numbers.  The program computes with IEEE doubles through numpy.
    The controller is embedded twice.  [Calib] computes with exact
    rationals ([Q]); the only non-finite doubles the program can
    produce on finite inputs ([inf] from a division by zero, [nan] from
    the mean of an empty array) are kept as explicit constructors of
    [npfloat].  This is the model for what does not hang on the last
    bit: the course of the loop, what is sent and when, the samples
    that are collected.  [CalibNum] states the alignment step, whose
    rounded numbers decide whether the loop ends, for an arbitrary
    number system ([Num.arith]); [Num.exact] gives back [Calib], and
    [Num.binary64] rounds every operation to the nearest double
    ([Binary64.b64]).

    The solver.  [np.linalg.lstsq] is a library routine working on a
    singular value decomposition in doubles.  [LinAlg.lstsq] gives its
    answer in exact arithmetic; the two agree up to round-off when the
    design matrix is well conditioned ([Conditioning.well_conditioned])
    and when it is rank-deficient, and statements on the rank are made
    for these two cases only. *)

From Stdlib Require Import ZArith QArith Qround Qabs Qreals Reals Lra Lia Psatz.
From Stdlib Require Import List Bool String Ascii Setoid Morphisms.
Import ListNotations.

Local Open Scope Q_scope.

(** ** numpy scalars *)

Module Np.

(** [np.rint]: nearest integer, ties to the even neighbour. *)
Definition rint (q : Q) : Z :=
  let fl := Qfloor q in
  match Qcompare (q - inject_Z fl) (1 # 2) with
  | Lt => fl
  | Gt => (fl + 1)%Z
  | Eq => if Z.even fl then fl else (fl + 1)%Z
  end.

Fixpoint pow10 (d : nat) : positive :=
  match d with
  | O => 1%positive
  | S d' => (10 * pow10 d')%positive
  end.

(** [np.around(q, d)]: scale by [10^d], [rint], scale back. *)
Definition around (d : nat) (q : Q) : Q :=
  Qred (rint (q * inject_Z (Zpos (pow10 d))) # pow10 d).

(** A double as the program can see it: finite, or one of the
    non-finite values. *)
Inductive npfloat : Type :=
| Finite (q : Q)
| PosInf
| NegInf
| NaN.

(** Division of doubles under numpy: a zero divisor gives [inf], [-inf]
    or [nan] (with a RuntimeWarning), never an exception. *)
Definition np_div (a b : Q) : npfloat :=
  if Qeq_bool b 0 then
    match Qcompare a 0 with
    | Gt => PosInf
    | Lt => NegInf
    | Eq => NaN
    end
  else Finite (a / b).

Definition np_around (d : nat) (v : npfloat) : npfloat :=
  match v with
  | Finite q => Finite (around d q)
  | other => other
  end.

Definition qsum (l : list Q) : Q := fold_right Qplus 0 l.

(** [ndarray.mean()]: the mean of an empty array is [nan]. *)
Definition np_mean (l : list Q) : npfloat :=
  match l with
  | [] => NaN
  | _ => Finite (Qred (qsum l / inject_Z (Z.of_nat (List.length l))))
  end.

(** [np.around(np.sqrt(n), d)] for an integer [n >= 0].  The square root
    of an integer is an integer or irrational, so the nearest [d]-decimal
    number is unique; it is [k / 10^d] with [k] the nearest integer to
    [sqrt (10^(2d) * n)], which integer square root computes. *)
Definition around_sqrt (d : nat) (n : Z) : Q :=
  let s := Zpos (pow10 d) in
  Qred (((Z.sqrt (4 * s * s * n) + 1) / 2)%Z # pow10 d).

(** [np.uint16(x)] on an integer-valued double. *)
Definition uint16 (z : Z) : Z := (z mod 65536)%Z.

End Np.

(** ** Vectors and matrices of rationals (numpy arrays) *)

Module LinAlg.

Definition vec := list Q.
Definition matrix := list (list Q).

(** Inner product; a missing coordinate counts as zero. *)
Fixpoint dot (u v : vec) : Q :=
  match u, v with
  | x :: u', y :: v' => x * y + dot u' v'
  | _, _ => 0
  end.

Definition vscale (c : Q) (u : vec) : vec := map (Qmult c) u.

Fixpoint vadd (u v : vec) : vec :=
  match u, v with
  | [], _ => v
  | _, [] => u
  | x :: u', y :: v' => (x + y) :: vadd u' v'
  end.

Definition vsub (u v : vec) : vec := vadd u (vscale (-(1)) v).

(** Column [j] of [A], and [A.T] for an array with [n] columns. *)
Definition col (j : nat) (A : matrix) : vec := map (fun r => nth j r 0) A.
Definition transpose (n : nat) (A : matrix) : matrix :=
  map (fun j => col j A) (seq 0 n).

(** [A @ v] and [A @ B] ([B] with [p] columns). *)
Definition matvec (A : matrix) (v : vec) : vec := map (fun r => dot r v) A.
Definition mmul (p : nat) (A B : matrix) : matrix :=
  map (fun r => map (fun j => dot r (col j B)) (seq 0 p)) A.

Definition mscale (c : Q) (A : matrix) : matrix := map (vscale c) A.

(** [A[i][j]]. *)
Definition entry (A : matrix) (i j : nat) : Q := nth j (nth i A []) 0.

Definition has_shape (m n : nat) (A : matrix) : Prop :=
  List.length A = m /\ Forall (fun r => List.length r = n) A.

Definition has_shapeb (m n : nat) (A : matrix) : bool :=
  Nat.eqb (List.length A) m && forallb (fun r => Nat.eqb (List.length r) n) A.

(** *** Elimination *)

(** First row with a non-zero entry in column [k], and the other rows. *)
Fixpoint find_pivot (k : nat) (rows : matrix) : option (vec * matrix) :=
  match rows with
  | [] => None
  | r :: rs =>
      if Qeq_bool (nth k r 0) 0 then
        match find_pivot k rs with
        | Some (p, rest) => Some (p, r :: rest)
        | None => None
        end
      else Some (r, rs)
  end.

Definition normalize_row (k : nat) (p : vec) : vec :=
  map Qred (vscale (/ nth k p 0) p).

Definition eliminate (k : nat) (p r : vec) : vec :=
  map Qred (vadd r (vscale (- nth k r 0) p)).

(** Gauss-Jordan elimination on the pivot columns [ks], in order; [done]
    holds the rows that already carry a pivot.  [None] when a column has
    no pivot (the system is singular). *)
Fixpoint gauss_jordan (ks : list nat) (done todo : matrix) : option matrix :=
  match ks with
  | [] => Some done
  | k :: ks' =>
      match find_pivot k todo with
      | None => None
      | Some (p, rest) =>
          let p' := normalize_row k p in
          gauss_jordan ks' (map (eliminate k p') done ++ [p'])
                       (map (eliminate k p') rest)
      end
  end.

(** The same elimination, skipping the columns without a pivot: the
    reduced rows and the list of pivot columns. *)
Fixpoint rref (ks : list nat) (done todo : matrix) (pivs : list nat)
  : matrix * list nat :=
  match ks with
  | [] => (done, pivs)
  | k :: ks' =>
      match find_pivot k todo with
      | None => rref ks' done todo pivs
      | Some (p, rest) =>
          let p' := normalize_row k p in
          rref ks' (map (eliminate k p') done ++ [p'])
               (map (eliminate k p') rest) (pivs ++ [k])
      end
  end.

Definition augment (M C : matrix) : matrix :=
  map (fun '(m, c) => m ++ c) (combine M C).

(** Right-hand part ([k] columns after the first [n]) of augmented rows. *)
Definition rhs_part (n k : nat) (rows : matrix) : matrix :=
  map (fun r => map (fun c => nth (n + c) r 0) (seq 0 k)) rows.

(** Solve [M X = C] for a square [n x n] matrix [M] and [k] right-hand
    columns. *)
Definition solve (n k : nat) (M C : matrix) : option matrix :=
  match gauss_jordan (seq 0 n) [] (augment M C) with
  | Some rows => Some (rhs_part n k rows)
  | None => None
  end.

(** [A.T @ B] for [A] with [n] columns and [B] with [k] columns. *)
Definition tmul (n k : nat) (A B : matrix) : matrix :=
  map (fun i => map (fun c => dot (col i A) (col c B)) (seq 0 k)) (seq 0 n).

Definition gram (n : nat) (A : matrix) : matrix := tmul n n A A.

Definition zeros (m n : nat) : matrix := repeat (repeat 0 n) m.

(** Minimum-norm least-squares solution [pinv(A) @ B] through a rank
    factorization [A = C F] ([F]: the non-zero rows of the reduced
    echelon form, [C]: the pivot columns of [A]):
    [pinv(A) = F.T (F F.T)^-1 (C.T C)^-1 C.T]. *)
Definition min_norm (n k : nat) (A B : matrix) : matrix :=
  let '(R, pivs) := rref (seq 0 n) [] A [] in
  let r := List.length pivs in
  let F := map (fun row => map (fun j => nth j row 0) (seq 0 n)) R in
  let C := map (fun row => map (fun j => nth j row 0) pivs) A in
  let FFt := map (fun fi => map (fun fj => dot fi fj) F) F in
  match solve r k (gram r C) (tmul r k C B) with
  | Some Y2 =>
      match solve r k FFt Y2 with
      | Some Y3 => map (map Qred) (tmul n k F Y3)
      | None => zeros n k
      end
  | None => zeros n k
  end.

Definition sumsq (u : vec) : Q := dot u u.

(** [np.linalg.lstsq(A, B, rcond=None)] in exact arithmetic, for [A]
    with [n] columns and [B] with [k] columns: the solution and the
    array of residuals.  With full column rank the solution is the one
    of the normal equations [A.T A X = A.T B]; the residual array holds
    the squared norm of each column of [B - A X] when the rank is [n]
    and there are more than [n] rows, and is empty otherwise; a
    rank-deficient [A] gives the minimum-norm solution.  (numpy obtains
    the same values from a singular value decomposition.) *)
Definition lstsq (n k : nat) (A B : matrix) : matrix * list Q :=
  match solve n k (gram n A) (tmul n k A B) with
  | Some X =>
      (X, if (n <? List.length A)%nat
          then map (fun c => Qred (sumsq (vsub (col c B) (col c (mmul k A X)))))
                   (seq 0 k)
          else [])
  | None => (min_norm n k A B, [])
  end.

End LinAlg.

(** ** Notions used to state what the solver computes *)

Module LinAlgSpec.
Import LinAlg.

(** Row [r] of a linear system is satisfied by each of the vectors in
    [S]: its inner product with them is zero. *)
Definition sat (S : list vec) (r : vec) : Prop := Forall (fun s => dot r s == 0) S.

Definition delta (i j : nat) : Q := if Nat.eqb i j then 1 else 0.

(** The first [m] columns of the [m] rows [done] form the identity. *)
Definition unit_rows (m : nat) (done : matrix) : Prop :=
  List.length done = m /\
  forall i j, (i < m)%nat -> (j < m)%nat -> nth j (nth i done []) 0 == delta i j.

(** The first [m] columns of the rows [todo] are zero. *)
Definition zero_cols (m : nat) (todo : matrix) : Prop :=
  Forall (fun r => forall j, (j < m)%nat -> nth j r 0 == 0) todo.

(** The vector with [v] at position [c] among [k] entries. *)
Fixpoint unit_vec (k c : nat) (v : Q) : vec :=
  match k with
  | O => []
  | S k' =>
      match c with
      | O => v :: repeat 0 k'
      | S c' => 0 :: unit_vec k' c' v
      end
  end.

(** The test vectors that say [M Y = C] of the rows [(M | C)]: column
    [c] of [Y] followed by [-1] at position [c]. *)
Definition solution_tests (k : nat) (Y : matrix) : list vec :=
  map (fun c => col c Y ++ unit_vec k c (-(1))) (seq 0 k).

(** [A] has [n] linearly independent columns: the elimination finds a
    pivot in every column of [A.T A]. *)
Definition full_column_rank (n : nat) (A : matrix) : bool :=
  match gauss_jordan (seq 0 n) [] (gram n A) with
  | Some _ => true
  | None => false
  end.

End LinAlgSpec.

(** ** The detection gate: [CalibrateNozzles.analyzeFrame] *)

Module Detect.
Import Np.

(** A blob reported by the detector: [keypoint.pt], [keypoint.size]. *)
Record keypoint : Type := { pt : Q * Q; size : Q }.

(** What one turn of the [while] loop of [analyzeFrame] observes. *)
Record frame : Type := {
  f_detection_on : bool;          (* [self.detection_on] at the loop test *)
  f_ret : bool;                   (* [cap.read()] delivered an image *)
  f_shape : Z * Z;                (* [frame.shape[1]], [frame.shape[0]] *)
  f_keypoints : list keypoint;    (* [self.detector.detect(...)] *)
  f_clock : Z;                    (* [int(round(time.time()*1000))] in this turn *)
  f_coords : option (Q * Q)       (* [printer.getCoords()]: X and Y; [None] if it raised *)
}.

(** The tuple [(xy, target, toolCoordinates, r)]. *)
Record detection : Type := {
  d_xy : Z * Z;
  d_target : Z * Z;
  d_tool : option (Q * Q);
  d_radius : Z
}.

(** Texts sent through [message_update]. *)
Inductive message : Type :=
| MsgDetectError                 (* 'Error in detecting nozzle.' *)
| MsgNoCircles                   (* 'No circles found.' *)
| MsgTooMany (n : nat)           (* 'Too many circles found. Please stop and clean the nozzle.' *)
| MsgFound (u v r : Z).          (* 'U.. V.. R..' *)

Inductive af_outcome : Type :=
| AfFound (d : detection)        (* [return (xy, target, toolCoordinates, r)] *)
| AfNone                         (* [return]: detection was switched off *)
| AfUnbound                      (* UnboundLocalError: [toolCoordinates] was never assigned *)
| AfLooping (nocircle : Z).      (* still inside the loop when the frames end *)

Definition key_xy (k : keypoint) : Z * Z :=
  (uint16 (rint (fst (pt k))), uint16 (rint (snd (pt k)))).

Definition key_r (k : keypoint) : Z := rint (size k / 2).

Definition frame_target (f : frame) : Z * Z :=
  (rint (inject_Z (fst (f_shape f)) / 2), rint (inject_Z (snd (f_shape f)) / 2)).

(** The [return] statement after the loop, for the single keypoint [k]
    of frame [f]: [toolCoordinates] is bound only in alignment mode. *)
Definition found (alignment : bool) (f : frame) (k : keypoint) : af_outcome :=
  if alignment
  then AfFound {| d_xy := key_xy k; d_target := frame_target f;
                  d_tool := f_coords f; d_radius := key_r k |}
  else AfUnbound.

(** The loop of [analyzeFrame]: [rd] is the clock read on entry,
    [nocircle] the counter of frames without a circle.  Returns the
    outcome, the messages in the order sent, and the frames not yet
    read. *)
Fixpoint analyze_loop (alignment : bool) (rd nocircle : Z) (frames : list frame)
  : af_outcome * list message * list frame :=
  match frames with
  | [] => (AfLooping nocircle, [], [])
  | f :: rest =>
      if negb (f_detection_on f) then (AfNone, [], frames)
      else if negb (f_ret f) then analyze_loop alignment rd nocircle rest
      else if (25 <? nocircle)%Z then
        let '(o, ms, fs) := analyze_loop alignment rd 0 rest in
        (o, MsgDetectError :: ms, fs)
      else
        match f_keypoints f with
        | [] =>
            if (25 <? f_clock f - rd)%Z then
              let '(o, ms, fs) := analyze_loop alignment rd (nocircle + 1) rest in
              (o, MsgNoCircles :: ms, fs)
            else analyze_loop alignment rd nocircle rest
        | [k] =>
            (found alignment f k,
             [MsgFound (fst (key_xy k)) (snd (key_xy k)) (key_r k)], rest)
        | _ :: _ :: _ =>
            if (25 <? f_clock f - rd)%Z then
              let '(o, ms, fs) := analyze_loop alignment rd nocircle rest in
              (o, MsgTooMany (List.length (f_keypoints f)) :: ms, fs)
            else analyze_loop alignment rd nocircle rest
        end
  end.

Definition analyzeFrame (alignment : bool) (rd : Z) (frames : list frame)
  : af_outcome * list message * list frame :=
  analyze_loop alignment rd 0 frames.

(** A frame that is read with detection on, shows no circle, and is
    looked at more than 25 ms after the pass began at [rd]. *)
Definition counted_miss (rd : Z) (f : frame) : Prop :=
  f_detection_on f = true /\ f_ret f = true /\ f_keypoints f = [] /\
  (25 < f_clock f - rd)%Z.

Definition messages (r : af_outcome * list message * list frame) : list message :=
  snd (fst r).

Definition outcome (r : af_outcome * list message * list frame) : af_outcome :=
  fst (fst r).

End Detect.

(** ** Text encodings of numbers: [str], ["{:.3f}".format], [int], [float] *)

Module Fmt.
Import Np.
Local Open Scope string_scope.

Definition digit (n : Z) : ascii := ascii_of_nat (48 + Z.to_nat n).

(** The last [len] decimal digits of [n], most significant first. *)
Fixpoint digits_fixed (len : nat) (n : Z) : string :=
  match len with
  | O => ""
  | S l => digits_fixed l (n / 10) ++ String (digit (n mod 10)) ""
  end.

(** The decimal digits of [n >= 0] without leading zeros; [fuel] bounds
    their number. *)
Fixpoint digits_var (fuel : nat) (n : Z) : string :=
  match fuel with
  | O => ""
  | S f =>
      if (n <? 10)%Z then String (digit n) ""
      else digits_var f (n / 10) ++ String (digit (n mod 10)) ""
  end.

Definition str_nat (n : Z) : string := digits_var (S (Z.to_nat (Z.log2 n))) n.

(** [str(n)] for an integer. *)
Definition str_int (z : Z) : string :=
  if (z <? 0)%Z then String "-" (str_nat (- z)) else str_nat z.

Definition digit_val (c : ascii) : option Z :=
  let n := nat_of_ascii c in
  if (48 <=? n)%nat && (n <=? 57)%nat then Some (Z.of_nat (n - 48)) else None.

Fixpoint parse_digits (acc : Z) (s : string) : option Z :=
  match s with
  | "" => Some acc
  | String c t =>
      match digit_val c with
      | Some d => parse_digits (10 * acc + d) t
      | None => None
      end
  end.

Definition parse_nat (s : string) : option Z :=
  match s with
  | "" => None
  | _ => parse_digits 0 s
  end.

(** [int(s)] on a decimal numeral with an optional minus sign. *)
Definition parse_int (s : string) : option Z :=
  match s with
  | String "-" t => option_map Z.opp (parse_nat t)
  | _ => parse_nat s
  end.

(** ["{:.<d>f}".format(q)]: [d] digits after the point, the last one
    rounded half-even.  (A double keeps the sign of a zero, which the
    format prints; rationals have one zero.) *)
Definition format_f (d : nat) (q : Q) : string :=
  let k := rint (q * inject_Z (Zpos (pow10 d))) in
  let a := Z.abs k in
  (if (k <? 0)%Z then "-" else "") ++
  str_nat (a / Zpos (pow10 d)) ++ "." ++ digits_fixed d (a mod Zpos (pow10 d)).

(** Drop trailing zeros of a [len]-digit fraction, keeping one digit. *)
Fixpoint strip_zeros (len : nat) (n : Z) : nat * Z :=
  match len with
  | S (S _ as len') =>
      if (n mod 10 =? 0)%Z then strip_zeros len' (n / 10) else (len, n)
  | _ => (len, n)
  end.

(** [str(v)] for a double that is non-finite or a multiple of [10^-4]
    below [10^16] in size, the values [np.around(., 4)] leaves: the
    shortest decimal that reads back as the same double, in positional
    notation with at least one digit after the point. *)
Definition str_float (v : npfloat) : string :=
  match v with
  | PosInf => "inf"
  | NegInf => "-inf"
  | NaN => "nan"
  | Finite q =>
      let k := rint (q * inject_Z 10000) in
      let a := Z.abs k in
      let '(len, frac) := strip_zeros 4 (a mod 10000) in
      (if (k <? 0)%Z then "-" else "") ++
      str_nat (a / 10000) ++ "." ++ digits_fixed len frac
  end.

Fixpoint split_dot (s : string) : option (string * string) :=
  match s with
  | "" => None
  | String c t =>
      if Ascii.eqb c "." then Some ("", t)
      else match split_dot t with
           | Some (a, b) => Some (String c a, b)
           | None => None
           end
  end.

Definition parse_unsigned (s : string) : option Q :=
  match split_dot s with
  | Some (ip, fp) =>
      match parse_nat ip, parse_nat fp with
      | Some a, Some b => Some (Qred (inject_Z a + (b # pow10 (String.length fp))))
      | _, _ => None
      end
  | None => None
  end.

(** [float(s)] on the texts above: [inf], [-inf], [nan], or digits, a
    point, digits, with an optional minus sign. *)
Definition parse_float (s : string) : option npfloat :=
  if String.eqb s "inf" then Some PosInf
  else if String.eqb s "-inf" then Some NegInf
  else if String.eqb s "nan" then Some NaN
  else match s with
       | String "-" t => option_map (fun q => Finite (Qred (- q))) (parse_unsigned t)
       | _ => option_map Finite (parse_unsigned s)
       end.

(** [d[key]] on a dictionary kept as an association list. *)
Fixpoint lookup (key : string) (r : list (string * string)) : option string :=
  match r with
  | [] => None
  | (k, v) :: r' => if String.eqb k key then Some v else lookup key r'
  end.

(** [int(line[key])] and [float(line[key])], as [App.stats] and
    [App.parseData] read a result record back. *)
Definition get_int (key : string) (r : list (string * string)) : option Z :=
  match lookup key r with
  | Some v => parse_int v
  | None => None
  end.

Definition get_float (key : string) (r : list (string * string)) : option npfloat :=
  match lookup key r with
  | Some v => parse_float v
  | None => None
  end.

End Fmt.

(** ** The controller: [CalibrateNozzles.calibrateTool] and its helpers *)

Module Calib.
Import Np LinAlg Detect.

(** What [calibrateTool] reads from its surroundings: the module globals
    [camera_width] and [camera_height], the host's [cp_coords], the
    answer of [printer.getG10ToolOffset(tool)], and its two arguments. *)
Record env : Type := {
  camera_width : positive;
  camera_height : positive;
  cp_coords : Q * Q;
  g10_offset : Z -> Q * Q;
  tool : Z;
  rep : Z
}.

Definition normalize_coords (e : env) (coords : Z * Z) : Q * Q :=
  (inject_Z (fst coords) / inject_Z (Zpos (camera_width e)) - (1 # 2),
   inject_Z (snd coords) / inject_Z (Zpos (camera_height e)) - (1 # 2)).

(** [getDistance] on pixel coordinates: [np.around(np.sqrt(.), 3)]. *)
Definition getDistance (x1 y1 x0 y0 : Z) : Q :=
  let x_dist := ((x1 - x0) ^ 2)%Z in
  let y_dist := ((y1 - y0) ^ 2)%Z in
  around_sqrt 3 (x_dist + y_dist).

(** [np.around(0.5/self.getDistance(...), 4)]. *)
Definition calc_mpp (oldxy xy : Z * Z) : npfloat :=
  np_around 4 (np_div (1 # 2)
                 (getDistance (fst oldxy) (snd oldxy) (fst xy) (snd xy))).

Definition feature_row (p : Q * Q) (last : Q) : vec :=
  let x := fst p in let y := snd p in
  [x * x; y * y; x * y; x; y; last].

Definition design_matrix (calibration_points : list ((Q * Q) * (Q * Q))) : matrix :=
  map (fun rp => feature_row (snd rp) 1) calibration_points.

Definition real_matrix (calibration_points : list ((Q * Q) * (Q * Q))) : matrix :=
  map (fun rp => [fst (fst rp); snd (fst rp)]) calibration_points.

Definition least_square_mapping (calibration_points : list ((Q * Q) * (Q * Q)))
  : matrix * npfloat :=
  let A := design_matrix calibration_points in
  let transform := lstsq 6 2 A (real_matrix calibration_points) in
  (fst transform, np_mean (snd transform)).

(** What the controller sends out.  Motion commands and the result
    record are kept; status and message texts, the debug string, the
    table widget and the elapsed time of [_return['time']] are
    presentation output and are left out. *)

(** Commands handed to [printer.gCode]. *)
Inductive gcode : Type :=
| G91_G1 (x y : Q) (f : Z)        (* 'G91 G1 X.. Y.. F.. G90 ' *)
| G90_G1 (x y : Q) (f : Z)        (* 'G90 G1 X.. Y.. F.. G90 ' *)
| M564_S1                         (* 'M564 S1' *)
| G1_F (f : Z).                   (* 'G1 F..' *)

(** The dictionary sent through [result_update]. *)
Definition record := list (string * string).

Inductive event : Type :=
| EvGCode (c : gcode)
| EvResult (r : record).

Inductive error : Type :=
| TypeError          (* unpacking or subscripting [None] *)
| IndexError         (* list index out of range *)
| AttributeError     (* [self.mpp] read before it was set *)
| ValueError.        (* operand shapes do not match *)

Record ctl : Type := {
  state : Z;
  detect_count : Z;
  average_location : Q * Q;
  xy : Z * Z;
  oldxy : Z * Z;
  tool_coordinates : option (Q * Q);
  space_coordinates : list (Q * Q);
  camera_coordinates : list (Z * Z);
  offsetX : Q;
  offsetY : Q;
  mpp : option npfloat;
  transform_matrix : matrix;
  transform_residual : option npfloat;
  guess_position : Q * Q;
  calibration_moves : Z;
  trace : list event
}.

Definition calibrationCoordinates : list (Q * Q) :=
  [ (0, -(1 # 2)); (294 # 1000, -(405 # 1000)); (476 # 1000, -(155 # 1000));
    (476 # 1000, 155 # 1000); (294 # 1000, 405 # 1000); (0, 1 # 2);
    (-(294 # 1000), 405 # 1000); (-(476 # 1000), 155 # 1000);
    (-(476 # 1000), -(155 # 1000)); (-(294 # 1000), -(405 # 1000)) ].

Definition position_iterations : Z := 5.

(** The fields [calibrateTool] sets before its loop; the transform
    matrix and mpp are attributes of the thread and survive from an
    earlier call. *)
Definition init (prev_matrix : matrix) (prev_mpp : option npfloat) : ctl :=
  {| state := if (1 <? List.length prev_matrix)%nat then 200 else 0;
     detect_count := 0;
     average_location := (0, 0);
     xy := (0, 0)%Z;
     oldxy := (0, 0)%Z;
     tool_coordinates := None;
     space_coordinates := [];
     camera_coordinates := [];
     offsetX := 0;
     offsetY := 0;
     mpp := prev_mpp;
     transform_matrix := prev_matrix;
     transform_residual := None;
     guess_position := (1, 1);
     calibration_moves := 0;
     trace := [] |}.

Definition emit (ev : event) (s : ctl) : ctl :=
  {| state := state s; detect_count := detect_count s;
     average_location := average_location s; xy := xy s; oldxy := oldxy s;
     tool_coordinates := tool_coordinates s;
     space_coordinates := space_coordinates s;
     camera_coordinates := camera_coordinates s;
     offsetX := offsetX s; offsetY := offsetY s; mpp := mpp s;
     transform_matrix := transform_matrix s;
     transform_residual := transform_residual s;
     guess_position := guess_position s;
     calibration_moves := calibration_moves s;
     trace := trace s ++ [ev] |}.

(** The value of [_return] with the matrix and mpp returned next to it. *)
Record tool_result : Type := {
  res_X : Q;
  res_Y : Q;
  res_MPP : npfloat;
  res_matrix : matrix
}.

Inductive step_result : Type :=
| Continue (s : ctl)
| Return (r : tool_result) (s : ctl)
| Raise (e : error) (s : ctl).

Definition is_continue (r : step_result) : bool :=
  match r with Continue _ => true | _ => false end.

Definition nth_pair (i : nat) (l : list (Q * Q)) : Q * Q := nth i l (0, 0).

(** [[(space[i], normalize_coords(camera)) for i, camera in
    enumerate(cameras)]]; [None] when [space] is too short (IndexError). *)
Fixpoint transform_input (e : env) (space : list (Q * Q)) (cameras : list (Z * Z))
  {struct cameras} : option (list ((Q * Q) * (Q * Q))) :=
  match cameras with
  | [] => Some []
  | c :: cs =>
      match space with
      | [] => None
      | sp :: space' =>
          match transform_input e space' cs with
          | Some l => Some ((sp, normalize_coords e c) :: l)
          | None => None
          end
      end
  end.

(** [-1*(0.55*self.transform_matrix.T @ self.v)], each axis rounded. *)
Definition offsets (T : matrix) (v : vec) : Q * Q :=
  let o := vscale (-(1)) (matvec (mscale (55 # 100) (transpose 2 T)) v) in
  (around 3 (nth 0 o 0), around 3 (nth 1 o 0)).

Definition result_record (e : env) (m : npfloat) (final_x final_y : Q) : record :=
  [ ("tool", Fmt.str_int (tool e));
    ("cycle", Fmt.str_int (rep e));
    ("mpp", Fmt.str_float m);
    ("X", Fmt.format_f 3 final_x);
    ("Y", Fmt.format_f 3 final_y) ]%string.

(** Step 1, first visit ([self.state == 0]). *)
Definition process_first (e : env) (s : ctl) : step_result :=
  match tool_coordinates s with
  | None => Raise TypeError s
  | Some tc =>
      let ox := fst (nth_pair 0 calibrationCoordinates) in
      let oy := snd (nth_pair 0 calibrationCoordinates) in
      Continue
        {| state := 1; detect_count := detect_count s;
           average_location := average_location s; xy := xy s;
           oldxy := xy s;
           tool_coordinates := tool_coordinates s;
           space_coordinates := [tc];
           camera_coordinates := [xy s];
           offsetX := ox; offsetY := oy; mpp := mpp s;
           transform_matrix := transform_matrix s;
           transform_residual := transform_residual s;
           guess_position := guess_position s;
           calibration_moves := calibration_moves s;
           trace := trace s ++ [EvGCode (G91_G1 ox oy 3000)] |}
  end.

(** Step 1, the sweep ([1 <= self.state < len(calibrationCoordinates)]). *)
Definition process_sweep (e : env) (s : ctl) : step_result :=
  let mpp' := if (state s =? 1)%Z then Some (calc_mpp (oldxy s) (xy s)) else mpp s in
  match tool_coordinates s with
  | None => Raise TypeError s
  | Some tc =>
      let bx := -(1) * offsetX s in
      let by_ := -(1) * offsetY s in
      let ox := fst (nth_pair (Z.to_nat (state s)) calibrationCoordinates) in
      let oy := snd (nth_pair (Z.to_nat (state s)) calibrationCoordinates) in
      Continue
        {| state := state s + 1; detect_count := detect_count s;
           average_location := average_location s; xy := xy s;
           oldxy := xy s;
           tool_coordinates := tool_coordinates s;
           space_coordinates := space_coordinates s ++ [tc];
           camera_coordinates := camera_coordinates s ++ [xy s];
           offsetX := ox; offsetY := oy; mpp := mpp';
           transform_matrix := transform_matrix s;
           transform_residual := transform_residual s;
           guess_position := guess_position s;
           calibration_moves := calibration_moves s;
           trace := trace s ++ [EvGCode (G91_G1 bx by_ 3000);
                                EvGCode (G91_G1 ox oy 3000)] |}
  end.

(** Step 1, last visit ([self.state == len(calibrationCoordinates)]):
    the transform is solved. *)
Definition process_solve (e : env) (s : ctl) : step_result :=
  match mpp s with
  | None => Raise AttributeError s
  | Some _ =>
      match tool_coordinates s with
      | None => Raise TypeError s
      | Some tc =>
          let space := space_coordinates s ++ [tc] in
          let cameras := camera_coordinates s ++ [xy s] in
          match transform_input e space cameras with
          | None => Raise IndexError s
          | Some input =>
              let '(T, residual) := least_square_mapping input in
              let newCenter := matvec (transpose 2 T) [0; 0; 0; 0; 0; 1] in
              let gx := around 3 (nth 0 newCenter 0) in
              let gy := around 3 (nth 1 newCenter 0) in
              Continue
                {| state := 200; detect_count := detect_count s;
                   average_location := average_location s; xy := xy s;
                   oldxy := xy s;
                   tool_coordinates := tool_coordinates s;
                   space_coordinates := space;
                   camera_coordinates := cameras;
                   offsetX := offsetX s; offsetY := offsetY s; mpp := mpp s;
                   transform_matrix := T;
                   transform_residual := Some residual;
                   guess_position := (gx, gy);
                   calibration_moves := calibration_moves s;
                   trace := trace s ++ [EvGCode (G90_G1 gx gy 1000)] |}
          end
      end
  end.

(** Step 2, nozzle alignment ([self.state == 200]). *)
Definition process_align (e : env) (s : ctl) : step_result :=
  if negb (has_shapeb 6 2 (transform_matrix s)) then Raise ValueError s
  else
    let c := normalize_coords e (xy s) in
    let v := feature_row c 0 in
    let off := offsets (transform_matrix s) v in
    let moved :=
      {| state := state s; detect_count := detect_count s;
         average_location := average_location s; xy := xy s;
         oldxy := xy s;
         tool_coordinates := tool_coordinates s;
         space_coordinates := space_coordinates s;
         camera_coordinates := camera_coordinates s;
         offsetX := offsetX s; offsetY := offsetY s; mpp := mpp s;
         transform_matrix := transform_matrix s;
         transform_residual := transform_residual s;
         guess_position := guess_position s;
         calibration_moves := calibration_moves s + 1;
         trace := trace s ++ [EvGCode M564_S1;
                              EvGCode (G91_G1 (fst off) (snd off) 1000)] |} in
    if Qeq_bool (fst off) 0 && Qeq_bool (snd off) 0 then
      let s1 := emit (EvGCode (G1_F 13200)) moved in
      let tool_offsets := g10_offset e (tool e) in
      match tool_coordinates s with
      | None => Raise TypeError s1
      | Some tc =>
          let final_x := around 3 ((fst (cp_coords e) + fst tool_offsets) - fst tc) in
          let final_y := around 3 ((snd (cp_coords e) + snd tool_offsets) - snd tc) in
          match mpp s with
          | None => Raise AttributeError s1
          | Some m =>
              let s2 := emit (EvGCode (G1_F 13200)) s1 in
              let s3 := emit (EvResult (result_record e m final_x final_y)) s2 in
              Return {| res_X := final_x; res_Y := final_y; res_MPP := m;
                        res_matrix := transform_matrix s |} s3
          end
      end
    else Continue moved.

(** The [if / elif] chain on [self.state]; a state that matches no
    branch falls through to the end of the loop body. *)
Definition process (e : env) (s : ctl) : step_result :=
  if (state s =? 0)%Z then process_first e s
  else if (1 <=? state s)%Z && (state s <? Z.of_nat (List.length calibrationCoordinates))%Z
  then process_sweep e s
  else if (state s =? Z.of_nat (List.length calibrationCoordinates))%Z
  then process_solve e s
  else if (state s =? 200)%Z then process_align e s
  else Continue s.

(** [(self.xy, self.target, self.tool_coordinates, self.radius) =
    self.analyzeFrame()]. *)
Definition store (d : detection) (s : ctl) : ctl :=
  {| state := state s; detect_count := detect_count s;
     average_location := average_location s;
     xy := d_xy d; oldxy := oldxy s;
     tool_coordinates := d_tool d;
     space_coordinates := space_coordinates s;
     camera_coordinates := camera_coordinates s;
     offsetX := offsetX s; offsetY := offsetY s; mpp := mpp s;
     transform_matrix := transform_matrix s;
     transform_residual := transform_residual s;
     guess_position := guess_position s;
     calibration_moves := calibration_moves s;
     trace := trace s |}.

(** Add the stored detection to the running sum and count it. *)
Definition accumulate (s : ctl) : ctl :=
  {| state := state s; detect_count := detect_count s + 1;
     average_location := (fst (average_location s) + inject_Z (fst (xy s)),
                          snd (average_location s) + inject_Z (snd (xy s)));
     xy := xy s; oldxy := oldxy s;
     tool_coordinates := tool_coordinates s;
     space_coordinates := space_coordinates s;
     camera_coordinates := camera_coordinates s;
     offsetX := offsetX s; offsetY := offsetY s; mpp := mpp s;
     transform_matrix := transform_matrix s;
     transform_residual := transform_residual s;
     guess_position := guess_position s;
     calibration_moves := calibration_moves s;
     trace := trace s |}.

(** Inside [if self.detect_count >= self.position_iterations]: divide
    the sum by the count and round it to 3 decimals. *)
Definition average (s : ctl) : ctl :=
  {| state := state s; detect_count := detect_count s;
     average_location :=
       (around 3 (fst (average_location s) / inject_Z (detect_count s)),
        around 3 (snd (average_location s) / inject_Z (detect_count s)));
     xy := xy s; oldxy := oldxy s;
     tool_coordinates := tool_coordinates s;
     space_coordinates := space_coordinates s;
     camera_coordinates := camera_coordinates s;
     offsetX := offsetX s; offsetY := offsetY s; mpp := mpp s;
     transform_matrix := transform_matrix s;
     transform_residual := transform_residual s;
     guess_position := guess_position s;
     calibration_moves := calibration_moves s;
     trace := trace s |}.

Inductive run_result : Type :=
| Returned (r : tool_result) (s : ctl) (unread : list (option detection))
| Raised (err : error) (s : ctl)
| Waiting (s : ctl).          (* inside [analyzeFrame], no answer yet *)

(** The [while True] loop of [calibrateTool], fed with the successive
    answers of [self.analyzeFrame()] ([None]: it returned nothing, and
    unpacking the tuple raises). *)
Fixpoint calibrate_loop (e : env) (s : ctl) (dets : list (option detection))
  : run_result :=
  match dets with
  | [] => Waiting s
  | None :: _ => Raised TypeError s
  | Some d :: rest =>
      let s1 := accumulate (store d s) in
      if (position_iterations <=? detect_count s1)%Z then
        let s2 := average s1 in
        match rest with
        | [] => Waiting s2
        | None :: _ => Raised TypeError s2
        | Some d2 :: rest' =>
            match process e (store d2 s2) with
            | Continue s3 => calibrate_loop e s3 rest'
            | Return r s3 => Returned r s3 rest'
            | Raise err s3 => Raised err s3
            end
        end
      else calibrate_loop e s1 rest
  end.

Definition calibrateTool (e : env) (prev_matrix : matrix) (prev_mpp : option npfloat)
  (dets : list (option detection)) : run_result :=
  calibrate_loop e (init prev_matrix prev_mpp) dets.

(** The state a run ends or pauses in. *)
Definition final_state (r : run_result) : ctl :=
  match r with
  | Returned _ s _ => s
  | Raised _ s => s
  | Waiting s => s
  end.

Definition step_state (r : step_result) : ctl :=
  match r with
  | Continue s => s
  | Return _ s => s
  | Raise _ s => s
  end.

(** The detections one visit of the state switch consumes: one that is
    added to the sum and the confirming one. *)
Definition turn (dc : detection * detection) : list (option detection) :=
  [Some (fst dc); Some (snd dc)].

(** The controller is in the sweep, [k] samples collected so far. *)
Definition sweeping (k : nat) (s : ctl) (cams : list (Z * Z)) (sp : list (Q * Q)) : Prop :=
  state s = Z.of_nat k /\ camera_coordinates s = cams /\ space_coordinates s = sp /\
  List.length cams = k /\ List.length sp = k /\ (5 <= detect_count s)%Z /\
  ((2 <= k)%nat -> mpp s <> None).

(** The machine coordinates of every sample are what the transform [T]
    gives for its pixel coordinate, without noise. *)
Definition noise_free (T : matrix) (pts : list ((Q * Q) * (Q * Q))) : Prop :=
  Forall (fun rp => fst (fst rp) == dot (feature_row (snd rp) 1) (col 0 T) /\
                    snd (fst rp) == dot (feature_row (snd rp) 1) (col 1 T)) pts.

End Calib.

(** ** Rounding of real numbers, to state what the program approximates *)

Module RealSpec.
Import Np.

(** [q] has at most [d] decimals. *)
Definition decimal (d : nat) (q : Q) : Prop := exists k : Z, q == k # pow10 d.

(** [q] is the real number [r] rounded to [d] decimals (whichever way a
    tie is broken). *)
Definition rounds_to (d : nat) (r : R) (q : Q) : Prop :=
  decimal d q /\ (Rabs (Q2R q - r) <= / (2 * IZR (Zpos (pow10 d))))%R.

(** The Euclidean distance between two pixel positions, as a real. *)
Definition euclid (p0 p1 : Z * Z) : R :=
  sqrt (IZR ((fst p0 - fst p1) ^ 2 + (snd p0 - snd p1) ^ 2)).

End RealSpec.

(** ** Concrete data used to exercise the definitions *)

Module Scenario.
Import Np LinAlg LinAlgSpec Detect Calib.

(** A 640 x 480 camera, controlled point (100, 100), no tool offsets. *)
Definition env0 : env :=
  {| camera_width := 640; camera_height := 480; cp_coords := (100, 100);
     g10_offset := fun _ => (0, 0); tool := 0; rep := 0 |}.

(** An affine transform: 12.8 mm across the frame width, 9.6 mm across
    its height, frame centre at machine position (98.5, 101.2). *)
Definition T0 : matrix :=
  [[0; 0]; [0; 0]; [0; 0]; [64 # 5; 0]; [0; 48 # 5]; [197 # 2; 506 # 5]].

Definition det_at (p : Z * Z) (m : Q * Q) : detection :=
  {| d_xy := p; d_target := (320, 240)%Z; d_tool := Some m; d_radius := 10 |}.

(** The controller in the alignment stage, transform and mpp known. *)
Definition aligning : ctl :=
  {| state := 200; detect_count := 5; average_location := (395, 180);
     xy := (395, 180)%Z; oldxy := (395, 180)%Z;
     tool_coordinates := Some (100, 100);
     space_coordinates := []; camera_coordinates := [];
     offsetX := 0; offsetY := 0; mpp := Some (Finite (1 # 50));
     transform_matrix := T0; transform_residual := None;
     guess_position := (1, 1); calibration_moves := 0; trace := [] |}.

(** The sample that the transform [T] produces for pixel [p]. *)
Definition sample (T : matrix) (p : Z * Z) : (Q * Q) * (Q * Q) :=
  let c := normalize_coords env0 p in
  ((Qred (dot (feature_row c 1) (col 0 T)), Qred (dot (feature_row c 1) (col 1 T))), c).

(** Ten samples of [T0] in general position. *)
Definition good_pts : list ((Q * Q) * (Q * Q)) :=
  map (sample T0)
      [(100, 100); (200, 100); (300, 120); (400, 90); (500, 300);
       (50, 400); (320, 240); (600, 50); (10, 10); (250, 333)]%Z.

(** Ten samples of [T0] on the pixel row 240. *)
Definition line_pts : list ((Q * Q) * (Q * Q)) :=
  map (fun i => sample T0 (64 * Z.of_nat i, 240)%Z) (seq 0 10).

(** A frame without circles, looked at when the clock shows [t] ms. *)
Definition miss_at (t : Z) : frame :=
  {| f_detection_on := true; f_ret := true; f_shape := (640, 480)%Z;
     f_keypoints := []; f_clock := t; f_coords := Some (100, 100) |}.

(** A frame with one circle at (321.4, 239.5) of diameter 21. *)
Definition hit_at (t : Z) : frame :=
  {| f_detection_on := true; f_ret := true; f_shape := (640, 480)%Z;
     f_keypoints := [ {| pt := (3214 # 10, 2395 # 10); size := 21 |} ];
     f_clock := t; f_coords := Some (100, 100) |}.

(** 25 frames without circles at 30 frames per second, the first one
    40 ms after the pass began at clock 0. *)
Definition misses_25 : list frame :=
  map (fun i => miss_at (40 + 33 * Z.of_nat i)) (seq 0 25).

(** A camera that shows 50 pixels per millimetre, with the frame
    centre over machine position (98.5, 101.2). *)
Definition pix (m : Q * Q) : Z * Z :=
  (rint (320 + 50 * (fst m - (985 # 10))), rint (240 + 50 * (snd m - (1012 # 10)))).

Definition det (m : Q * Q) : detection := det_at (pix m) m.

(** The detections of a sweep started at the controlled point. *)
Definition sweep_pairs : list (detection * detection) :=
  map (fun c => (det (100 + fst c, 100 + snd c), det (100 + fst c, 100 + snd c)))
      calibrationCoordinates.

Definition sweep_dets : list (option detection) :=
  repeat (Some (det (100, 100))) 6 ++ flat_map turn sweep_pairs.

(** The state in which the sweep of the scenario leaves the controller,
    and the samples it solved the transform from. *)
Definition sweep_state : ctl :=
  Eval vm_compute in
    match calibrateTool env0 [] None sweep_dets with
    | Waiting s => s
    | _ => init [] None
    end.

Definition sweep_input : list ((Q * Q) * (Q * Q)) :=
  Eval vm_compute in
    match transform_input env0 (space_coordinates sweep_state)
            (camera_coordinates sweep_state) with
    | Some input => input
    | None => []
    end.

(** A sweep in which every detection lies on the pixel row 240. *)
Definition collinear_dets : list (option detection) :=
  repeat (Some (det_at (0, 240)%Z (100, 100))) 6
  ++ flat_map (fun i => let c := nth_pair (i - 1) calibrationCoordinates in
                        repeat (Some (det_at (64 * Z.of_nat i, 240)%Z
                                        (100 + fst c, 100 + snd c))) 2)
              (seq 1 10).

(** The controller of that sweep when it enters the state switch for
    the last time: ten samples collected, the eleventh detection stored. *)
Definition collinear_state : ctl :=
  Eval vm_compute in
    match calibrate_loop env0 (init [] None) (firstn 24 collinear_dets) with
    | Waiting s =>
        let d := det_at (640, 240)%Z (100 - (294 # 1000), 100 - (405 # 1000)) in
        store d (average (accumulate (store d s)))
    | _ => init [] None
    end.

(** The detector locked on something that does not move with the
    tool: every detection is at pixel (300, 200).  The controller when
    it enters the state switch for the second time. *)
Definition static_state : ctl :=
  Eval vm_compute in
    match calibrateTool env0 [] None (repeat (Some (det_at (300, 200)%Z (100, 100))) 6) with
    | Waiting s =>
        let d := det_at (300, 200)%Z (100, 99 + (1 # 2)) in
        store d (average (accumulate (store d s)))
    | _ => init [] None
    end.

(** Five detections at pixel (100, 100), then a confirming one at
    (130, 100), then two at (140, 100). *)
Definition jitter_dets : list (option detection) :=
  repeat (Some (det_at (100, 100)%Z (100, 100))) 5
  ++ [Some (det_at (130, 100)%Z (100, 100))]
  ++ repeat (Some (det_at (140, 100)%Z (100, 100))) 2.

End Scenario.

(** ** Notions used to state what the controller does *)

Module AlignSpec.
Import Np LinAlg Detect Calib.

(** The machine position that the transform [T] gives for the
    normalized pixel [c]: [T.T @ [x^2, y^2, x*y, x, y, 1]]. *)
Definition predict (T : matrix) (c : Q * Q) : Q * Q :=
  (dot (feature_row c 1) (col 0 T), dot (feature_row c 1) (col 1 T)).

End AlignSpec.

Module TraceSpec.
Import Np LinAlg Detect Calib.

(** The result records in a trace, in the order sent. *)
Definition results (tr : list event) : list record :=
  flat_map (fun ev => match ev with EvResult r => [r] | _ => [] end) tr.

(** The relative moves in a trace with their feed rates, and their sum. *)
Definition relative_moves (tr : list event) : list (Q * Q * Z) :=
  flat_map (fun ev => match ev with EvGCode (G91_G1 x y f) => [(x, y, f)] | _ => [] end) tr.

Definition net_relative (tr : list event) : Q * Q :=
  fold_right (fun m acc => (fst (fst m) + fst acc, snd (fst m) + snd acc)) (0, 0)
             (relative_moves tr).

(** The absolute moves in a trace. *)
Definition absolute_moves (tr : list event) : list (Q * Q * Z) :=
  flat_map (fun ev => match ev with EvGCode (G90_G1 x y f) => [(x, y, f)] | _ => [] end) tr.

(** How often ['M564 S1'] was sent. *)
Definition count_M564 (tr : list event) : nat :=
  List.length (filter (fun ev => match ev with EvGCode M564_S1 => true | _ => false end) tr).

(** The relative moves of the alignment stage: those at feed rate 1000. *)
Definition alignment_moves (tr : list event) : list (Q * Q * Z) :=
  filter (fun m => (snd m =? 1000)%Z) (relative_moves tr).

(** The state of a fresh run is consistent: in the sweep as many
    pixel as machine coordinates are stored and mpp is known from the
    second sweep state on; in the alignment stage the transform is a
    6 x 2 array and mpp is known. *)
Definition consistent (s : ctl) : Prop :=
  state s = 0%Z \/
  ((1 <= state s <= 10)%Z /\
   List.length (space_coordinates s) = List.length (camera_coordinates s) /\
   ((2 <= state s)%Z -> mpp s <> None)) \/
  (state s = 200%Z /\ has_shape 6 2 (transform_matrix s) /\ mpp s <> None).

(** The values of the state tracker that the switch handles. *)
Definition in_range (s : ctl) : Prop := (0 <= state s <= 10)%Z \/ state s = 200%Z.

(** In the sweep state [k], the carriage stands at circle point [k - 1]:
    the last offset is that point and so is the sum of the relative
    moves sent so far. *)
Definition at_circle_point (s : ctl) : Prop :=
  (state s = 0%Z -> trace s = []) /\
  forall k : nat, (1 <= k <= 10)%nat -> state s = Z.of_nat k ->
    (offsetX s, offsetY s) = nth_pair (k - 1) calibrationCoordinates /\
    fst (net_relative (trace s)) == fst (nth_pair (k - 1) calibrationCoordinates) /\
    snd (net_relative (trace s)) == snd (nth_pair (k - 1) calibrationCoordinates).

(** The move counter agrees with what was sent. *)
Definition moves_counted (s : ctl) : Prop :=
  calibration_moves s = Z.of_nat (count_M564 (trace s)) /\
  count_M564 (trace s) = List.length (alignment_moves (trace s)).

(** The controller works with the transform [pm] and the scale [pp]
    kept from an earlier call: it is in the alignment stage and has
    sent no move of the sweep. *)
Definition reusing (pm : matrix) (pp : option npfloat) (s : ctl) : Prop :=
  state s = 200%Z /\ transform_matrix s = pm /\ mpp s = pp /\
  absolute_moves (trace s) = [] /\
  Forall (fun m => snd m = 1000%Z) (relative_moves (trace s)).

End TraceSpec.

(** ** Further scenarios *)

Module Scenario2.
Import Np LinAlg Detect Calib Scenario.

(** Six detections in the middle of the frame, the tool at machine
    position (98.5, 101.2). *)
Definition centre_dets : list (option detection) :=
  repeat (Some (det_at (320, 240)%Z (985 # 10, 1012 # 10))) 6.

End Scenario2.

Module Scenario3.
Import Np Detect Scenario.

(** A frame with two circles, looked at when the clock shows [t] ms. *)
Definition crowd_at (t : Z) : frame :=
  {| f_detection_on := true; f_ret := true; f_shape := (640, 480)%Z;
     f_keypoints := [ {| pt := (3214 # 10, 2395 # 10); size := 21 |};
                      {| pt := (100, 50); size := 8 |} ];
     f_clock := t; f_coords := Some (100, 100) |}.

(** 40 such frames at 30 frames per second. *)
Definition crowd_40 : list frame :=
  map (fun i => crowd_at (40 + 33 * Z.of_nat i)) (seq 0 40).

End Scenario3.

(** ** The printer address: [App.cleanPrinterURL] *)

Module Url.
Local Open Scope string_scope.

(** [c.lower()] for an ASCII character. *)
Definition lower_ascii (c : ascii) : ascii :=
  let n := nat_of_ascii c in
  if (65 <=? n)%nat && (n <=? 90)%nat then ascii_of_nat (n + 32) else c.

(** [s.lower()].  The scheme that [urlparse] finds is made of ASCII
    letters, digits, [+], [-] and [.] only. *)
Fixpoint lower (s : string) : string :=
  match s with
  | "" => ""
  | String c t => String (lower_ascii c) (lower t)
  end.

(** [x in l] for a list of strings. *)
Definition mem (x : string) (l : list string) : bool := existsb (String.eqb x) l.

(** [cleanPrinterURL], from the two components of [urlparse(inputString)]
    that it reads: [u[0]], the scheme, and [u[1]], the network
    location.  The result is [(_errCode, _errMsg, _printerURL)]. *)
Definition cleanPrinterURL (scheme netlocation : string) : Z * string * string :=
  if (String.length scheme <? 4)%nat || negb (mem (lower scheme) ["http"]) then
    (1%Z, "Invalid scheme. Please only use http connections.", "http://localhost")
  else if (String.length netlocation <? 1)%nat then
    (2%Z, "Invalid IP/network address.", "http://localhost")
  else if mem (lower scheme) ["https"] then
    (3%Z, "Cannot use https connections for Duet controllers", "http://localhost")
  else (0%Z, "", scheme ++ "://" ++ netlocation).

Definition errCode (r : Z * string * string) : Z := fst (fst r).
Definition errMsg (r : Z * string * string) : string := snd (fst r).
Definition printerURL (r : Z * string * string) : string := snd r.

End Url.

(** ** Reading the results back: [App.parseData] *)

Module Results.
Import Np Fmt.
Local Open Scope string_scope.

Inductive failure : Type :=
| KeyError        (* the record has no such key *)
| ValueError      (* [np.max] or [np.min] of an empty list *)
| BadNumeral.     (* a text outside the numerals that [Fmt.parse_int] and
                     [Fmt.parse_float] read; Python raises ValueError for it
                     unless it is one of the other spellings [int] and
                     [float] accept *)

Inductive result (A : Type) : Type :=
| Ok (a : A)
| Err (f : failure).
Arguments Ok {A} a.
Arguments Err {A} f.

Definition bind {A B : Type} (m : result A) (k : A -> result B) : result B :=
  match m with
  | Ok a => k a
  | Err f => Err f
  end.

Notation "x <- m ;; k" := (bind m (fun x => k))
  (at level 61, m at next level, right associativity).

Fixpoint mapM {A B : Type} (f : A -> result B) (l : list A) : result (list B) :=
  match l with
  | [] => Ok []
  | a :: l' => b <- f a ;; bs <- mapM f l' ;; Ok (b :: bs)
  end.

(** [int(line[key])] and [float(line[key])]. *)
Definition read_int (key : string) (line : list (string * string)) : result Z :=
  match lookup key line with
  | None => Err KeyError
  | Some v => match parse_int v with Some z => Ok z | None => Err BadNumeral end
  end.

Definition read_float (key : string) (line : list (string * string)) : result npfloat :=
  match lookup key line with
  | None => Err KeyError
  | Some v => match parse_float v with Some x => Ok x | None => Err BadNumeral end
  end.

(** [np.max] of a list of integers. *)
Definition np_max_Z (l : list Z) : result Z :=
  match l with
  | [] => Err ValueError
  | x :: t => Ok (fold_left Z.max t x)
  end.

(** Sums and differences of doubles. *)
Definition np_add (a b : npfloat) : npfloat :=
  match a, b with
  | NaN, _ | _, NaN => NaN
  | PosInf, NegInf | NegInf, PosInf => NaN
  | PosInf, _ | _, PosInf => PosInf
  | NegInf, _ | _, NegInf => NegInf
  | Finite x, Finite y => Finite (Qred (x + y))
  end.

Definition np_opp (a : npfloat) : npfloat :=
  match a with
  | Finite x => Finite (Qred (- x))
  | PosInf => NegInf
  | NegInf => PosInf
  | NaN => NaN
  end.

Definition np_sub (a b : npfloat) : npfloat := np_add a (np_opp b).

(** [np.mean] of a list of doubles; [nan] for the empty list. *)
Definition np_mean_f (l : list npfloat) : npfloat :=
  match l with
  | [] => NaN
  | _ =>
      match fold_left np_add l (Finite 0) with
      | Finite s => Finite (Qred (s / inject_Z (Z.of_nat (List.length l))))
      | other => other
      end
  end.

(** [[float(line[key]) for line in rawData if int(line['tool']) == i]]. *)
Fixpoint column (key : string) (rawData : list (list (string * string))) (i : Z)
  : result (list npfloat) :=
  match rawData with
  | [] => Ok []
  | line :: rest =>
      t <- read_int "tool" line ;;
      if (t =? i)%Z then
        v <- read_float key line ;;
        vs <- column key rest i ;;
        Ok (v :: vs)
      else column key rest i
  end.

(** The body of the loop over the tools.  The medians, ranges and
    standard deviations are computed and dropped; of them only the
    failure of [np.max] on an empty list can be seen. *)
Definition tool_data (rawData : list (list (string * string))) (i : Z)
  : result (list npfloat * list npfloat) :=
  x <- column "X" rawData i ;;
  y <- column "Y" rawData i ;;
  let x_mean := np_around 3 (np_mean_f x) in
  let y_mean := np_around 3 (np_mean_f y) in
  match x, y with
  | [], _ => Err ValueError
  | _, [] => Err ValueError
  | _, _ => Ok (map (fun v => np_sub v x_mean) x, map (fun v => np_sub v y_mean) y)
  end.

(** [range(n)]. *)
Definition range (n : Z) : list Z := map Z.of_nat (seq 0 (Z.to_nat n)).

(** [parseData(rawData)]: [(_numTools, _cycles, toolDataResult)]. *)
Definition parseData (rawData : list (list (string * string)))
  : result (Z * Z * list (list npfloat * list npfloat)) :=
  tools <- mapM (read_int "tool") rawData ;;
  max_tool <- np_max_Z tools ;;
  let _numTools := (max_tool + 1)%Z in
  cycles <- mapM (read_int "cycle") rawData ;;
  _cycles <- np_max_Z cycles ;;
  toolDataResult <- mapM (tool_data rawData) (range _numTools) ;;
  Ok (_numTools, _cycles, toolDataResult).

(** Every field that [parseData] reads of the record can be read. *)
Definition readable (line : list (string * string)) : Prop :=
  exists t c x y,
    read_int "tool" line = Ok t /\ read_int "cycle" line = Ok c /\
    read_float "X" line = Ok (Finite x) /\ read_float "Y" line = Ok (Finite y).

(** The tool number, the cycle and the offsets of a readable record. *)
Definition tool_of (line : list (string * string)) : Z :=
  match read_int "tool" line with Ok t => t | Err _ => 0 end.

Definition cycle_of (line : list (string * string)) : Z :=
  match read_int "cycle" line with Ok c => c | Err _ => 0 end.

Definition x_of (line : list (string * string)) : Q :=
  match read_float "X" line with Ok (Finite x) => x | _ => 0 end.

Definition y_of (line : list (string * string)) : Q :=
  match read_float "Y" line with Ok (Finite y) => y | _ => 0 end.

End Results.

Module Scenario4.
Import Np Detect Calib Scenario.

(** The results of two cycles with two tools, and the same without the
    records of tool 0. *)
Definition run_results : list record :=
  [ result_record env0 (Finite (1 # 50)) (3 # 2) (-(6 # 5));
    result_record {| camera_width := 640; camera_height := 480; cp_coords := (100, 100);
                     g10_offset := fun _ => (0, 0); tool := 1; rep := 0 |}
                  (Finite (1 # 50)) (-(201 # 10)) (403 # 100);
    result_record {| camera_width := 640; camera_height := 480; cp_coords := (100, 100);
                     g10_offset := fun _ => (0, 0); tool := 0; rep := 1 |}
                  (Finite (1 # 50)) (1503 # 1000) (-(1199 # 1000));
    result_record {| camera_width := 640; camera_height := 480; cp_coords := (100, 100);
                     g10_offset := fun _ => (0, 0); tool := 1; rep := 1 |}
                  (Finite (1 # 50)) (-(20098 # 1000)) (4031 # 1000) ].

Definition tool_1_results : list record :=
  filter (fun r => match Fmt.get_int "tool" r with Some 1%Z => true | _ => false end)
         run_results.

End Scenario4.

(** ** The alignment pass of the thread: [CalibrateNozzles.run] *)

Module Runner.
Import Np LinAlg Detect Calib.

(** The attributes of the thread that one call of [calibrateTool]
    leaves for the next: [self.transform_matrix] and [self.mpp]. *)
Record thread : Type := { th_matrix : matrix; th_mpp : option npfloat }.

(** What the alignment pass sends to the printer and to the host. *)
Inductive host_event : Type :=
| Select (t : Z)                   (* [gCode('T' + str(t))] *)
| MoveX (x : Q)                    (* [gCode('G1 X' + str(x))] *)
| MoveY (y : Q)                    (* [gCode('G1 Y' + str(y))] *)
| MoveZ (z : Q)                    (* [gCode('G1 Z' + str(z))] *)
| Calibrating (tr : list event)    (* what the call of [calibrateTool] sent *)
| SetOffset (t : Z) (x y : Q)      (* [gCode('G10 P' + .. + ' X' + .. + ' Y' + ..)] *)
| Complete                         (* [calibration_complete.emit()] *)
| Failure (err : error).           (* [detection_error.emit(str(mn1))] *)

Inductive outcome : Type :=
| Completed
| Failed (err : error)
| Starved.                         (* a call is still waiting for a detection *)

(** The pairs [(rep, tool)] of
    [for rep in range(cycles): for tool in range(num_tools)]. *)
Definition jobs (cycles num_tools : nat) : list (Z * Z) :=
  flat_map (fun rep => map (fun tool => (Z.of_nat rep, Z.of_nat tool)) (seq 0 num_tools))
           (seq 0 cycles).

(** The surroundings of the call for one pair: [g10] is what the
    printer answers to [getG10ToolOffset]. *)
Definition job_env (w h : positive) (cp : Q * Q) (g10 : Q * Q) (rep tool : Z) : env :=
  {| camera_width := w; camera_height := h; cp_coords := cp;
     g10_offset := fun _ => g10; tool := tool; rep := rep |}.

Definition leave (s : ctl) : thread :=
  {| th_matrix := transform_matrix s; th_mpp := mpp s |}.

(** The two loops and what follows them, inside the [try].  Each call
    is fed with the printer's answer and the detections of its own;
    while the printer is not idle only frames are shown. *)
Fixpoint run_jobs (w h : positive) (cp : Q * Q) (cp_z : Q) (js : list (Z * Z))
  (feeds : list ((Q * Q) * list (option detection))) (th : thread)
  : list host_event * thread * outcome :=
  match js with
  | [] =>
      ([Select (-1); MoveX (fst cp); MoveY (snd cp); MoveZ cp_z; Complete], th, Completed)
  | (rep, tool) :: js' =>
      let pre := [Select tool; MoveX (fst cp); MoveY (snd cp); MoveZ cp_z] in
      match feeds with
      | [] => (pre, th, Starved)
      | (g10, dets) :: feeds' =>
          match calibrateTool (job_env w h cp g10 rep tool) (th_matrix th) (th_mpp th) dets with
          | Returned r s _ =>
              let '(evs, th', o) := run_jobs w h cp cp_z js' feeds' (leave s) in
              (pre ++ [Calibrating (trace s); SetOffset tool (res_X r) (res_Y r)] ++ evs,
               th', o)
          | Raised err s => (pre ++ [Calibrating (trace s); Failure err], leave s, Failed err)
          | Waiting s => (pre ++ [Calibrating (trace s)], leave s, Starved)
          end
      end
  end.

Definition run_alignment (w h : positive) (cp : Q * Q) (cp_z : Q) (cycles num_tools : nat)
  (feeds : list ((Q * Q) * list (option detection))) (th : thread)
  : list host_event * thread * outcome :=
  run_jobs w h cp cp_z (jobs cycles num_tools) feeds th.

(** The tools whose offsets were set, in the order of the commands. *)
Definition offsets_set (evs : list host_event) : list Z :=
  flat_map (fun ev => match ev with SetOffset t _ _ => [t] | _ => [] end) evs.

(** The call did no sweep: no absolute move, relative moves at feed
    rate 1000 only. *)
Definition sweep_free (ev : host_event) : Prop :=
  match ev with
  | Calibrating tr =>
      TraceSpec.absolute_moves tr = [] /\
      Forall (fun m => snd m = 1000%Z) (TraceSpec.relative_moves tr)
  | _ => True
  end.

End Runner.

Module Scenario5.
Import Np LinAlg Detect Calib Scenario Scenario2 Runner.

(** Two cycles with two tools; every call is fed with the detections of
    a sweep followed by detections in the middle of the frame. *)
Definition feeds_2x2 : list ((Q * Q) * list (option detection)) :=
  repeat ((0, 0), sweep_dets ++ centre_dets) 4.

(** The same, the detector being switched off during the third call. *)
Definition feeds_off : list ((Q * Q) * list (option detection)) :=
  repeat ((0, 0), sweep_dets ++ centre_dets) 2 ++ [((0, 0), [None])].

(** The first call of that pass. *)
Definition first_call : run_result :=
  Eval vm_compute in
    calibrateTool (job_env 640 480 (100, 100) (0, 0) 0 0) [] None (sweep_dets ++ centre_dets).

End Scenario5.

(** ** IEEE doubles *)

Module Binary64.
Import Np LinAlg.

(** [2^e] for an integer exponent. *)
Definition pow2 (e : Z) : Q :=
  if (0 <=? e)%Z then inject_Z (2 ^ e) else 1 # Z.to_pos (2 ^ (- e)).

(** The binary exponent of a rational that is not zero:
    [2^e <= |q| < 2^(e+1)]. *)
Definition ilog2 (q : Q) : Z :=
  let k := (Z.log2 (Z.abs (Qnum q)) - Z.log2 (Zpos (Qden q)))%Z in
  if Qle_bool (pow2 k) (Qabs q) then k else (k - 1)%Z.

(** The double nearest to [q], ties to the even significand: 53
    significant bits, the last of them of weight [2^-1074] at least
    (gradual underflow).  Numbers beyond the largest double, which the
    format turns into [inf], are not in the range of this function. *)
Definition b64 (q : Q) : Q :=
  let q := Qred q in
  if Qeq_bool q 0 then 0
  else
    let p := Z.max (ilog2 q - 52) (-1074) in
    Qred (inject_Z (rint (q / pow2 p)) * pow2 p).

(** An inner product accumulated from the left, every product and
    every sum stored as a double; [A @ v] row by row. *)
Definition dot_seq (r v : vec) : Q :=
  fold_left (fun acc ab => b64 (acc + b64 (fst ab * snd ab))) (combine r v) 0.

Definition matvec_seq (A : matrix) (v : vec) : vec := map (fun r => dot_seq r v) A.

End Binary64.

(** ** Number systems

    What the alignment step computes depends on the arithmetic of the
    machine.  The operations of Python and numpy that the step uses
    are gathered here: the four basic operations store the exact
    result rounded ([rnd]); [x ** 2] goes through the power function
    of the C library and [A @ v] through the matrix product of the
    numerical library, whose last bit depends on how they were built,
    so both are taken as they come. *)

Module Num.
Import Np LinAlg Binary64.

Record arith : Type := {
  rnd : Q -> Q;                   (* the stored result of [+], [-], [*], [/] and of a literal *)
  sqr : Q -> Q;                   (* [x ** 2] *)
  prod : matrix -> vec -> vec     (* [A @ v] *)
}.

(** Exact arithmetic: nothing is rounded. *)
Definition exact : arith :=
  {| rnd := fun q => q; sqr := fun x => x * x; prod := matvec |}.

(** IEEE doubles, the power correctly rounded and the matrix product
    accumulated from the left. *)
Definition binary64 : arith :=
  {| rnd := b64; sqr := fun x => b64 (x * x); prod := matvec_seq |}.

(** Sizes for which no operation of the alignment step leaves the
    range of the doubles. *)
Definition moderate (q : Q) : Prop := Qabs q <= inject_Z (2 ^ 500).

Definition moderate_matrix (T : matrix) : Prop := Forall (Forall moderate) T.


(** A pixel position as [np.uint16] holds it. *)
Definition pixel (p : Z * Z) : Prop :=
  (0 <= fst p < 65536)%Z /\ (0 <= snd p < 65536)%Z.

End Num.

(** ** The alignment stage in a number system *)

Module CalibNum.
Import Np LinAlg Detect Calib Num.

(** The frame of a camera whose pixel positions fit [np.uint16]. *)
Definition frame_fits (e : env) : Prop :=
  (Zpos (camera_width e) <= 65536)%Z /\ (Zpos (camera_height e) <= 65536)%Z.

Section Arithmetic.
Variable N : arith.

(** [np.around(x, d)]: [x * 10^d], [np.rint], [/ 10^d]. *)
Definition around (d : nat) (x : Q) : Q :=
  rnd N (Qred (rint (rnd N (x * inject_Z (Zpos (pow10 d)))) # pow10 d)).

(** [coords[0] / xdim - 0.5]: the pixel coordinate, an [np.uint16], and
    the frame size, an [int], are converted without loss; 0.5 is a
    power of two. *)
Definition normalize_coords (e : env) (coords : Z * Z) : Q * Q :=
  (rnd N (rnd N (inject_Z (fst coords) / inject_Z (Zpos (camera_width e))) - (1 # 2)),
   rnd N (rnd N (inject_Z (snd coords) / inject_Z (Zpos (camera_height e))) - (1 # 2))).

(** [[self.cx**2, self.cy**2, self.cx*self.cy, self.cx, self.cy, 0]]. *)
Definition feature (c : Q * Q) : vec :=
  let x := fst c in let y := snd c in
  [sqr N x; sqr N y; rnd N (x * y); x; y; 0].

(** [-1*(0.55*self.transform_matrix.T @ self.v)]: the transposed matrix
    is scaled entry by entry, multiplied by the vector, and the product
    is negated; then each axis is rounded with [np.around(., 3)]. *)
Definition offsets (T : matrix) (v : vec) : Q * Q :=
  let M := map (map (fun t => rnd N (rnd N (55 # 100) * t))) (transpose 2 T) in
  let o := map (fun t => rnd N (-(1) * t)) (prod N M v) in
  (around 3 (nth 0 o 0), around 3 (nth 1 o 0)).

(** Step 2, nozzle alignment ([self.state == 200]).  The numbers of a
    motion command are the ones its text spells: ['{0:-1.3f}'] prints
    the double rounded to 3 decimals. *)
Definition process_align (e : env) (s : ctl) : step_result :=
  let counted :=
    {| state := state s; detect_count := detect_count s;
       average_location := average_location s; xy := xy s;
       oldxy := oldxy s;
       tool_coordinates := tool_coordinates s;
       space_coordinates := space_coordinates s;
       camera_coordinates := camera_coordinates s;
       offsetX := offsetX s; offsetY := offsetY s; mpp := mpp s;
       transform_matrix := transform_matrix s;
       transform_residual := transform_residual s;
       guess_position := guess_position s;
       calibration_moves := calibration_moves s + 1;
       trace := trace s |} in
  if negb (Nat.eqb (List.length (transform_matrix s)) 6) then Raise ValueError counted
  else if negb (forallb (fun r => Nat.eqb (List.length r) 2) (transform_matrix s))
  then Raise IndexError counted
  else
    let c := normalize_coords e (xy s) in
    let v := feature c in
    let off := offsets (transform_matrix s) v in
    let moved :=
      {| state := state s; detect_count := detect_count s;
         average_location := average_location s; xy := xy s;
         oldxy := xy s;
         tool_coordinates := tool_coordinates s;
         space_coordinates := space_coordinates s;
         camera_coordinates := camera_coordinates s;
         offsetX := offsetX s; offsetY := offsetY s; mpp := mpp s;
         transform_matrix := transform_matrix s;
         transform_residual := transform_residual s;
         guess_position := guess_position s;
         calibration_moves := calibration_moves s + 1;
         trace := trace s ++ [EvGCode M564_S1;
                              EvGCode (G91_G1 (Np.around 3 (fst off))
                                              (Np.around 3 (snd off)) 1000)] |} in
    if Qeq_bool (fst off) 0 && Qeq_bool (snd off) 0 then
      let s1 := emit (EvGCode (G1_F 13200)) moved in
      let tool_offsets := g10_offset e (tool e) in
      match tool_coordinates s with
      | None => Raise TypeError s1
      | Some tc =>
          let final_x :=
            around 3 (rnd N (rnd N (fst (cp_coords e) + fst tool_offsets) - fst tc)) in
          let final_y :=
            around 3 (rnd N (rnd N (snd (cp_coords e) + snd tool_offsets) - snd tc)) in
          match mpp s with
          | None => Raise AttributeError s1
          | Some m =>
              let s2 := emit (EvGCode (G1_F 13200)) s1 in
              let s3 := emit (EvResult (result_record e m final_x final_y)) s2 in
              Return {| res_X := final_x; res_Y := final_y; res_MPP := m;
                        res_matrix := transform_matrix s |} s3
          end
      end
    else Continue moved.

(** The [if / elif] chain on [self.state]; the camera calibration of
    Step 1 is the one of [Calib]. *)
Definition process (e : env) (s : ctl) : step_result :=
  if (state s =? 0)%Z then process_first e s
  else if (1 <=? state s)%Z && (state s <? Z.of_nat (List.length calibrationCoordinates))%Z
  then process_sweep e s
  else if (state s =? Z.of_nat (List.length calibrationCoordinates))%Z
  then process_solve e s
  else if (state s =? 200)%Z then process_align e s
  else Continue s.

(** The [while True] loop of [calibrateTool]. *)
Fixpoint calibrate_loop (e : env) (s : ctl) (dets : list (option detection))
  : run_result :=
  match dets with
  | [] => Waiting s
  | None :: _ => Raised TypeError s
  | Some d :: rest =>
      let s1 := accumulate (store d s) in
      if (position_iterations <=? detect_count s1)%Z then
        let s2 := average s1 in
        match rest with
        | [] => Waiting s2
        | None :: _ => Raised TypeError s2
        | Some d2 :: rest' =>
            match process e (store d2 s2) with
            | Continue s3 => calibrate_loop e s3 rest'
            | Return r s3 => Returned r s3 rest'
            | Raise err s3 => Raised err s3
            end
        end
      else calibrate_loop e s1 rest
  end.

Definition calibrateTool (e : env) (prev_matrix : matrix) (prev_mpp : option npfloat)
  (dets : list (option detection)) : run_result :=
  calibrate_loop e (init prev_matrix prev_mpp) dets.

End Arithmetic.

(** The transform of the alignment stage is a 6 x 2 array, as the one
    that [np.linalg.lstsq] returned. *)
Definition shaped (s : ctl) : Prop :=
  state s = 200%Z -> has_shape 6 2 (transform_matrix s).

End CalibNum.

(** ** Notions used to state what the sweep collects *)

Module SweepSpec.
Import Np LinAlg Detect Calib.

(** The machine coordinates that came with a detection
    ([toolCoordinates], the printer's answer to [getCoords]). *)
Definition machine (d : detection) : Q * Q :=
  match d_tool d with
  | Some m => m
  | None => (0, 0)
  end.

(** The calibration sample that a confirming detection gives: machine
    coordinates and normalized pixel coordinates. *)
Definition sample_of (e : env) (d : detection) : (Q * Q) * (Q * Q) :=
  (machine d, normalize_coords e (d_xy d)).

End SweepSpec.

(** ** Conditioning of a least-squares problem *)

Module Conditioning.
Import Np LinAlg.

(** Symmetric elimination without exchanges on the first [n] columns:
    every pivot is positive.  For a symmetric [n x n] matrix this
    decides whether it is positive definite. *)
Fixpoint positive_pivots (n : nat) (M : matrix) : bool :=
  match n with
  | O => true
  | S n' =>
      match M with
      | (a :: r) :: rows =>
          negb (Qle_bool a 0) &&
          positive_pivots n'
            (map (fun row => match row with
                             | b :: row' => map Qred (vadd row' (vscale (- (b / a)) r))
                             | [] => []
                             end) rows)
      | _ => false
      end
  end.

Definition trace_of (n : nat) (G : matrix) : Q :=
  fold_right Qplus 0 (map (fun i => entry G i i) (seq 0 n)).

(** Every singular value of [A] ([n] columns) is larger than [delta]
    times the largest one: [A.T A - delta^2 tr(A.T A) I] is positive
    definite, and the trace of [A.T A] is at least its largest
    eigenvalue.  numpy counts a singular value as zero when it is
    below [eps * max(M, N)] times the largest one, so that a matrix
    that is well conditioned in this sense, for a [delta] far above
    that threshold, has full rank for [np.linalg.lstsq] too. *)
Definition well_conditioned (n : nat) (delta : Q) (A : matrix) : bool :=
  let G := gram n A in
  let t := delta * delta * trace_of n G in
  positive_pivots n
    (map (fun i => map (fun j => Qred (entry G i j - (if Nat.eqb i j then t else 0)))
                       (seq 0 n))
         (seq 0 n)).

(** The margin used below: six orders of magnitude. *)
Definition margin : Q := 1 # 1000000.

End Conditioning.

(** ** More data to exercise the definitions *)

Module Scenario6.
Import Np LinAlg Detect Calib Scenario Num.

(** A transform that maps normalized coordinates to millimetres one to
    one. *)
Definition T1 : matrix := [[0; 0]; [0; 0]; [0; 0]; [1; 0]; [0; 1]; [0; 0]].

(** The controller in the alignment stage with that transform. *)
Definition aligning_T1 : ctl :=
  {| state := 200; detect_count := 5; average_location := (0, 0);
     xy := (0, 0)%Z; oldxy := (0, 0)%Z;
     tool_coordinates := Some (100, 100);
     space_coordinates := []; camera_coordinates := [];
     offsetX := 0; offsetY := 0; mpp := Some (Finite (1 # 50));
     transform_matrix := T1; transform_residual := None;
     guess_position := (1, 1); calibration_moves := 0; trace := [] |}.

(** A transform whose only entry is the double [0x1.e430e14f3ed80p-10]. *)
Definition T2 : matrix :=
  [[0; 0]; [0; 0]; [0; 0]; [66546695792603 # 36028797018963968; 0]; [0; 0]; [0; 0]].

End Scenario6.

(** * Properties *)

(** ** Rounding *)

Example rint_ties :
  Np.rint (5 # 2) = 2%Z /\ Np.rint (7 # 2) = 4%Z /\ Np.rint (-(5 # 2)) = (-2)%Z /\
  Np.rint (13 # 5) = 3%Z /\ Np.rint (-(1 # 3)) = 0%Z.
Proof. repeat split; reflexivity. Qed.

Example around_ex :
  Np.around 3 (12345 # 10000) = (617 # 500) /\ Np.around 3 (-(6 # 5)) = (-(6 # 5)) /\
  Np.around_sqrt 3 25 = 5 /\ Np.around_sqrt 3 18 = (4243 # 1000).
Proof. repeat split; reflexivity. Qed.

Module NpFacts.
Import Np.

Lemma rint_comp (x y : Q) : x == y -> rint x = rint y.
Proof.
  intros H. unfold rint. rewrite (Qfloor_comp _ _ H).
  assert (E : x - inject_Z (Qfloor y) == y - inject_Z (Qfloor y)) by (rewrite H; reflexivity).
  rewrite (Qcompare_comp _ _ E _ _ (Qeq_refl (1 # 2))). reflexivity.
Qed.

Lemma rint_inject_Z (z : Z) : rint (inject_Z z) = z.
Proof.
  unfold rint. rewrite Qfloor_Z.
  assert (E : inject_Z z - inject_Z z == 0) by ring.
  rewrite (Qcompare_comp _ _ E _ _ (Qeq_refl (1 # 2))). reflexivity.
Qed.

(** The rounded value is within one half of the argument. *)
Lemma rint_bound (x : Q) : Qabs (x - inject_Z (rint x)) <= 1 # 2.
Proof.
  apply Qabs_Qle_condition.
  pose proof (Qfloor_le x) as Hl. pose proof (Qlt_floor x) as Hu.
  unfold rint.
  destruct (Qcompare (x - inject_Z (Qfloor x)) (1 # 2)) eqn:C.
  - apply Qeq_alt in C.
    destruct (Z.even (Qfloor x)).
    + rewrite C. split; discriminate.
    + rewrite inject_Z_plus. split.
      * setoid_replace (x - (inject_Z (Qfloor x) + inject_Z 1))
          with ((x - inject_Z (Qfloor x)) - 1) by ring.
        rewrite C. discriminate.
      * setoid_replace (x - (inject_Z (Qfloor x) + inject_Z 1))
          with ((x - inject_Z (Qfloor x)) - 1) by ring.
        rewrite C. discriminate.
  - apply Qlt_alt in C. split.
    + apply Qle_trans with 0; [discriminate|].
      setoid_replace 0 with (inject_Z (Qfloor x) - inject_Z (Qfloor x)) by ring.
      apply Qplus_le_compat; [exact Hl | apply Qle_refl].
    + apply Qlt_le_weak. exact C.
  - apply Qgt_alt in C. rewrite inject_Z_plus in *.
    setoid_replace (x - (inject_Z (Qfloor x) + inject_Z 1))
      with ((x - inject_Z (Qfloor x)) - 1) by ring.
    split.
    + apply Qlt_le_weak.
      setoid_replace (-(1 # 2)) with ((1 # 2) - 1) by reflexivity.
      apply Qplus_lt_le_compat; [exact C | apply Qle_refl].
    + apply Qle_trans with 0; [|discriminate].
      apply Qlt_le_weak.
      setoid_replace 0 with ((inject_Z (Qfloor x) + inject_Z 1) - inject_Z (Qfloor x) - 1) by ring.
      apply Qplus_lt_le_compat; [|apply Qle_refl].
      apply Qplus_lt_le_compat; [exact Hu | apply Qle_refl].
Qed.

Lemma around_comp (d : nat) (x y : Q) : x == y -> around d x = around d y.
Proof.
  intros H. unfold around.
  rewrite (rint_comp (x * inject_Z (Zpos (pow10 d))) (y * inject_Z (Zpos (pow10 d)))).
  - reflexivity.
  - rewrite H. reflexivity.
Qed.

Lemma around_value (d : nat) (x : Q) :
  around d x == inject_Z (rint (x * inject_Z (Zpos (pow10 d)))) / inject_Z (Zpos (pow10 d)).
Proof.
  unfold around. rewrite Qred_correct. rewrite Qmake_Qdiv. reflexivity.
Qed.

(** A number with [d] decimals is left as it is. *)
Lemma around_decimal (d : nat) (k : Z) : around d (k # pow10 d) == k # pow10 d.
Proof.
  unfold around. rewrite Qred_correct.
  rewrite (rint_comp _ (inject_Z k)).
  - rewrite rint_inject_Z. reflexivity.
  - rewrite Qmake_Qdiv. field. discriminate.
Qed.

Lemma around_idem (d : nat) (x : Q) : around d (around d x) = around d x.
Proof.
  unfold around at 2 3.
  set (k := rint (x * inject_Z (Zpos (pow10 d)))).
  rewrite (around_comp d (Qred (k # pow10 d)) (k # pow10 d)) by apply Qred_correct.
  unfold around. apply Qred_complete.
  rewrite (rint_comp _ (inject_Z k)).
  - rewrite rint_inject_Z. reflexivity.
  - rewrite Qmake_Qdiv. field. discriminate.
Qed.

(** [np.around(x, d)] is within half a unit of the last decimal. *)
Lemma around_bound (d : nat) (x : Q) :
  Qabs (around d x - x) <= 1 # (2 * pow10 d).
Proof.
  set (p := inject_Z (Zpos (pow10 d))).
  assert (Hp : 0 < p) by reflexivity.
  pose proof (rint_bound (x * p)) as B. fold p in B.
  assert (E : around d x - x == - ((x * p - inject_Z (rint (x * p))) / p)).
  { rewrite around_value. fold p. field. intro H0. rewrite H0 in Hp. discriminate. }
  rewrite E, Qabs_opp.
  unfold Qdiv. rewrite Qabs_Qmult.
  rewrite (Qabs_pos (/ p)) by (apply Qlt_le_weak, Qinv_lt_0_compat; exact Hp).
  setoid_replace (1 # 2 * pow10 d) with ((1 # 2) * / p).
  - apply Qmult_le_compat_r; [exact B|].
    apply Qlt_le_weak, Qinv_lt_0_compat; exact Hp.
  - unfold p. rewrite (Qmake_Qdiv 1 (2 * pow10 d)).
    rewrite Pos2Z.inj_mul, inject_Z_mult. field. discriminate.
Qed.

End NpFacts.

(** ** The controller *)

Module CalibFacts.
Import Np LinAlg Detect Calib NpFacts Scenario.

Lemma has_shapeb_true (m n : nat) (A : matrix) :
  has_shapeb m n A = true <-> has_shape m n A.
Proof.
  unfold has_shapeb, has_shape. rewrite andb_true_iff, Nat.eqb_eq, forallb_forall, Forall_forall.
  split; intros [H1 H2]; split; auto; intros r Hr; apply Nat.eqb_eq; auto.
Qed.

Lemma shape_6_2 (T : matrix) :
  has_shape 6 2 T ->
  exists a0 b0 a1 b1 a2 b2 a3 b3 a4 b4 a5 b5,
    T = [[a0; b0]; [a1; b1]; [a2; b2]; [a3; b3]; [a4; b4]; [a5; b5]].
Proof.
  intros [HL HF].
  do 7 (destruct T as [|? T]; try discriminate HL).
  repeat match goal with
         | H : Forall _ (_ :: _) |- _ => inversion H; clear H; subst
         end.
  repeat match goal with
         | H : List.length ?r = 2%nat |- _ =>
             destruct r as [|? [|? [|? ?]]]; try discriminate H; clear H
         end.
  repeat eexists.
Qed.



(** Pixel (320, 240) of a 640 x 480 frame is the origin, the corners
    are (-0.5, -0.5) and (0.5, 0.5). *)
Example normalize_coords_examples :
  fst (normalize_coords env0 (320, 240)%Z) == 0 /\
  snd (normalize_coords env0 (320, 240)%Z) == 0 /\
  fst (normalize_coords env0 (0, 0)%Z) == -(1 # 2) /\
  snd (normalize_coords env0 (0, 0)%Z) == -(1 # 2) /\
  fst (normalize_coords env0 (640, 480)%Z) == 1 # 2 /\
  snd (normalize_coords env0 (640, 480)%Z) == 1 # 2.
Proof. repeat split; reflexivity. Qed.

Example getDistance_3_4 : getDistance 0 0 3 4 = 5.
Proof. reflexivity. Qed.


(** One turn of the loop that reaches the state switch: the detection
    [d] is added to the sum, [d2] is the confirming one. *)
Lemma loop_turn (e : env) (s : ctl) (d d2 : detection) (rest : list (option detection)) :
  (4 <= detect_count s)%Z ->
  calibrate_loop e s (Some d :: Some d2 :: rest) =
  match process e (store d2 (average (accumulate (store d s)))) with
  | Continue s3 => calibrate_loop e s3 rest
  | Return r s3 => Returned r s3 rest
  | Raise err s3 => Raised err s3
  end.
Proof.
  intros H. cbn [calibrate_loop].
  replace (position_iterations <=? detect_count (accumulate (store d s)))%Z with true.
  - reflexivity.
  - symmetry. apply Z.leb_le. cbn. unfold position_iterations. lia.
Qed.

Lemma process_200 (e : env) (s : ctl) :
  state s = 200%Z -> process e s = process_align e s.
Proof. intros H. unfold process. rewrite H. reflexivity. Qed.

End CalibFacts.

(** ** Millimetres per pixel *)

Module MppFacts.
Import Np LinAlg Detect Calib NpFacts CalibFacts RealSpec Scenario.

Lemma Q2R_make (k : Z) (p : positive) : Q2R (k # p) = (IZR k / IZR (Zpos p))%R.
Proof. reflexivity. Qed.

Lemma Q2R_abs (x : Q) : Q2R (Qabs x) = Rabs (Q2R x).
Proof.
  destruct (Qlt_le_dec x 0) as [H|H].
  - rewrite Qabs_neg by (apply Qlt_le_weak; exact H).
    rewrite Q2R_opp. apply Qlt_Rlt in H. rewrite RMicromega.Q2R_0 in H.
    rewrite Rabs_left; [reflexivity | exact H].
  - rewrite Qabs_pos by exact H.
    apply Qle_Rle in H. rewrite RMicromega.Q2R_0 in H.
    rewrite Rabs_right; [reflexivity | apply Rle_ge; exact H].
Qed.

Lemma around_is_decimal (d : nat) (x : Q) : decimal d (around d x).
Proof. eexists. unfold around. apply Qred_correct. Qed.

(** [np.around] rounds in the sense of [rounds_to]. *)
Lemma around_rounds (d : nat) (x : Q) : rounds_to d (Q2R x) (around d x).
Proof.
  split; [apply around_is_decimal|].
  rewrite <- Q2R_minus, <- Q2R_abs.
  pose proof (Qle_Rle _ _ (around_bound d x)) as H.
  rewrite Q2R_make in H. rewrite Pos2Z.inj_mul, mult_IZR in H.
  unfold Rdiv in H. rewrite Rmult_1_l in H. exact H.
Qed.

Ltac push_IZR H :=
  repeat first [ rewrite mult_IZR in H | rewrite plus_IZR in H
               | rewrite minus_IZR in H | rewrite opp_IZR in H ].

Lemma sqrt_nearest (m k : Z) :
  (0 <= m)%Z -> k = ((Z.sqrt (4 * m) + 1) / 2)%Z ->
  (Rabs (IZR k - sqrt (IZR m)) <= / 2)%R.
Proof.
  intros Hm Hk.
  pose proof (Z.sqrt_spec (4 * m) ltac:(lia)) as [Hlo Hhi].
  set (t := Z.sqrt (4 * m)) in *.
  assert (Ht : (0 <= t)%Z) by apply Z.sqrt_nonneg.
  assert (Hk2 : (2 * k - 1 <= t <= 2 * k)%Z).
  { subst k. Z.div_mod_to_equations. lia. }
  set (r := sqrt (IZR m)).
  assert (Hr0 : (0 <= r)%R) by apply sqrt_pos.
  assert (Hr2 : (r * r = IZR m)%R) by (apply sqrt_sqrt; apply IZR_le; exact Hm).
  assert (A : (IZR ((2 * k - 1) * (2 * k - 1)) <= IZR (4 * m))%R \/ (k <= 0)%Z).
  { destruct (Z_le_gt_dec k 0) as [L|G]; [right; exact L|left].
    apply IZR_le. nia. }
  assert (B : (IZR (4 * m) < IZR ((2 * k + 1) * (2 * k + 1)))%R).
  { apply IZR_lt. nia. }
  push_IZR B.
  assert (Hk0 : (0 <= k)%Z) by lia.
  apply IZR_le in Hk0.
  apply Rabs_le. split.
  - (* k - r >= -1/2 : r <= k + 1/2 *)
    destruct (Rle_dec (- / 2) (IZR k - r)) as [L|G]; [exact L|exfalso].
    assert (P : (0 < (2 * r - 2 * IZR k - 1) * (2 * r + (2 * IZR k + 1)))%R)
      by (apply Rmult_lt_0_compat; lra).
    lra.
  - destruct A as [A|A].
    + push_IZR A.
      destruct (Rle_dec (IZR k - r) (/ 2)) as [L|G]; [exact L|exfalso].
      assert (P : (0 < (2 * IZR k - 1 - 2 * r) * (2 * IZR k - 1 + 2 * r))%R)
        by (apply Rmult_lt_0_compat; lra).
      lra.
    + assert (K : k = 0%Z) by lia. rewrite K.
      assert (0 <= r)%R by exact Hr0. lra.
Qed.

Lemma pow10_pos_sq (d : nat) (n : Z) :
  (4 * Zpos (pow10 d) * Zpos (pow10 d) * n = 4 * (Zpos (pow10 d) * Zpos (pow10 d) * n))%Z.
Proof. ring. Qed.

(** [around_sqrt d n] is [sqrt n] rounded to [d] decimals. *)
Lemma around_sqrt_rounds (d : nat) (n : Z) :
  (0 <= n)%Z -> rounds_to d (sqrt (IZR n)) (around_sqrt d n).
Proof.
  intros Hn. split.
  - eexists. unfold around_sqrt. apply Qred_correct.
  - unfold around_sqrt. set (s := Zpos (pow10 d)).
    set (k := ((Z.sqrt (4 * s * s * n) + 1) / 2)%Z).
    rewrite (Qeq_eqR _ _ (Qred_correct (k # pow10 d))). rewrite Q2R_make. fold s.
    assert (Hs : (0 < IZR s)%R) by (apply IZR_lt; reflexivity).
    pose proof (sqrt_nearest (s * s * n) k ltac:(nia)
                  ltac:(unfold k; f_equal; f_equal; f_equal; ring)) as H.
    rewrite !mult_IZR in H.
    rewrite sqrt_mult in H by (try apply IZR_le; nra || lia).
    rewrite sqrt_square in H by lra.
    replace (IZR k / IZR s - sqrt (IZR n))%R
      with ((IZR k - IZR s * sqrt (IZR n)) * / IZR s)%R by (field; lra).
    rewrite Rabs_mult, (Rabs_right (/ IZR s)).
    + rewrite Rinv_mult. apply Rmult_le_compat_r; [|exact H].
      apply Rlt_le, Rinv_0_lt_compat. exact Hs.
    + apply Rle_ge, Rlt_le, Rinv_0_lt_compat. exact Hs.
Qed.


Lemma around_sqrt_zero (d : nat) (n : Z) :
  (0 <= n)%Z -> (around_sqrt d n == 0 <-> n = 0%Z).
Proof.
  intros Hn. unfold around_sqrt. rewrite Qred_correct.
  set (s := Zpos (pow10 d)).
  assert (Hs : (1 <= s)%Z) by (unfold s; lia).
  unfold Qeq. cbn [Qnum Qden]. rewrite Z.mul_0_l, Z.mul_1_r.
  split.
  - intros H.
    destruct (Z.eq_dec n 0) as [E|N]; [exact E|exfalso].
    assert (L : (4 <= 4 * s * s * n)%Z) by nia.
    pose proof (Z.sqrt_le_mono _ _ L) as M.
    change (Z.sqrt 4) with 2%Z in M.
    revert H M. generalize (Z.sqrt (4 * s * s * n)). intros t H M.
    Z.div_mod_to_equations. lia.
  - intros ->. rewrite Z.mul_0_r. reflexivity.
Qed.

Lemma sq_dist_nonneg (x1 y1 x0 y0 : Z) : (0 <= (x1 - x0) ^ 2 + (y1 - y0) ^ 2)%Z.
Proof. nia. Qed.

Lemma sq_dist_zero (x1 y1 x0 y0 : Z) :
  ((x1 - x0) ^ 2 + (y1 - y0) ^ 2 = 0)%Z <-> x1 = x0 /\ y1 = y0.
Proof. split; [intros H; split; nia | intros [-> ->]; ring]. Qed.

Lemma getDistance_zero (p0 p1 : Z * Z) :
  getDistance (fst p0) (snd p0) (fst p1) (snd p1) == 0 <-> p0 = p1.
Proof.
  unfold getDistance. rewrite around_sqrt_zero by apply sq_dist_nonneg.
  rewrite sq_dist_zero. destruct p0, p1; cbn. split.
  - intros [-> ->]. reflexivity.
  - intros E. inversion E. auto.
Qed.

Lemma getDistance_nonneg (p0 p1 : Z * Z) :
  0 <= getDistance (fst p0) (snd p0) (fst p1) (snd p1).
Proof.
  unfold getDistance, around_sqrt. rewrite Qred_correct.
  unfold Qle. cbn [Qnum Qden]. rewrite Z.mul_0_l, Z.mul_1_r.
  apply Z.div_pos; [|lia].
  pose proof (Z.sqrt_nonneg (4 * Z.pos (pow10 3) * Z.pos (pow10 3) *
     ((fst p0 - fst p1) ^ 2 + (snd p0 - snd p1) ^ 2))). lia.
Qed.

Lemma process_1 (e : env) (s : ctl) :
  state s = 1%Z -> process e s = process_sweep e s.
Proof. intros H. unfold process. rewrite H. reflexivity. Qed.

(** Claim C10.  The distance used for mpp is zero exactly when the two
    detections have the same pixel coordinates; the division
    [0.5 / distance] is then by zero, unguarded: it yields numpy's
    [inf], which the controller stores as mpp while it goes on to the
    next sweep state.  With distinct detections the result is finite. *)
Theorem mpp_division_by_zero (e : env) (s : ctl) (tc : Q * Q) :
  (forall p0 p1 : Z * Z,
     getDistance (fst p0) (snd p0) (fst p1) (snd p1) == 0 <-> p0 = p1) /\
  (forall p0 p1 : Z * Z, calc_mpp p0 p1 = PosInf <-> p0 = p1) /\
  (forall p0 p1 : Z * Z, p0 <> p1 -> exists q, calc_mpp p0 p1 = Finite q) /\
  (state s = 1%Z -> tool_coordinates s = Some tc -> oldxy s = xy s ->
   exists s', process e s = Continue s' /\ mpp s' = Some PosInf /\ state s' = 2%Z).
Proof.
  assert (A : forall p0 p1 : Z * Z, calc_mpp p0 p1 = PosInf <-> p0 = p1).
  { intros p0 p1. unfold calc_mpp, np_div.
    destruct (Qeq_bool (getDistance (fst p0) (snd p0) (fst p1) (snd p1)) 0) eqn:E.
    - apply Qeq_bool_iff, getDistance_zero in E. split; [intros _; exact E|intros _].
      reflexivity.
    - split; [discriminate|]. intros H. apply getDistance_zero in H.
      apply Qeq_bool_iff in H. congruence. }
  split; [exact getDistance_zero|]. split; [exact A|]. split.
  - intros p0 p1 N. unfold calc_mpp, np_div.
    destruct (Qeq_bool (getDistance (fst p0) (snd p0) (fst p1) (snd p1)) 0) eqn:E.
    + apply Qeq_bool_iff, getDistance_zero in E. contradiction.
    + eexists. reflexivity.
  - intros Hst Htc Hxy. rewrite (process_1 e s Hst). unfold process_sweep.
    rewrite Hst, Htc. cbn [Z.eqb Pos.eqb]. eexists. split; [reflexivity|].
    cbn [mpp state]. split; [|reflexivity]. f_equal. apply A. exact Hxy.
Qed.


Lemma mpp_division_by_zero_witness :
  state static_state = 1%Z /\
  tool_coordinates static_state = Some (100, 99 + (1 # 2)) /\
  oldxy static_state = xy static_state /\
  exists s', process env0 static_state = Continue s' /\ mpp s' = Some PosInf /\
             state s' = 2%Z.
Proof.
  assert (H1 : state static_state = 1%Z) by reflexivity.
  assert (H2 : tool_coordinates static_state = Some (100, 99 + (1 # 2))) by reflexivity.
  assert (H3 : oldxy static_state = xy static_state) by reflexivity.
  repeat (split; [assumption|]).
  destruct (mpp_division_by_zero env0 static_state (100, 99 + (1 # 2))) as (_ & _ & _ & D).
  exact (D H1 H2 H3).
Defined.

Lemma Q2R_half : Q2R (1 # 2) = (/ 2)%R.
Proof. unfold Q2R. cbn. lra. Qed.

(** Rounding the exact distance instead gives another value: for the
    detections (300, 200) and (339, 240) the program yields 0.0089
    ([getDistance] is 55.866), and [0.5 / sqrt 3121 = 0.00895000...]
    rounds to 0.0090. *)
Lemma mpp_exact_distance_counterexample :
  ~ (forall p0 p1 : Z * Z, p0 <> p1 ->
       exists q, calc_mpp p0 p1 = Finite q /\ rounds_to 4 (/ 2 / euclid p0 p1) q).
Proof.
  intros H.
  destruct (H (300, 200)%Z (339, 240)%Z ltac:(discriminate)) as (q & E & _ & B).
  assert (Eq' : q = 89 # 10000).
  { assert (C : calc_mpp (300, 200)%Z (339, 240)%Z = Finite (89 # 10000)) by reflexivity.
    congruence. }
  subst q. unfold euclid in B. cbn [fst snd] in B.
  change ((300 - 339) ^ 2 + (200 - 240) ^ 2)%Z with 3121%Z in B.
  set (r := sqrt 3121) in B.
  assert (Hr0 : (0 < r)%R) by (apply sqrt_lt_R0; lra).
  assert (Hr2 : (r * r = 3121)%R) by (apply sqrt_sqrt; lra).
  pose proof (RRle_abs (/ 2 / r - Q2R (89 # 10000))) as L.
  rewrite Rabs_minus_sym in L.
  rewrite Q2R_make in B, L. cbn [pow10] in B.
  change (IZR (Z.pos (10 * (10 * (10 * (10 * 1)))))) with 10000%R in B.
  assert (X : (/ 2 / r <= 89 / 10000 + / (2 * 10000))%R) by lra.
  assert (Y : (/ 2 <= (89 / 10000 + / (2 * 10000)) * r)%R).
  { replace (/ 2)%R with (/ 2 / r * r)%R at 1 by (field; lra).
    apply Rmult_le_compat_r; lra. }
  assert (Z0 : (5586592 / 100000 <= r)%R) by lra.
  assert (W : (5586592 / 100000 * (5586592 / 100000) <= r * r)%R)
    by (apply Rmult_le_compat; lra).
  lra.
Qed.

End MppFacts.

(** ** The calibration sweep *)

Module SweepFacts.
Import Np LinAlg Detect Calib NpFacts CalibFacts Scenario.

Lemma loop_skip (e : env) (s : ctl) (d : detection) (rest : list (option detection)) :
  (detect_count s < 4)%Z ->
  calibrate_loop e s (Some d :: rest) = calibrate_loop e (accumulate (store d s)) rest.
Proof.
  intros H. cbn [calibrate_loop].
  replace (position_iterations <=? detect_count (accumulate (store d s)))%Z with false.
  - reflexivity.
  - symmetry. apply Z.leb_gt. cbn. unfold position_iterations. lia.
Qed.

Lemma transform_input_length (e : env) (sp : list (Q * Q)) (cams : list (Z * Z)) :
  List.length sp = List.length cams ->
  exists input, transform_input e sp cams = Some input /\
                List.length input = List.length cams.
Proof.
  revert sp. induction cams as [|c cams IH]; intros sp H.
  - exists []. split; reflexivity.
  - destruct sp as [|p sp]; [discriminate|]. cbn in H.
    destruct (IH sp ltac:(lia)) as (input & E & L).
    exists ((p, normalize_coords e c) :: input). cbn. rewrite E. split; [reflexivity|].
    cbn. lia.
Qed.

Lemma step_first (e : env) (s : ctl) (d d2 : detection) (tc : Q * Q)
  (rest : list (option detection)) :
  state s = 0%Z -> detect_count s = 4%Z -> d_tool d2 = Some tc ->
  exists s', calibrate_loop e s (Some d :: Some d2 :: rest) = calibrate_loop e s' rest /\
             sweeping 1 s' [d_xy d2] [tc] /\
             transform_matrix s' = transform_matrix s.
Proof.
  intros Hst Hc Ht. rewrite loop_turn by lia.
  unfold process. cbn [state store average accumulate]. rewrite Hst. cbn [Z.eqb].
  unfold process_first. cbn [tool_coordinates store]. rewrite Ht.
  eexists. split; [reflexivity|]. split; [|reflexivity].
  unfold sweeping. cbn. repeat split; try reflexivity; lia.
Qed.

Lemma step_sweep (e : env) (k : nat) (s : ctl) (cams : list (Z * Z)) (sp : list (Q * Q))
  (d d2 : detection) (tc : Q * Q) (rest : list (option detection)) :
  sweeping k s cams sp -> (1 <= k < 10)%nat -> d_tool d2 = Some tc ->
  exists s', calibrate_loop e s (Some d :: Some d2 :: rest) = calibrate_loop e s' rest /\
             sweeping (S k) s' (cams ++ [d_xy d2]) (sp ++ [tc]) /\
             transform_matrix s' = transform_matrix s.
Proof.
  intros (Hst & Hcam & Hsp & Lc & Ls & Hc & Hm) Hk Ht. rewrite loop_turn by lia.
  unfold process. cbn [state store average accumulate]. rewrite Hst.
  replace (Z.of_nat k =? 0)%Z with false by (symmetry; apply Z.eqb_neq; lia).
  replace ((1 <=? Z.of_nat k)%Z &&
           (Z.of_nat k <? Z.of_nat (List.length calibrationCoordinates))%Z) with true.
  2:{ symmetry. apply andb_true_iff. split; [apply Z.leb_le|apply Z.ltb_lt]; cbn; lia. }
  unfold process_sweep. cbn [tool_coordinates store]. rewrite Ht.
  eexists. split; [reflexivity|]. split; [|reflexivity].
  unfold sweeping. cbn [state camera_coordinates space_coordinates detect_count mpp
                         store average accumulate].
  rewrite Hst, Hcam, Hsp, !length_app, Lc, Ls. cbn [List.length].
  repeat split; try lia.
  intros H2. destruct (Z.of_nat k =? 1)%Z eqn:E; [discriminate|].
  apply Hm. apply Z.eqb_neq in E. lia.
Qed.

Lemma init_fresh (prev_mpp : option npfloat) :
  state (init [] prev_mpp) = 0%Z /\ detect_count (init [] prev_mpp) = 0%Z.
Proof. split; reflexivity. Qed.

(** In the alignment stage a visit of the state switch neither collects
    a sample nor touches the transform, and the stage is not left. *)
Lemma process_align_keeps (e : env) (s : ctl) :
  state s = 200%Z ->
  state (step_state (process e s)) = 200%Z /\
  camera_coordinates (step_state (process e s)) = camera_coordinates s /\
  transform_matrix (step_state (process e s)) = transform_matrix s.
Proof.
  intros H. rewrite (process_200 e s H). unfold process_align.
  destruct (negb (has_shapeb 6 2 (transform_matrix s))); [cbn; auto|].
  destruct (Qeq_bool _ 0 && Qeq_bool _ 0); [|cbn; auto].
  destruct (tool_coordinates s); [|cbn; auto].
  destruct (mpp s); cbn; auto.
Qed.

Lemma align_keeps (e : env) (n : nat) :
  forall (dets : list (option detection)) (s : ctl),
  (List.length dets <= n)%nat -> state s = 200%Z ->
  state (final_state (calibrate_loop e s dets)) = 200%Z /\
  camera_coordinates (final_state (calibrate_loop e s dets)) = camera_coordinates s /\
  transform_matrix (final_state (calibrate_loop e s dets)) = transform_matrix s.
Proof.
  induction n as [|n IH]; intros dets s L H.
  - destruct dets; [cbn; auto|cbn in L; lia].
  - destruct dets as [|[d|] rest]; [cbn; auto| |cbn; auto].
    cbn [calibrate_loop].
    destruct (position_iterations <=? detect_count (accumulate (store d s)))%Z.
    + destruct rest as [|[d2|] rest']; [cbn; auto| |cbn; auto].
      pose proof (process_align_keeps e (store d2 (average (accumulate (store d s)))) H)
        as (A & B & C).
      destruct (process e (store d2 (average (accumulate (store d s))))) as [s3|r s3|err s3];
        cbn [step_state] in A, B, C; cbn [final_state]; auto.
      destruct (IH rest' s3 ltac:(cbn in L; lia) A) as (A' & B' & C').
      rewrite A', B', C'. auto.
    + apply (IH rest (accumulate (store d s))); [cbn in L; lia | exact H].
Qed.

Lemma sweep_run : calibrateTool env0 [] None sweep_dets = Waiting sweep_state.
Proof. vm_compute. reflexivity. Qed.

Lemma sweep_run_input :
  transform_input env0 (space_coordinates sweep_state) (camera_coordinates sweep_state)
  = Some sweep_input.
Proof. vm_compute. reflexivity. Qed.

Lemma sweep_run_matrix :
  transform_matrix sweep_state = fst (least_square_mapping sweep_input).
Proof. vm_compute. reflexivity. Qed.

(** The sweep of the scenario ends with 11 samples, not 10. *)
Lemma ten_samples_counterexample :
  ~ (forall (e : env) (dets : list (option detection)) (s : ctl)
            (input : list ((Q * Q) * (Q * Q))),
        calibrateTool e [] None dets = Waiting s ->
        state s = 200%Z ->
        transform_input e (space_coordinates s) (camera_coordinates s) = Some input ->
        transform_matrix s = fst (least_square_mapping input) ->
        List.length input = 10%nat).
Proof.
  intros H.
  pose proof (H env0 sweep_dets sweep_state sweep_input sweep_run eq_refl
                sweep_run_input sweep_run_matrix) as L.
  discriminate L.
Qed.

(** Claim C5, evaluated on a run.  The average of the five detections
    is computed and then not read: the sample recorded is the confirming
    detection, the counter of detections is not reset, and the next
    visit of the state switch follows after two detections. *)
Theorem average_is_not_used :
  exists s1 s2,
    calibrateTool env0 [] None (firstn 6 jitter_dets) = Waiting s1 /\
    state s1 = 1%Z /\ average_location s1 = (100, 100) /\
    camera_coordinates s1 = [(130, 100)%Z] /\
    calibrateTool env0 [] None jitter_dets = Waiting s2 /\
    state s2 = 2%Z /\ detect_count s2 = 6%Z /\
    camera_coordinates s2 = [(130, 100)%Z; (140, 100)%Z].
Proof.
  eexists. eexists.
  split; [vm_compute; reflexivity|]. split; [reflexivity|]. split; [reflexivity|].
  split; [reflexivity|].
  split; [vm_compute; reflexivity|]. repeat split.
Qed.

End SweepFacts.

(** ** The detection gate *)

Module GateFacts.
Import Np Detect Scenario.

Lemma analyze_error (al : bool) (rd n : Z) (f : frame) (rest : list frame) :
  f_detection_on f = true -> f_ret f = true -> (25 < n)%Z ->
  analyze_loop al rd n (f :: rest) =
  (outcome (analyze_loop al rd 0 rest),
   MsgDetectError :: messages (analyze_loop al rd 0 rest),
   snd (analyze_loop al rd 0 rest)).
Proof.
  intros Hon Hret Hn. cbn [analyze_loop]. rewrite Hon, Hret. cbn [negb].
  replace (25 <? n)%Z with true by (symmetry; apply Z.ltb_lt; exact Hn).
  destruct (analyze_loop al rd 0 rest) as [[o ms] fs]. reflexivity.
Qed.

Lemma analyze_miss (al : bool) (rd n : Z) (f : frame) (rest : list frame) :
  f_detection_on f = true -> f_ret f = true -> (n <= 25)%Z -> f_keypoints f = [] ->
  analyze_loop al rd n (f :: rest) =
  if (25 <? f_clock f - rd)%Z
  then (outcome (analyze_loop al rd (n + 1) rest),
        MsgNoCircles :: messages (analyze_loop al rd (n + 1) rest),
        snd (analyze_loop al rd (n + 1) rest))
  else analyze_loop al rd n rest.
Proof.
  intros Hon Hret Hn Hk. cbn [analyze_loop]. rewrite Hon, Hret, Hk. cbn [negb].
  replace (25 <? n)%Z with false by (symmetry; apply Z.ltb_ge; exact Hn).
  destruct (25 <? f_clock f - rd)%Z; [|reflexivity].
  destruct (analyze_loop al rd (n + 1) rest) as [[o ms] fs]. reflexivity.
Qed.

Lemma analyze_many (al : bool) (rd n : Z) (f : frame) (rest : list frame) :
  f_detection_on f = true -> f_ret f = true -> (n <= 25)%Z ->
  (1 < List.length (f_keypoints f))%nat ->
  analyze_loop al rd n (f :: rest) =
  if (25 <? f_clock f - rd)%Z
  then (outcome (analyze_loop al rd n rest),
        MsgTooMany (List.length (f_keypoints f)) :: messages (analyze_loop al rd n rest),
        snd (analyze_loop al rd n rest))
  else analyze_loop al rd n rest.
Proof.
  intros Hon Hret Hn Hk. cbn [analyze_loop]. rewrite Hon, Hret. cbn [negb].
  replace (25 <? n)%Z with false by (symmetry; apply Z.ltb_ge; exact Hn).
  destruct (f_keypoints f) as [|k1 [|k2 ks]]; cbn in Hk; try lia.
  destruct (25 <? f_clock f - rd)%Z; [|reflexivity].
  destruct (analyze_loop al rd n rest) as [[o ms] fs]. reflexivity.
Qed.

Lemma analyze_one (rd n : Z) (f : frame) (k : keypoint) (rest : list frame) :
  f_detection_on f = true -> f_ret f = true -> (n <= 25)%Z -> f_keypoints f = [k] ->
  analyze_loop true rd n (f :: rest) =
  (AfFound {| d_xy := (uint16 (rint (fst (pt k))), uint16 (rint (snd (pt k))));
              d_target := frame_target f; d_tool := f_coords f;
              d_radius := rint (size k / 2) |},
   [MsgFound (uint16 (rint (fst (pt k)))) (uint16 (rint (snd (pt k)))) (rint (size k / 2))],
   rest).
Proof.
  intros Hon Hret Hn Hk. cbn [analyze_loop]. rewrite Hon, Hret, Hk. cbn [negb].
  replace (25 <? n)%Z with false by (symmetry; apply Z.ltb_ge; exact Hn).
  reflexivity.
Qed.

(** A position is only ever returned from a frame that shows exactly
    one circle. *)
Lemma found_single (al : bool) (rd : Z) (frames : list frame) :
  forall (n : Z) (d : detection) (ms : list message) (fs : list frame),
  analyze_loop al rd n frames = (AfFound d, ms, fs) ->
  exists f k, In f frames /\ f_keypoints f = [k] /\
              d_xy d = key_xy k /\ d_radius d = key_r k.
Proof.
  induction frames as [|f rest IH]; intros n d ms fs H; [discriminate|].
  cbn [analyze_loop] in H.
  assert (Rec : forall n' ms', (exists o, analyze_loop al rd n' rest = (AfFound d, ms', o)) ->
            exists f0 k, In f0 (f :: rest) /\ f_keypoints f0 = [k] /\
                         d_xy d = key_xy k /\ d_radius d = key_r k).
  { intros n' ms' (o & E). destruct (IH n' d ms' o E) as (f0 & k & I & R).
    exists f0, k. split; [right; exact I|exact R]. }
  destruct (f_detection_on f); cbn [negb] in H; [|discriminate].
  destruct (f_ret f); cbn [negb] in H; [|apply (Rec n ms); eauto].
  destruct (25 <? n)%Z.
  { destruct (analyze_loop al rd 0 rest) as [[o ms0] fs0] eqn:E.
    inversion H; subst. apply (Rec 0%Z ms0). eauto. }
  destruct (f_keypoints f) as [|k [|k2 ks]] eqn:Ek.
  - destruct (25 <? f_clock f - rd)%Z.
    + destruct (analyze_loop al rd (n + 1) rest) as [[o ms0] fs0] eqn:E.
      inversion H; subst. apply (Rec (n + 1)%Z ms0). eauto.
    + apply (Rec n ms). eauto.
  - unfold found in H. destruct al; [|discriminate].
    inversion H; subst. exists f, k. split; [left; reflexivity|].
    split; [exact Ek|]. split; reflexivity.
  - destruct (25 <? f_clock f - rd)%Z.
    + destruct (analyze_loop al rd n rest) as [[o ms0] fs0] eqn:E.
      inversion H; subst. apply (Rec n ms0). eauto.
    + apply (Rec n ms). eauto.
Qed.

(** [k] counted misses in a row raise the counter by [k] and send [k]
    'No circles found.' messages, as long as the counter stays within 25
    before each of them. *)
Lemma analyze_misses (al : bool) (rd : Z) (frames : list frame) :
  forall (n : Z) (rest : list frame),
  Forall (counted_miss rd) frames ->
  (n + Z.of_nat (List.length frames) <= 26)%Z ->
  analyze_loop al rd n (frames ++ rest) =
  (outcome (analyze_loop al rd (n + Z.of_nat (List.length frames)) rest),
   repeat MsgNoCircles (List.length frames)
     ++ messages (analyze_loop al rd (n + Z.of_nat (List.length frames)) rest),
   snd (analyze_loop al rd (n + Z.of_nat (List.length frames)) rest)).
Proof.
  induction frames as [|f frames IH]; intros n rest HF Hn.
  - cbn [List.length Z.of_nat app repeat]. rewrite Z.add_0_r.
    destruct (analyze_loop al rd n rest) as [[o ms] fs]. reflexivity.
  - inversion HF as [|? ? (Hon & Hret & Hk & Hc) HF']; subst.
    cbn [List.length] in Hn. rewrite Nat2Z.inj_succ in Hn.
    cbn [app]. rewrite analyze_miss by (auto; lia).
    replace (25 <? f_clock f - rd)%Z with true by (symmetry; apply Z.ltb_lt; exact Hc).
    rewrite (IH (n + 1)%Z rest HF') by lia.
    cbn [List.length repeat app outcome messages fst snd].
    rewrite Nat2Z.inj_succ.
    replace (n + 1 + Z.of_nat (List.length frames))%Z
      with (n + Z.succ (Z.of_nat (List.length frames)))%Z by lia.
    reflexivity.
Qed.


(** Claim C6, as amended.  For a frame read with detection on: once
    the no-detection counter exceeds 25 an error is signalled, the
    counter is reset and the frame is skipped; otherwise a frame without
    features counts (and is reported) only when more than 25 ms of the
    pass have gone by, a frame with several features is reported under
    the same condition and leaves the counter alone, and a frame with
    one feature ends the pass and returns the rounded centre and radius.
    A position only ever comes from a frame with exactly one feature,
    and the error appears on the frame after the 26th counted miss. *)
Theorem detection_gate (rd n : Z) (f : frame) (rest : list frame) :
  f_detection_on f = true -> f_ret f = true ->
  ((25 < n)%Z ->
   analyze_loop true rd n (f :: rest) =
   (outcome (analyze_loop true rd 0 rest),
    MsgDetectError :: messages (analyze_loop true rd 0 rest),
    snd (analyze_loop true rd 0 rest))) /\
  ((n <= 25)%Z -> f_keypoints f = [] ->
   analyze_loop true rd n (f :: rest) =
   if (25 <? f_clock f - rd)%Z
   then (outcome (analyze_loop true rd (n + 1) rest),
         MsgNoCircles :: messages (analyze_loop true rd (n + 1) rest),
         snd (analyze_loop true rd (n + 1) rest))
   else analyze_loop true rd n rest) /\
  ((n <= 25)%Z -> (1 < List.length (f_keypoints f))%nat ->
   analyze_loop true rd n (f :: rest) =
   if (25 <? f_clock f - rd)%Z
   then (outcome (analyze_loop true rd n rest),
         MsgTooMany (List.length (f_keypoints f))
           :: messages (analyze_loop true rd n rest),
         snd (analyze_loop true rd n rest))
   else analyze_loop true rd n rest) /\
  ((n <= 25)%Z -> forall k, f_keypoints f = [k] ->
   analyze_loop true rd n (f :: rest) =
   (AfFound {| d_xy := (uint16 (rint (fst (pt k))), uint16 (rint (snd (pt k))));
               d_target := frame_target f; d_tool := f_coords f;
               d_radius := rint (size k / 2) |},
    [MsgFound (uint16 (rint (fst (pt k)))) (uint16 (rint (snd (pt k))))
              (rint (size k / 2))],
    rest)) /\
  (forall frames m d ms fs,
     analyze_loop true rd m frames = (AfFound d, ms, fs) ->
     exists f0 k, In f0 frames /\ f_keypoints f0 = [k] /\
                  d_xy d = key_xy k /\ d_radius d = key_r k) /\
  (forall misses,
     Forall (counted_miss rd) misses -> List.length misses = 26%nat ->
     messages (analyzeFrame true rd (misses ++ f :: rest)) =
     repeat MsgNoCircles 26 ++ MsgDetectError :: messages (analyze_loop true rd 0 rest)).
Proof.
  intros Hon Hret.
  split; [intros; apply analyze_error; assumption|].
  split; [intros; apply analyze_miss; assumption|].
  split; [intros; apply analyze_many; assumption|].
  split; [intros; apply analyze_one; assumption|].
  split; [intros frames m d ms fs H; exact (found_single true rd frames m d ms fs H)|].
  intros misses HF HL. unfold analyzeFrame.
  rewrite analyze_misses by (auto; rewrite HL; cbn; lia).
  rewrite HL. cbn [messages fst snd].
  rewrite analyze_error by (auto; cbn; lia). reflexivity.
Qed.

Lemma detection_gate_witness :
  f_detection_on (hit_at 40) = true /\ f_ret (hit_at 40) = true /\
  analyze_loop true 0 0 (hit_at 40 :: []) =
  (AfFound {| d_xy := (321, 240)%Z; d_target := (320, 240)%Z;
              d_tool := Some (100, 100); d_radius := 10 |},
   [MsgFound 321 240 10], []).
Proof.
  assert (H1 : f_detection_on (hit_at 40) = true) by reflexivity.
  assert (H2 : f_ret (hit_at 40) = true) by reflexivity.
  repeat (split; [assumption|]).
  destruct (detection_gate 0 0 (hit_at 40) [] H1 H2) as (_ & _ & _ & D & _).
  exact (D ltac:(lia) _ eq_refl).
Defined.

(** 25 misses in a row do not raise the error: a pass of 25 counted
    misses followed by a frame with one circle returns that circle and
    never reports an error. *)
Lemma error_after_25_counterexample :
  ~ (forall (rd : Z) (misses : list frame) (f : frame),
       Forall (counted_miss rd) misses -> List.length misses = 25%nat ->
       f_detection_on f = true -> f_ret f = true ->
       In MsgDetectError (messages (analyzeFrame true rd (misses ++ [f])))).
Proof.
  intros H.
  assert (HF : Forall (counted_miss 0) misses_25).
  { repeat constructor. }
  pose proof (H 0%Z misses_25 (hit_at 865) HF eq_refl eq_refl eq_refl) as I.
  vm_compute in I.
  repeat (destruct I as [I|I]; [discriminate I|]). exact I.
Qed.

End GateFacts.

(** ** Text encodings *)

Module FmtFacts.
Import Np Fmt NpFacts.
Local Open Scope string_scope.

Definition is_digit (c : ascii) : Prop := exists n, (0 <= n < 10)%Z /\ c = digit n.

Fixpoint all_digits (s : string) : Prop :=
  match s with
  | "" => True
  | String c t => is_digit c /\ all_digits t
  end.

Lemma digit_cases (n : Z) (P : Z -> Prop) :
  (0 <= n < 10)%Z -> Forall P (map Z.of_nat (seq 0 10)) -> P n.
Proof.
  intros H F. rewrite Forall_forall in F. apply F.
  apply in_map_iff. exists (Z.to_nat n). split; [lia|].
  apply in_seq. lia.
Qed.

Lemma digit_val_digit (n : Z) : (0 <= n < 10)%Z -> digit_val (digit n) = Some n.
Proof.
  intros H. apply (digit_cases n (fun k => digit_val (digit k) = Some k) H).
  repeat constructor.
Qed.

Lemma digit_not_dot (c : ascii) : is_digit c -> Ascii.eqb c "." = false.
Proof.
  intros (n & H & ->).
  apply (digit_cases n (fun k => Ascii.eqb (digit k) "." = false) H).
  repeat constructor.
Qed.

Lemma digit_not_minus (c : ascii) : is_digit c -> Ascii.eqb c "-" = false.
Proof.
  intros (n & H & ->).
  apply (digit_cases n (fun k => Ascii.eqb (digit k) "-" = false) H).
  repeat constructor.
Qed.

Lemma digit_not_letter (c : ascii) :
  is_digit c -> Ascii.eqb c "i" = false /\ Ascii.eqb c "n" = false.
Proof.
  intros (n & H & ->).
  apply (digit_cases n (fun k => Ascii.eqb (digit k) "i" = false /\
                                 Ascii.eqb (digit k) "n" = false) H).
  repeat constructor.
Qed.

Lemma all_digits_app (s t : string) : all_digits s -> all_digits t -> all_digits (s ++ t).
Proof. induction s as [|c s IH]; cbn; [auto|]. intros [H1 H2] H3. split; auto. Qed.

Lemma parse_digits_app (s t : string) :
  forall acc, parse_digits acc (s ++ t) =
              match parse_digits acc s with
              | Some a => parse_digits a t
              | None => None
              end.
Proof.
  induction s as [|c s IH]; intros acc; cbn; [reflexivity|].
  destruct (digit_val c); [apply IH|reflexivity].
Qed.

Lemma length_app (s t : string) :
  String.length (s ++ t) = (String.length s + String.length t)%nat.
Proof. induction s as [|c s IH]; cbn; [reflexivity|]. rewrite IH. reflexivity. Qed.

Lemma digits_fixed_length (len : nat) : forall n, String.length (digits_fixed len n) = len.
Proof.
  induction len as [|l IH]; intros n; cbn; [reflexivity|].
  rewrite length_app, IH. cbn. lia.
Qed.

Lemma digits_fixed_all (len : nat) : forall n, all_digits (digits_fixed len n).
Proof.
  induction len as [|l IH]; intros n; cbn; [exact I|].
  apply all_digits_app; [apply IH|]. cbn. split; [|exact I].
  exists (n mod 10)%Z. split; [apply Z.mod_pos_bound; lia|reflexivity].
Qed.

Lemma pow10_Z (d : nat) : Zpos (pow10 d) = (10 ^ Z.of_nat d)%Z.
Proof.
  induction d as [|d IH]; [reflexivity|].
  rewrite Nat2Z.inj_succ, Z.pow_succ_r by lia. rewrite <- IH. reflexivity.
Qed.

Lemma parse_digits_fixed (len : nat) :
  forall n acc, (0 <= n < Zpos (pow10 len))%Z ->
  parse_digits acc (digits_fixed len n) = Some (acc * Zpos (pow10 len) + n)%Z.
Proof.
  induction len as [|l IH]; intros n acc H.
  - cbn in *. f_equal. lia.
  - cbn [digits_fixed]. rewrite parse_digits_app.
    change (Zpos (pow10 (S l))) with (10 * Zpos (pow10 l))%Z in *.
    rewrite IH by (split; [apply Z.div_pos; lia | apply Z.div_lt_upper_bound; lia]).
    cbn [parse_digits]. rewrite digit_val_digit by (apply Z.mod_pos_bound; lia).
    f_equal. pose proof (Z.div_mod n 10 ltac:(lia)). lia.
Qed.

Lemma digits_var_all (fuel : nat) : forall n, (0 <= n)%Z -> all_digits (digits_var fuel n).
Proof.
  induction fuel as [|f IH]; intros n H; cbn; [exact I|].
  destruct (n <? 10)%Z eqn:E.
  - cbn. split; [|exact I]. exists n. apply Z.ltb_lt in E. split; [lia|reflexivity].
  - apply all_digits_app; [apply IH; apply Z.div_pos; lia|]. cbn. split; [|exact I].
    exists (n mod 10)%Z. split; [apply Z.mod_pos_bound; lia|reflexivity].
Qed.

Lemma digits_var_nonempty (fuel : nat) (n : Z) : digits_var (S fuel) n <> "".
Proof.
  cbn. destruct (n <? 10)%Z; [discriminate|].
  destruct (digits_var fuel (n / 10)); discriminate.
Qed.

Lemma parse_digits_var (fuel : nat) :
  forall n, (0 <= n < 10 ^ Z.of_nat fuel)%Z -> parse_digits 0 (digits_var fuel n) = Some n.
Proof.
  induction fuel as [|f IH]; intros n H.
  - cbn in H. assert (n = 0)%Z by lia. subst. reflexivity.
  - cbn [digits_var]. destruct (n <? 10)%Z eqn:E.
    + apply Z.ltb_lt in E. cbn [parse_digits]. rewrite digit_val_digit by lia. reflexivity.
    + apply Z.ltb_ge in E. rewrite parse_digits_app.
      rewrite Nat2Z.inj_succ, Z.pow_succ_r in H by lia.
      rewrite IH by (split; [apply Z.div_pos; lia | apply Z.div_lt_upper_bound; lia]).
      cbn [parse_digits]. rewrite digit_val_digit by (apply Z.mod_pos_bound; lia).
      f_equal. pose proof (Z.div_mod n 10 ltac:(lia)). lia.
Qed.

Lemma str_nat_all (n : Z) : (0 <= n)%Z -> all_digits (str_nat n).
Proof. apply digits_var_all. Qed.

Lemma parse_nat_str_nat (n : Z) : (0 <= n)%Z -> parse_nat (str_nat n) = Some n.
Proof.
  intros H. unfold parse_nat, str_nat.
  pose proof (digits_var_nonempty (Z.to_nat (Z.log2 n)) n) as NE.
  destruct (digits_var (S (Z.to_nat (Z.log2 n))) n) eqn:E; [contradiction|].
  rewrite <- E. apply parse_digits_var. split; [exact H|].
  rewrite Nat2Z.inj_succ, Z2Nat.id by apply Z.log2_nonneg.
  destruct (Z.eq_dec n 0) as [->|N]; [reflexivity|].
  apply Z.lt_le_trans with (2 ^ Z.succ (Z.log2 n))%Z.
  - apply Z.log2_spec. lia.
  - apply Z.pow_le_mono_l. lia.
Qed.

Lemma str_nat_first (n : Z) :
  (0 <= n)%Z -> exists c t, str_nat n = String c t /\ is_digit c.
Proof.
  intros H. pose proof (str_nat_all n H) as A. unfold str_nat in *.
  pose proof (digits_var_nonempty (Z.to_nat (Z.log2 n)) n) as NE.
  destruct (digits_var (S (Z.to_nat (Z.log2 n))) n) as [|c t]; [contradiction|].
  exists c, t. split; [reflexivity|]. apply A.
Qed.

(** [int(str(z)) = z]. *)
Lemma parse_int_str_int (z : Z) : parse_int (str_int z) = Some z.
Proof.
  unfold str_int. destruct (z <? 0)%Z eqn:E.
  - apply Z.ltb_lt in E. cbn [parse_int]. rewrite parse_nat_str_nat by lia.
    cbn. f_equal. lia.
  - apply Z.ltb_ge in E. destruct (str_nat_first z E) as (c & t & Es & D).
    unfold parse_int. rewrite Es.
    assert (M : Ascii.eqb c "-" = false) by (apply digit_not_minus; exact D).
    assert (P : parse_nat (String c t) = Some z) by (rewrite <- Es; apply parse_nat_str_nat; exact E).
    destruct c as [[] [] [] [] [] [] [] []]; try exact P; discriminate M.
Qed.


Lemma split_dot_app (s t : string) :
  all_digits s -> split_dot (s ++ String "." t) = Some (s, t).
Proof.
  induction s as [|c s IH]; intros A.
  - reflexivity.
  - destruct A as [D A]. cbn [append split_dot]. rewrite (digit_not_dot c D).
    rewrite (IH A). reflexivity.
Qed.

Lemma parse_nat_fixed (len : nat) (n : Z) :
  (1 <= len)%nat -> (0 <= n < Zpos (pow10 len))%Z ->
  parse_nat (digits_fixed len n) = Some n.
Proof.
  intros L H. unfold parse_nat.
  pose proof (digits_fixed_length len n) as E.
  destruct (digits_fixed len n) eqn:D; [cbn in E; lia|].
  rewrite <- D. rewrite parse_digits_fixed by exact H. f_equal.
Qed.

Lemma parse_unsigned_fmt (ip fr : Z) (len : nat) :
  (0 <= ip)%Z -> (1 <= len)%nat -> (0 <= fr < Zpos (pow10 len))%Z ->
  parse_unsigned (str_nat ip ++ String "." (digits_fixed len fr)) =
  Some (Qred (inject_Z ip + (fr # pow10 len))).
Proof.
  intros Hi Hl Hf. unfold parse_unsigned.
  rewrite split_dot_app by (apply str_nat_all; exact Hi).
  rewrite parse_nat_str_nat by exact Hi.
  rewrite parse_nat_fixed by assumption.
  rewrite digits_fixed_length. reflexivity.
Qed.

Lemma parse_float_digit (c : ascii) (t : string) :
  is_digit c -> parse_float (String c t) = option_map Finite (parse_unsigned (String c t)).
Proof.
  intros D. unfold parse_float.
  destruct (digit_not_letter c D) as [Hi Hn]. pose proof (digit_not_minus c D) as Hm.
  cbn [String.eqb]. rewrite Hi, Hm, Hn. cbn [andb].
  destruct c as [[] [] [] [] [] [] [] []]; try reflexivity; discriminate Hm.
Qed.

Lemma parse_float_minus_digit (c : ascii) (t : string) :
  is_digit c ->
  parse_float (String "-" (String c t)) =
  option_map (fun q => Finite (Qred (- q))) (parse_unsigned (String c t)).
Proof.
  intros D. unfold parse_float.
  destruct (digit_not_letter c D) as [Hi Hn].
  cbn [String.eqb Ascii.eqb Bool.eqb andb]. rewrite Hi. cbn [andb]. reflexivity.
Qed.

Lemma Q_int_frac (ip fr : Z) (p : positive) :
  inject_Z ip + (fr # p) == (ip * Zpos p + fr) # p.
Proof. unfold Qeq, Qplus, inject_Z. cbn. ring. Qed.

(** Text of a number with [len] decimals, [k / 10^len], and back. *)
Lemma parse_float_decimal (k : Z) (len : nat) :
  (1 <= len)%nat ->
  parse_float ((if (k <? 0)%Z then "-" else "") ++
               str_nat (Z.abs k / Zpos (pow10 len)) ++
               String "." (digits_fixed len (Z.abs k mod Zpos (pow10 len))))
  = Some (Finite (Qred (k # pow10 len))).
Proof.
  intros L. set (p := pow10 len). set (a := Z.abs k).
  assert (Hip : (0 <= a / Zpos p)%Z) by (apply Z.div_pos; lia).
  assert (Hfr : (0 <= a mod Zpos p < Zpos p)%Z) by (apply Z.mod_pos_bound; lia).
  pose proof (Z.div_mod a (Zpos p) ltac:(lia)) as DM.
  destruct (str_nat_first _ Hip) as (c & t & Es & D).
  pose proof (parse_unsigned_fmt _ _ len Hip L Hfr) as P. fold p in P.
  rewrite Es in P |- *. cbn [append] in P.
  destruct (k <? 0)%Z eqn:E.
  - apply Z.ltb_lt in E. cbn [append]. rewrite parse_float_minus_digit by exact D.
    rewrite P. cbn [option_map]. do 2 f_equal. apply Qred_complete.
    rewrite Qred_correct, Q_int_frac.
    unfold Qeq, Qopp. cbn [Qnum Qden]. f_equal. lia.
  - apply Z.ltb_ge in E. cbn [append]. rewrite parse_float_digit by exact D.
    rewrite P. cbn [option_map]. do 2 f_equal. apply Qred_complete.
    rewrite Q_int_frac.
    unfold Qeq. cbn [Qnum Qden]. f_equal. lia.
Qed.

(** [float("{:.3f}".format(x))] is [x] rounded to 3 decimals. *)
Lemma parse_float_format_f (d : nat) (x : Q) :
  (1 <= d)%nat -> parse_float (format_f d x) = Some (Finite (around d x)).
Proof. intros L. unfold format_f, around. apply parse_float_decimal. exact L. Qed.

Lemma strip_zeros_spec (len : nat) :
  forall n, (1 <= len)%nat -> (0 <= n < Zpos (pow10 len))%Z ->
  (1 <= fst (strip_zeros len n))%nat /\
  (0 <= snd (strip_zeros len n) < Zpos (pow10 (fst (strip_zeros len n))))%Z /\
  snd (strip_zeros len n) # pow10 (fst (strip_zeros len n)) == n # pow10 len.
Proof.
  induction len as [|l IH]; intros n L H; [lia|].
  destruct l as [|l]; [cbn [strip_zeros fst snd]; repeat split; try lia; reflexivity|].
  cbn [strip_zeros]. destruct (n mod 10 =? 0)%Z eqn:E.
  - apply Z.eqb_eq in E.
    change (Zpos (pow10 (S (S l)))) with (10 * Zpos (pow10 (S l)))%Z in H.
    destruct (IH (n / 10)%Z ltac:(lia)) as (A & B & C).
    { split; [apply Z.div_pos; lia | apply Z.div_lt_upper_bound; lia]. }
    split; [exact A|]. split; [exact B|]. rewrite C.
    unfold Qeq. cbn [Qnum Qden].
    change (Zpos (pow10 (S (S l)))) with (10 * Zpos (pow10 (S l)))%Z.
    pose proof (Z.div_mod n 10 ltac:(lia)). nia.
  - cbn [fst snd]. repeat split; try lia. 
Qed.

(** [float(str(v))] for a value rounded to 4 decimals. *)
Lemma parse_float_str_float (v : npfloat) :
  parse_float (str_float v) = Some (np_around 4 v).
Proof.
  destruct v as [q| | |]; try reflexivity.
  unfold str_float, np_around, around.
  change (Zpos (pow10 4)) with 10000%Z.
  set (k := rint (q * inject_Z 10000)). set (a := Z.abs k).
  assert (Hip : (0 <= a / 10000)%Z) by (apply Z.div_pos; lia).
  assert (Hfr : (0 <= a mod 10000 < Zpos (pow10 4))%Z) by (apply Z.mod_pos_bound; lia).
  pose proof (Z.div_mod a 10000 ltac:(lia)) as DM.
  destruct (strip_zeros_spec 4 (a mod 10000) ltac:(lia) Hfr) as (L & B & C).
  destruct (strip_zeros 4 (a mod 10000)) as [len frac]. cbn [fst snd] in L, B, C.
  destruct (str_nat_first _ Hip) as (c & t & Es & D).
  pose proof (parse_unsigned_fmt _ _ len Hip L B) as P.
  rewrite Es in P |- *. cbn [append] in P.
  assert (V : inject_Z (a / 10000) + (frac # pow10 len) == a # pow10 4).
  { rewrite C, Q_int_frac. unfold Qeq. cbn [Qnum Qden]. f_equal.
    change (Zpos (pow10 4)) with 10000%Z. lia. }
  destruct (k <? 0)%Z eqn:E.
  - apply Z.ltb_lt in E. cbn [append]. rewrite parse_float_minus_digit by exact D.
    rewrite P. cbn [option_map]. do 2 f_equal. apply Qred_complete.
    rewrite Qred_correct, V.
    unfold Qeq, Qopp. cbn [Qnum Qden]. f_equal. lia.
  - apply Z.ltb_ge in E. cbn [append]. rewrite parse_float_digit by exact D.
    rewrite P. cbn [option_map]. do 2 f_equal. apply Qred_complete.
    rewrite V. unfold Qeq. cbn [Qnum Qden]. f_equal. lia.
Qed.

End FmtFacts.

(** ** Result records *)

Module RecordFacts.
Import Np LinAlg Detect Calib Fmt NpFacts CalibFacts FmtFacts Scenario.

Lemma record_fields (e : env) (m : npfloat) (x y : Q) :
  let r := result_record e m x y in
  map fst r = ["tool"; "cycle"; "mpp"; "X"; "Y"]%string /\
  get_int "tool" r = Some (tool e) /\
  get_int "cycle" r = Some (rep e) /\
  get_float "mpp" r = Some (np_around 4 m) /\
  get_float "X" r = Some (Finite (around 3 x)) /\
  get_float "Y" r = Some (Finite (around 3 y)).
Proof.
  cbv zeta. unfold result_record, get_int, get_float.
  cbn [map fst lookup String.eqb Ascii.eqb Bool.eqb andb].
  rewrite !parse_int_str_int, parse_float_str_float, !parse_float_format_f by lia.
  repeat split; reflexivity.
Qed.

Lemma process_return_align (e : env) (s : ctl) (r : tool_result) (s' : ctl) :
  process e s = Return r s' -> state s = 200%Z /\ process_align e s = Return r s'.
Proof.
  unfold process. intros H.
  destruct (state s =? 0)%Z.
  { unfold process_first in H. destruct (tool_coordinates s); discriminate. }
  destruct ((1 <=? state s)%Z && (state s <? Z.of_nat (List.length calibrationCoordinates))%Z).
  { unfold process_sweep in H. destruct (tool_coordinates s); discriminate. }
  destruct (state s =? Z.of_nat (List.length calibrationCoordinates))%Z.
  { unfold process_solve in H. destruct (mpp s); [|discriminate].
    destruct (tool_coordinates s); [|discriminate].
    destruct (transform_input e _ _); [|discriminate].
    destruct (least_square_mapping l). discriminate. }
  destruct (state s =? 200)%Z eqn:E; [|discriminate].
  apply Z.eqb_eq in E. split; assumption.
Qed.

(** Claim C9.  The record sent when a tool is done has exactly the
    fields tool, cycle, mpp, X, Y; [int] of the first two gives the tool
    and cycle numbers, and [float] of the others gives back the mpp
    (4 decimals) and the X and Y offsets (3 decimals) the call returns. *)
Theorem result_record_roundtrip (e : env) (s : ctl) (r : tool_result) (s' : ctl)
  (m0 : npfloat) :
  process e s = Return r s' ->
  mpp s = Some (np_around 4 m0) ->
  exists rec,
    last (trace s') (EvGCode M564_S1) = EvResult rec /\
    map fst rec = ["tool"; "cycle"; "mpp"; "X"; "Y"]%string /\
    get_int "tool" rec = Some (tool e) /\
    get_int "cycle" rec = Some (rep e) /\
    get_float "mpp" rec = Some (res_MPP r) /\
    get_float "X" rec = Some (Finite (res_X r)) /\
    get_float "Y" rec = Some (Finite (res_Y r)) /\
    res_X r = around 3 (res_X r) /\ res_Y r = around 3 (res_Y r) /\
    res_MPP r = np_around 4 (res_MPP r).
Proof.
  intros H Hm. destruct (process_return_align e s r s' H) as [_ A].
  unfold process_align in A.
  destruct (negb (has_shapeb 6 2 (transform_matrix s))); [discriminate|].
  destruct (Qeq_bool _ 0 && Qeq_bool _ 0); [|discriminate].
  destruct (tool_coordinates s) as [tc|]; [|discriminate].
  rewrite Hm in A. inversion A; subst; clear A.
  eexists. split; [cbn [emit trace]; rewrite !last_last; reflexivity|].
  cbn [res_X res_Y res_MPP].
  destruct (record_fields e (np_around 4 m0)
              (around 3 (fst (cp_coords e) + fst (g10_offset e (tool e)) - fst tc))
              (around 3 (snd (cp_coords e) + snd (g10_offset e (tool e)) - snd tc)))
    as (F1 & F2 & F3 & F4 & F5 & F6).
  assert (I : np_around 4 (np_around 4 m0) = np_around 4 m0).
  { destruct m0; cbn [np_around]; try reflexivity. rewrite around_idem. reflexivity. }
  rewrite I in F4. rewrite !around_idem in F5, F6.
  repeat split; try assumption; try (symmetry; apply around_idem).
  symmetry; exact I.
Qed.

Lemma result_record_roundtrip_witness :
  let s := store (det_at (320, 240)%Z (985 # 10, 1012 # 10)) aligning in
  mpp s = Some (np_around 4 (Finite (1 # 50))) /\
  exists r s' rec,
    process env0 s = Return r s' /\
    last (trace s') (EvGCode M564_S1) = EvResult rec /\
    get_float "X" rec = Some (Finite (3 # 2)) /\
    get_float "Y" rec = Some (Finite (-(6 # 5))).
Proof.
  intros s.
  assert (Hm : mpp s = Some (np_around 4 (Finite (1 # 50)))) by reflexivity.
  split; [exact Hm|].
  destruct (process env0 s) as [|r s'|] eqn:E;
    [vm_compute in E; discriminate | | vm_compute in E; discriminate].
  destruct (result_record_roundtrip env0 s r s' _ E Hm)
    as (rec & L & _ & _ & _ & _ & X & Y & _).
  exists r, s', rec. split; [reflexivity|]. split; [exact L|].
  vm_compute in E. injection E as <- <-. split; assumption.
Defined.

End RecordFacts.

(** ** Linear algebra *)

Module LinAlgFacts.
Import Np LinAlg LinAlgSpec.

(** *** Inner products *)

Lemma dot_nil_r (u : vec) : dot u [] = 0.
Proof. destruct u; reflexivity. Qed.

Lemma dot_map_Qred (u s : vec) : dot (map Qred u) s == dot u s.
Proof.
  revert s. induction u as [|x u IH]; intros [|y s]; cbn; try reflexivity.
  rewrite IH, Qred_correct. reflexivity.
Qed.

Lemma dot_vscale (c : Q) (u s : vec) : dot (vscale c u) s == c * dot u s.
Proof.
  revert s. induction u as [|x u IH]; intros [|y s]; cbn; try ring.
  unfold vscale in IH. rewrite IH. ring.
Qed.

Lemma dot_vadd (u v s : vec) : dot (vadd u v) s == dot u s + dot v s.
Proof.
  revert v s. induction u as [|x u IH]; intros [|y v] [|z s]; cbn; try ring.
  rewrite IH. ring.
Qed.

Lemma dot_normalize_row (k : nat) (p s : vec) :
  dot (normalize_row k p) s == / nth k p 0 * dot p s.
Proof. unfold normalize_row. rewrite dot_map_Qred, dot_vscale. reflexivity. Qed.

Lemma dot_eliminate (k : nat) (p r s : vec) :
  dot (eliminate k p r) s == dot r s - nth k r 0 * dot p s.
Proof. unfold eliminate. rewrite dot_map_Qred, dot_vadd, dot_vscale. ring. Qed.

(** *** Coordinates *)

Lemma nth_map_Qred (j : nat) (u : vec) : nth j (map Qred u) 0 == nth j u 0.
Proof.
  revert j. induction u as [|x u IH]; intros [|j]; cbn; try reflexivity.
  - apply Qred_correct.
  - apply IH.
Qed.

Lemma nth_vscale (c : Q) (j : nat) (u : vec) : nth j (vscale c u) 0 == c * nth j u 0.
Proof.
  revert j. induction u as [|x u IH]; intros [|j]; cbn; try ring.
  apply IH.
Qed.

Lemma nth_vadd (j : nat) (u v : vec) : nth j (vadd u v) 0 == nth j u 0 + nth j v 0.
Proof.
  revert j v. induction u as [|x u IH]; intros j [|y v]; destruct j; cbn; try ring.
  apply IH.
Qed.

Lemma nth_normalize_row (k j : nat) (p : vec) :
  nth j (normalize_row k p) 0 == / nth k p 0 * nth j p 0.
Proof. unfold normalize_row. rewrite nth_map_Qred, nth_vscale. reflexivity. Qed.

Lemma nth_eliminate (k j : nat) (p r : vec) :
  nth j (eliminate k p r) 0 == nth j r 0 - nth k r 0 * nth j p 0.
Proof. unfold eliminate. rewrite nth_map_Qred, nth_vadd, nth_vscale. ring. Qed.

(** *** Pivot search *)

Lemma find_pivot_spec (k : nat) (rows : matrix) (p : vec) (rest : matrix) :
  find_pivot k rows = Some (p, rest) ->
  ~ nth k p 0 == 0 /\
  List.length rows = S (List.length rest) /\
  (forall P : vec -> Prop, Forall P rows <-> P p /\ Forall P rest).
Proof.
  revert p rest. induction rows as [|r rows IH]; intros p rest H; [discriminate|].
  cbn in H. destruct (Qeq_bool (nth k r 0) 0) eqn:E.
  - destruct (find_pivot k rows) as [[p0 rest0]|]; [|discriminate].
    inversion H; subst. destruct (IH p rest0 eq_refl) as (A & B & C).
    split; [exact A|]. split; [cbn; rewrite B; reflexivity|].
    intros P. rewrite !Forall_cons_iff, C. tauto.
  - inversion H; subst. split.
    + intros Z0. apply Qeq_bool_iff in Z0. congruence.
    + split; [reflexivity|]. intros P. apply Forall_cons_iff.
Qed.


(** *** Row operations keep the solutions *)

Lemma sat_normalize (S : list vec) (k : nat) (p : vec) :
  ~ nth k p 0 == 0 -> (sat S (normalize_row k p) <-> sat S p).
Proof.
  intros N. unfold sat. rewrite !Forall_forall.
  split; intros H s Hs; specialize (H s Hs).
  - rewrite dot_normalize_row in H.
    apply Qmult_integral in H. destruct H as [H|H]; [|exact H].
    exfalso. apply N. rewrite <- (Qinv_involutive (nth k p 0)), H. reflexivity.
  - rewrite dot_normalize_row, H. ring.
Qed.

Lemma sat_eliminate (S : list vec) (k : nat) (p r : vec) :
  sat S p -> (sat S (eliminate k p r) <-> sat S r).
Proof.
  unfold sat. rewrite !Forall_forall. intros Hp.
  split; intros H s Hs; specialize (H s Hs); specialize (Hp s Hs).
  - rewrite dot_eliminate, Hp in H. rewrite <- H. ring.
  - rewrite dot_eliminate, Hp, H. ring.
Qed.

Lemma sat_eliminate_all (S : list vec) (k : nat) (p : vec) (rows : matrix) :
  sat S p -> (Forall (sat S) (map (eliminate k p) rows) <-> Forall (sat S) rows).
Proof.
  intros Hp. rewrite Forall_map. rewrite !Forall_forall.
  split; intros H r Hr; specialize (H r Hr); apply (sat_eliminate S k p r Hp); exact H.
Qed.

Lemma gauss_jordan_sat (S : list vec) (ks : list nat) :
  forall done todo rows,
  gauss_jordan ks done todo = Some rows ->
  Forall (sat S) done -> Forall (sat S) todo -> Forall (sat S) rows.
Proof.
  induction ks as [|k ks IH]; intros done todo rows H Hd Ht.
  - inversion H; subst. exact Hd.
  - cbn in H. destruct (find_pivot k todo) as [[p rest]|] eqn:E; [|discriminate].
    destruct (find_pivot_spec k todo p rest E) as (N & _ & F).
    apply F in Ht. destruct Ht as [Hp Hr].
    assert (Hp' : sat S (normalize_row k p)) by (apply sat_normalize; assumption).
    apply (IH _ _ _ H).
    + apply Forall_app. split; [apply sat_eliminate_all; assumption|].
      constructor; [exact Hp'|constructor].
    + apply sat_eliminate_all; assumption.
Qed.

Lemma gauss_jordan_sat_inv (S : list vec) (ks : list nat) :
  forall done todo rows,
  gauss_jordan ks done todo = Some rows ->
  List.length todo = List.length ks ->
  Forall (sat S) rows -> Forall (sat S) done /\ Forall (sat S) todo.
Proof.
  induction ks as [|k ks IH]; intros done todo rows H L Hr.
  - inversion H; subst. destruct todo; [|discriminate]. split; [exact Hr|constructor].
  - cbn in H. destruct (find_pivot k todo) as [[p rest]|] eqn:E; [|discriminate].
    destruct (find_pivot_spec k todo p rest E) as (N & Len & F).
    assert (L2 : List.length (map (eliminate k (normalize_row k p)) rest) = List.length ks)
      by (rewrite length_map; cbn [List.length] in L; unfold matrix, vec in *; lia).
    destruct (IH _ _ _ H L2 Hr) as [Hd Ht].
    apply Forall_app in Hd. destruct Hd as [Hd Hp']. inversion Hp' as [|? ? Hp _]; subst.
    split.
    + apply (sat_eliminate_all S k _ done Hp). exact Hd.
    + apply F. split.
      * apply (sat_normalize S k p N). exact Hp.
      * apply (sat_eliminate_all S k _ rest Hp). exact Ht.
Qed.

(** *** The reduced rows start with the identity *)

Lemma delta_refl (i : nat) : delta i i = 1.
Proof. unfold delta. rewrite Nat.eqb_refl. reflexivity. Qed.

Lemma delta_neq (i j : nat) : i <> j -> delta i j = 0.
Proof. intros H. unfold delta. apply Nat.eqb_neq in H. rewrite H. reflexivity. Qed.

Lemma gauss_jordan_unit (l : nat) :
  forall m done todo rows,
  gauss_jordan (seq m l) done todo = Some rows ->
  unit_rows m done -> zero_cols m todo -> unit_rows (m + l) rows.
Proof.
  induction l as [|l IH]; intros m done todo rows H Hu Hz.
  - inversion H; subst. rewrite Nat.add_0_r. exact Hu.
  - cbn [seq gauss_jordan] in H.
    destruct (find_pivot m todo) as [[p rest]|] eqn:E; [|discriminate].
    destruct (find_pivot_spec m todo p rest E) as (N & _ & F).
    unfold zero_cols in Hz. apply F in Hz. destruct Hz as [Hp Hrest].
    destruct Hu as [Lu Hu]. unfold matrix, vec in *.
    set (p' := normalize_row m p) in *.
    assert (P0 : forall j, (j < m)%nat -> nth j p' 0 == 0).
    { intros j Hj. unfold p'. rewrite nth_normalize_row, (Hp j Hj). ring. }
    assert (P1 : nth m p' 0 == 1).
    { unfold p'. rewrite nth_normalize_row. field. exact N. }
    replace (m + S l)%nat with (S m + l)%nat by lia.
    apply (IH (S m) _ _ rows H).
    + split; [rewrite length_app, length_map, Lu; cbn; lia|].
      intros i j Hi Hj.
      destruct (Nat.eq_dec i m) as [->|Ni].
      * rewrite app_nth2 by (rewrite length_map; lia).
        rewrite length_map, Lu, Nat.sub_diag. cbn [nth].
        destruct (Nat.eq_dec j m) as [->|Nj].
        -- rewrite delta_refl. exact P1.
        -- rewrite delta_neq by lia. apply P0. lia.
      * rewrite app_nth1 by (rewrite length_map; lia).
        rewrite (nth_indep _ [] (eliminate m p' [])) by (rewrite length_map; lia).
        rewrite (map_nth (eliminate m p')).
        rewrite nth_eliminate.
        destruct (Nat.eq_dec j m) as [->|Nj].
        -- rewrite P1, delta_neq by lia. ring.
        -- rewrite (P0 j) by lia. rewrite (Hu i j) by lia. ring.
    + unfold zero_cols. rewrite Forall_map. rewrite Forall_forall in Hrest |- *.
      intros r Hr j Hj. rewrite nth_eliminate.
      destruct (Nat.eq_dec j m) as [->|Nj].
      * rewrite P1. ring.
      * rewrite (P0 j) by lia. rewrite (Hrest r Hr j) by lia. ring.
Qed.


(** *** Reading a solution off the reduced rows *)

Lemma dot_repeat_0 (u : vec) (k : nat) : dot u (repeat 0 k) == 0.
Proof.
  revert u. induction k as [|k IH]; intros [|x u]; cbn; try reflexivity.
  rewrite IH. ring.
Qed.

Lemma dot_unit_vec (k : nat) :
  forall (c : nat) (u : vec) (v : Q),
  (c < k)%nat -> dot u (unit_vec k c v) == nth c u 0 * v.
Proof.
  induction k as [|k IH]; intros c u v H; [lia|].
  destruct c as [|c]; destruct u as [|x u]; cbn; try ring.
  - rewrite dot_repeat_0. ring.
  - rewrite IH by lia. ring.
Qed.

Lemma nth_skipn_Q (n c : nat) (r : vec) : nth c (skipn n r) 0 = nth (n + c) r 0.
Proof.
  revert r. induction n as [|n IH]; intros r; [reflexivity|].
  destruct r as [|x r]; cbn; [destruct c; reflexivity|apply IH].
Qed.

(** A row that starts like row [i] of the identity picks coordinate [i]
    of the first block of a test vector. *)
Lemma dot_unit_row (y : vec) :
  forall (r w : vec) (i : nat),
  (forall j, (j < List.length y)%nat -> nth j r 0 == delta i j) ->
  dot r (y ++ w) == nth i y 0 + dot (skipn (List.length y) r) w.
Proof.
  induction y as [|y0 y IH]; intros r w i H.
  - cbn. destruct i; ring.
  - destruct r as [|r0 r].
    + cbn [dot skipn List.length app].
      destruct (Nat.lt_ge_cases i (List.length (y0 :: y))) as [L|G].
      * specialize (H i L). rewrite delta_refl in H. destruct i; discriminate H.
      * rewrite nth_overflow by exact G. ring.
    + cbn [dot app skipn List.length].
      destruct i as [|i].
      * rewrite (IH r w (List.length y)).
        -- rewrite (nth_overflow y) by lia.
           pose proof (H 0%nat ltac:(cbn; lia)) as H0. cbn in H0. rewrite H0.
           cbn [nth]. ring.
        -- intros j Hj. pose proof (H (S j) ltac:(cbn; lia)) as Hs. cbn in Hs.
           rewrite Hs. rewrite delta_neq by lia. reflexivity.
      * rewrite (IH r w i).
        -- pose proof (H 0%nat ltac:(cbn; lia)) as H0. cbn in H0. rewrite H0.
           cbn [nth]. ring.
        -- intros j Hj. pose proof (H (S j) ltac:(cbn; lia)) as Hs. cbn in Hs.
           exact Hs.
Qed.

Lemma col_length (c : nat) (Y : matrix) : List.length (col c Y) = List.length Y.
Proof. apply length_map. Qed.

Lemma nth_col (c i : nat) (Y : matrix) : nth i (col c Y) 0 = entry Y i c.
Proof.
  unfold col, entry. revert i. induction Y as [|r Y IH]; intros i.
  - cbn. destruct i, c; reflexivity.
  - destruct i; cbn; [reflexivity | apply IH].
Qed.

(** What a test vector says about a reduced row. *)
Lemma dot_reduced_row (n k : nat) (Y : matrix) (r : vec) (i c : nat) :
  List.length Y = n -> (c < k)%nat ->
  (forall j, (j < n)%nat -> nth j r 0 == delta i j) ->
  dot r (col c Y ++ unit_vec k c (-(1))) == entry Y i c - nth (n + c) r 0.
Proof.
  intros L Hc H. rewrite (dot_unit_row (col c Y) r _ i).
  - rewrite col_length, L, dot_unit_vec by exact Hc.
    rewrite nth_skipn_Q, nth_col. ring.
  - rewrite col_length, L. exact H.
Qed.

Lemma sat_solution_tests (k : nat) (Y : matrix) (r : vec) :
  sat (solution_tests k Y) r <->
  forall c, (c < k)%nat -> dot r (col c Y ++ unit_vec k c (-(1))) == 0.
Proof.
  unfold sat, solution_tests. rewrite Forall_map, Forall_forall. split.
  - intros H c Hc. apply H. apply in_seq. lia.
  - intros H c Hc. apply H. apply in_seq in Hc. lia.
Qed.

Lemma entry_rhs_part (n k : nat) (rows : matrix) (i c : nat) :
  (i < List.length rows)%nat -> (c < k)%nat ->
  entry (rhs_part n k rows) i c = nth (n + c) (nth i rows []) 0.
Proof.
  intros Hi Hc. unfold entry, rhs_part.
  rewrite (nth_indep _ [] (map (fun c0 => nth (n + c0) (@nil Q) 0) (seq 0 k)))
    by (rewrite length_map; exact Hi).
  rewrite (map_nth (fun r => map (fun c0 => nth (n + c0) r 0) (seq 0 k))).
  rewrite (nth_indep _ 0 (nth (n + 0) (nth i rows []) 0))
    by (rewrite length_map, length_seq; exact Hc).
  rewrite (map_nth (fun c0 => nth (n + c0) (nth i rows []) 0)).
  rewrite seq_nth by exact Hc. reflexivity.
Qed.

Lemma rhs_part_shape (n k : nat) (rows : matrix) :
  has_shape (List.length rows) k (rhs_part n k rows).
Proof.
  unfold has_shape, rhs_part. split; [apply length_map|].
  apply Forall_map, Forall_forall. intros r _. rewrite length_map, length_seq. reflexivity.
Qed.

Lemma Forall_nth_rows (P : vec -> Prop) (rows : matrix) :
  Forall P rows <-> forall i, (i < List.length rows)%nat -> P (nth i rows []).
Proof.
  rewrite Forall_forall. split.
  - intros H i Hi. apply H, nth_In, Hi.
  - intros H r Hr. destruct (In_nth rows r [] Hr) as (i & Hi & <-). apply H, Hi.
Qed.

(** *** The linear solver *)

Lemma augment_length (M C : matrix) :
  List.length M = List.length C -> List.length (augment M C) = List.length M.
Proof.
  intros H. unfold augment. rewrite length_map, length_combine. lia.
Qed.

(** [solve] returns a solution of the system, and every solution agrees
    with it. *)
Lemma solve_spec (n k : nat) (M C X : matrix) :
  solve n k M C = Some X ->
  List.length M = n -> List.length C = n ->
  has_shape n k X /\
  Forall (sat (solution_tests k X)) (augment M C) /\
  forall Y, List.length Y = n ->
            Forall (sat (solution_tests k Y)) (augment M C) ->
            forall i c, (i < n)%nat -> (c < k)%nat -> entry Y i c == entry X i c.
Proof.
  unfold solve. intros H LM LC.
  destruct (gauss_jordan (seq 0 n) [] (augment M C)) as [rows|] eqn:E; [|discriminate].
  inversion H; subst X; clear H.
  assert (LA : List.length (augment M C) = n)
    by (rewrite augment_length; unfold matrix, vec in *; lia).
  destruct (gauss_jordan_unit n 0 [] (augment M C) rows E) as [LR U].
  { split; [reflexivity|]. intros i j Hi. lia. }
  { apply Forall_forall. intros r _ j Hj. lia. }
  cbn [Nat.add] in LR, U.
  assert (Red : forall Y i c, List.length Y = n -> (i < n)%nat -> (c < k)%nat ->
            dot (nth i rows []) (col c Y ++ unit_vec k c (-(1)))
            == entry Y i c - entry (rhs_part n k rows) i c).
  { intros Y i c LY Hi Hc. rewrite entry_rhs_part by (unfold matrix, vec in *; lia).
    apply dot_reduced_row; try assumption. intros j Hj. apply U; assumption. }
  split; [|split].
  - rewrite <- LR. apply rhs_part_shape.
  - apply (gauss_jordan_sat_inv _ (seq 0 n) [] (augment M C) rows E).
    + rewrite length_seq. exact LA.
    + apply Forall_nth_rows. intros i Hi. apply sat_solution_tests. intros c Hc.
      rewrite Red.
      * ring.
      * destruct (rhs_part_shape n k rows) as [L _]. unfold matrix, vec in *. lia.
      * unfold matrix, vec in *. lia.
      * exact Hc.
  - intros Y LY HY i c Hi Hc.
    pose proof (gauss_jordan_sat _ (seq 0 n) [] (augment M C) rows E
                  (Forall_nil _) HY) as HR.
    rewrite Forall_nth_rows in HR.
    assert (Hi' : (i < List.length rows)%nat) by (unfold matrix, vec in *; lia).
    specialize (HR i Hi'). rewrite sat_solution_tests in HR. specialize (HR c Hc).
    rewrite Red in HR by assumption.
    rewrite <- (Qplus_0_r (entry (rhs_part n k rows) i c)), <- HR. ring.
Qed.


(** *** The normal equations *)

Lemma dot_app_same (u y : vec) :
  forall c w, List.length u = List.length y -> dot (u ++ c) (y ++ w) == dot u y + dot c w.
Proof.
  revert y. induction u as [|x u IH]; intros [|z y] c w H; try discriminate.
  - cbn. ring.
  - cbn in H. cbn [app dot]. rewrite IH by lia. ring.
Qed.

Lemma nth_augment (M : matrix) :
  forall (C : matrix) (i : nat),
  (i < List.length M)%nat -> (i < List.length C)%nat ->
  nth i (augment M C) [] = nth i M [] ++ nth i C [].
Proof.
  induction M as [|m M IH]; intros [|c C] i HM HC; cbn in HM, HC; try lia.
  destruct i as [|i]; [reflexivity|].
  unfold augment. cbn [combine map nth]. apply (IH C i); lia.
Qed.

Lemma gram_row (n : nat) (A : matrix) (i : nat) :
  (i < n)%nat ->
  nth i (tmul n n A A) [] = map (fun j => dot (col i A) (col j A)) (seq 0 n).
Proof.
  intros H. unfold tmul.
  rewrite (nth_indep _ [] ((fun i0 => map (fun c => dot (col i0 A) (col c A)) (seq 0 n)) 0%nat))
    by (rewrite length_map, length_seq; exact H).
  rewrite (map_nth (fun i0 => map (fun c => dot (col i0 A) (col c A)) (seq 0 n))).
  rewrite seq_nth by exact H. reflexivity.
Qed.

Lemma tmul_entry (n k : nat) (A B : matrix) (i c : nat) :
  (i < n)%nat -> (c < k)%nat -> entry (tmul n k A B) i c = dot (col i A) (col c B).
Proof.
  intros Hi Hc. unfold tmul, entry.
  rewrite (nth_indep _ [] ((fun i0 => map (fun c0 => dot (col i0 A) (col c0 B)) (seq 0 k)) 0%nat))
    by (rewrite length_map, length_seq; exact Hi).
  rewrite (map_nth (fun i0 => map (fun c0 => dot (col i0 A) (col c0 B)) (seq 0 k))).
  rewrite seq_nth by exact Hi. cbn [Nat.add].
  rewrite (nth_indep _ 0 ((fun c0 => dot (col i A) (col c0 B)) 0%nat))
    by (rewrite length_map, length_seq; exact Hc).
  rewrite (map_nth (fun c0 => dot (col i A) (col c0 B))).
  rewrite seq_nth by exact Hc. reflexivity.
Qed.

Lemma tmul_length (n k : nat) (A B : matrix) : List.length (tmul n k A B) = n.
Proof. unfold tmul. rewrite length_map, length_seq. reflexivity. Qed.

Lemma tmul_row_length (n k : nat) (A B : matrix) (i : nat) :
  (i < n)%nat -> List.length (nth i (tmul n k A B) []) = k.
Proof.
  intros Hi. unfold tmul.
  rewrite (nth_indep _ [] ((fun i0 => map (fun c0 => dot (col i0 A) (col c0 B)) (seq 0 k)) 0%nat))
    by (rewrite length_map, length_seq; exact Hi).
  rewrite (map_nth (fun i0 => map (fun c0 => dot (col i0 A) (col c0 B)) (seq 0 k))).
  rewrite length_map, length_seq. reflexivity.
Qed.

(** The rows [(M | C)] are satisfied by the tests of [Y] exactly when
    [M Y = C], entry by entry. *)
Lemma sat_augment (n k : nat) (M C Y : matrix) :
  List.length M = n -> List.length C = n -> List.length Y = n ->
  (forall i, (i < n)%nat -> List.length (nth i M []) = n) ->
  (Forall (sat (solution_tests k Y)) (augment M C) <->
   forall i c, (i < n)%nat -> (c < k)%nat ->
               dot (nth i M []) (col c Y) == entry C i c).
Proof.
  intros LM LC LY LR. rewrite Forall_nth_rows.
  rewrite augment_length by (unfold matrix, vec in *; lia).
  assert (E : forall i c, (i < n)%nat -> (c < k)%nat ->
            dot (nth i (augment M C) []) (col c Y ++ unit_vec k c (-(1)))
            == dot (nth i M []) (col c Y) - entry C i c).
  { intros i c Hi Hc. rewrite nth_augment by (unfold matrix, vec in *; lia).
    rewrite dot_app_same by (rewrite col_length, LY; apply LR; exact Hi).
    rewrite dot_unit_vec by exact Hc. unfold entry. ring. }
  split.
  - intros H i c Hi Hc.
    assert (Hi' : (i < List.length M)%nat) by (unfold matrix, vec in *; lia).
    specialize (H i Hi'). rewrite sat_solution_tests in H.
    specialize (H c Hc). rewrite E in H by assumption.
    rewrite <- (Qplus_0_l (entry C i c)), <- H. ring.
  - intros H i Hi. apply sat_solution_tests. intros c Hc.
    assert (Hi' : (i < n)%nat) by (unfold matrix, vec in *; lia).
    rewrite E by assumption. rewrite (H i c Hi' Hc). ring.
Qed.

(** *** [w^t (A t) = (w^t A) t] *)

Lemma dot_map_add (f g : nat -> Q) (l : list nat) (t : vec) :
  dot (map (fun j => f j + g j) l) t == dot (map f l) t + dot (map g l) t.
Proof.
  revert t. induction l as [|j l IH]; intros [|y t]; cbn; try ring.
  rewrite IH. ring.
Qed.

Lemma dot_map_scale (a : Q) (f : nat -> Q) (l : list nat) (t : vec) :
  dot (map (fun j => a * f j) l) t == a * dot (map f l) t.
Proof.
  revert t. induction l as [|j l IH]; intros [|y t]; cbn; try ring.
  rewrite IH. ring.
Qed.

Lemma dot_map_zero (l : list nat) (t : vec) : dot (map (fun _ => 0) l) t == 0.
Proof.
  revert t. induction l as [|j l IH]; intros [|y t]; cbn; try ring.
  rewrite IH. ring.
Qed.

Lemma dot_map_ext (f g : nat -> Q) (l : list nat) (t : vec) :
  (forall j, f j == g j) -> dot (map f l) t == dot (map g l) t.
Proof.
  intros H. revert t. induction l as [|j l IH]; intros [|y t]; cbn; try ring.
  rewrite IH, H. reflexivity.
Qed.

(** The first [n] coordinates of [a] are all an inner product with a
    vector of length at most [n] sees. *)
Lemma dot_coordinates (t : vec) :
  forall (a : vec) (n : nat), (List.length t <= n)%nat ->
  dot (map (fun j => nth j a 0) (seq 0 n)) t == dot a t.
Proof.
  induction t as [|y t IH]; intros a n H.
  - rewrite !dot_nil_r. reflexivity.
  - destruct n as [|n]; [cbn in H; lia|].
    cbn [seq map]. rewrite <- seq_shift, map_map.
    destruct a as [|x a].
    + cbn [dot nth]. rewrite dot_map_zero. ring.
    + cbn [dot nth]. rewrite (IH a n) by (cbn in H; lia). reflexivity.
Qed.

Lemma dot_transpose (A : matrix) :
  forall (w t : vec) (n : nat), (List.length t <= n)%nat ->
  dot w (matvec A t) == dot (map (fun j => dot w (col j A)) (seq 0 n)) t.
Proof.
  induction A as [|a A IH]; intros w t n H.
  - unfold matvec. cbn [map]. rewrite dot_nil_r. symmetry.
    transitivity (dot (map (fun _ : nat => 0) (seq 0 n)) t); [|apply dot_map_zero].
    apply dot_map_ext. intros j. change (col j []) with (@nil Q). rewrite dot_nil_r.
    reflexivity.
  - destruct w as [|x w].
    + cbn [dot]. symmetry.
      transitivity (dot (map (fun _ : nat => 0) (seq 0 n)) t); [|apply dot_map_zero].
      apply dot_map_ext. intros j. reflexivity.
    + unfold matvec. cbn [map dot]. fold (matvec A t).
      transitivity (dot (map (fun j => x * nth j a 0 + dot w (col j A)) (seq 0 n)) t).
      * rewrite dot_map_add, dot_map_scale, dot_coordinates by exact H.
        rewrite (IH w t n H). reflexivity.
      * apply dot_map_ext. intros j. reflexivity.
Qed.


(** *** Pivots do not depend on the right-hand side *)

Lemma nth_firstn_lt (n k : nat) (r : vec) : (k < n)%nat -> nth k (firstn n r) 0 = nth k r 0.
Proof.
  revert k r. induction n as [|n IH]; intros k r H; [lia|].
  destruct r as [|x r]; [destruct k; reflexivity|].
  destruct k as [|k]; [reflexivity|]. cbn. apply IH. lia.
Qed.

Lemma firstn_vadd (n : nat) (u v : vec) :
  firstn n (vadd u v) = vadd (firstn n u) (firstn n v).
Proof.
  revert u v. induction n as [|n IH]; intros u v; [reflexivity|].
  destruct u as [|x u]; destruct v as [|y v]; cbn; try reflexivity.
  rewrite IH. reflexivity.
Qed.

Lemma firstn_normalize_row (n k : nat) (p : vec) :
  (k < n)%nat -> normalize_row k (firstn n p) = firstn n (normalize_row k p).
Proof.
  intros H. unfold normalize_row, vscale.
  rewrite nth_firstn_lt by exact H. rewrite !firstn_map. reflexivity.
Qed.

Lemma firstn_eliminate (n k : nat) (p r : vec) :
  (k < n)%nat -> eliminate k (firstn n p) (firstn n r) = firstn n (eliminate k p r).
Proof.
  intros H. unfold eliminate, vscale.
  rewrite nth_firstn_lt by exact H.
  rewrite firstn_map, firstn_vadd, firstn_map. reflexivity.
Qed.

Lemma find_pivot_firstn (n k : nat) (rows : matrix) :
  (k < n)%nat ->
  find_pivot k (map (firstn n) rows) =
  match find_pivot k rows with
  | Some (p, rest) => Some (firstn n p, map (firstn n) rest)
  | None => None
  end.
Proof.
  intros H. induction rows as [|r rows IH]; [reflexivity|].
  cbn [map find_pivot]. rewrite nth_firstn_lt by exact H.
  destruct (Qeq_bool (nth k r 0) 0); [|reflexivity].
  rewrite IH. destruct (find_pivot k rows) as [[p rest]|]; reflexivity.
Qed.

Lemma gauss_jordan_firstn (n : nat) (ks : list nat) :
  Forall (fun k => (k < n)%nat) ks ->
  forall done todo,
  gauss_jordan ks (map (firstn n) done) (map (firstn n) todo) =
  option_map (map (firstn n)) (gauss_jordan ks done todo).
Proof.
  induction ks as [|k ks IH]; intros HF done todo; [reflexivity|].
  inversion HF as [|? ? Hk HF']; subst.
  cbn [gauss_jordan]. rewrite find_pivot_firstn by exact Hk.
  destruct (find_pivot k todo) as [[p rest]|]; [|reflexivity].
  rewrite <- (IH HF'). f_equal.
  - rewrite map_app, !map_map. cbn [map]. f_equal.
    + apply map_ext. intros r. rewrite firstn_normalize_row by exact Hk.
      apply firstn_eliminate. exact Hk.
    + rewrite firstn_normalize_row by exact Hk. reflexivity.
  - rewrite !map_map. apply map_ext. intros r.
    rewrite firstn_normalize_row by exact Hk. apply firstn_eliminate. exact Hk.
Qed.

Lemma firstn_augment (n : nat) (M : matrix) :
  forall C, List.length M = List.length C ->
  Forall (fun r => List.length r = n) M ->
  map (firstn n) (augment M C) = M.
Proof.
  induction M as [|m M IH]; intros [|c C] L HF; try discriminate; [reflexivity|].
  inversion HF as [|? ? Hm HF']; subst. unfold augment. cbn [combine map].
  f_equal.
  - rewrite firstn_app, Nat.sub_diag, firstn_O, app_nil_r. apply firstn_all.
  - apply IH; [cbn in L; lia | exact HF'].
Qed.

Lemma gram_rows (n : nat) (A : matrix) :
  Forall (fun r => List.length r = n) (gram n A).
Proof.
  unfold gram, tmul. apply Forall_map, Forall_forall. intros i _.
  rewrite length_map, length_seq. reflexivity.
Qed.

(** With full column rank the normal equations have a solution. *)
Lemma full_rank_solve (n k : nat) (A B : matrix) :
  full_column_rank n A = true ->
  exists X, solve n k (gram n A) (tmul n k A B) = Some X.
Proof.
  unfold full_column_rank, solve. intros H.
  pose proof (gauss_jordan_firstn n (seq 0 n)
                ltac:(apply Forall_forall; intros x Hx; apply in_seq in Hx; lia)
                [] (augment (gram n A) (tmul n k A B))) as S.
  rewrite firstn_augment in S
    by (try apply gram_rows; unfold gram; rewrite !tmul_length; reflexivity).
  cbn [map] in S.
  destruct (gauss_jordan (seq 0 n) [] (augment (gram n A) (tmul n k A B))) as [rows|].
  - eexists. reflexivity.
  - cbn in S. rewrite S in H. discriminate.
Qed.

Lemma rank_deficient_solve (n k : nat) (A B : matrix) :
  full_column_rank n A = false ->
  solve n k (gram n A) (tmul n k A B) = None.
Proof.
  unfold full_column_rank, solve. intros H.
  pose proof (gauss_jordan_firstn n (seq 0 n)
                ltac:(apply Forall_forall; intros x Hx; apply in_seq in Hx; lia)
                [] (augment (gram n A) (tmul n k A B))) as S.
  rewrite firstn_augment in S
    by (try apply gram_rows; unfold gram; rewrite !tmul_length; reflexivity).
  cbn [map] in S.
  destruct (gauss_jordan (seq 0 n) [] (augment (gram n A) (tmul n k A B))) as [rows|].
  - cbn in S. rewrite S in H. discriminate.
  - reflexivity.
Qed.


(** *** Least squares with full column rank *)

Lemma dot_compat_r (w u v : vec) : Forall2 Qeq u v -> dot w u == dot w v.
Proof.
  intros H. revert w. induction H as [|x y u v E _ IH]; intros [|z w]; cbn; try reflexivity.
  rewrite E, IH. reflexivity.
Qed.

Lemma Forall2_nth_Qeq (u v : vec) :
  List.length u = List.length v ->
  (forall i, (i < List.length u)%nat -> nth i u 0 == nth i v 0) ->
  Forall2 Qeq u v.
Proof.
  revert v. induction u as [|x u IH]; intros [|y v] L H; try discriminate; constructor.
  - apply (H 0%nat). cbn. lia.
  - apply IH; [cbn in L; lia|]. intros i Hi. apply (H (S i)). cbn. lia.
Qed.

Lemma matvec_compat (A : matrix) (u v : vec) :
  Forall2 Qeq u v -> Forall2 Qeq (matvec A u) (matvec A v).
Proof.
  intros H. induction A as [|a A IH]; cbn; constructor; [apply dot_compat_r; exact H|exact IH].
Qed.

Lemma col_mmul (k c : nat) (A X : matrix) :
  (c < k)%nat -> col c (mmul k A X) = matvec A (col c X).
Proof.
  intros H. unfold col at 1, mmul, matvec. rewrite map_map. apply map_ext. intros r.
  rewrite (nth_indep _ 0 ((fun j => dot r (col j X)) 0%nat))
    by (rewrite length_map, length_seq; exact H).
  rewrite (map_nth (fun j => dot r (col j X))). rewrite seq_nth by exact H. reflexivity.
Qed.

Lemma sumsq_vsub_zero (u v : vec) : Forall2 Qeq u v -> sumsq (vsub u v) == 0.
Proof.
  unfold sumsq, vsub, vscale. intros H. induction H as [|x y u v E _ IH]; [reflexivity|].
  cbn [map vadd dot]. rewrite IH, E. ring.
Qed.

(** The solution [lstsq] returns for a matrix of full column rank
    satisfies the normal equations [A^t A X = A^t B]. *)
Lemma lstsq_normal_equations (n k : nat) (A B : matrix) :
  full_column_rank n A = true ->
  has_shape n k (fst (lstsq n k A B)) /\
  forall i c, (i < n)%nat -> (c < k)%nat ->
    dot (nth i (gram n A) []) (col c (fst (lstsq n k A B))) == entry (tmul n k A B) i c.
Proof.
  intros H. destruct (full_rank_solve n k A B H) as (X & E).
  unfold lstsq. rewrite E. cbn [fst].
  destruct (solve_spec n k _ _ X E (tmul_length n n A A) (tmul_length n k A B))
    as (Sh & Sat & _).
  split; [exact Sh|].
  apply (sat_augment n k (gram n A) (tmul n k A B) X); try apply tmul_length.
  - apply Sh.
  - intros i Hi. apply tmul_row_length. exact Hi.
  - exact Sat.
Qed.

(** Data that some [T0] produces exactly is fitted by [T0] itself, and
    nothing is left over. *)
Lemma lstsq_exact (n k : nat) (A B T0 : matrix) :
  full_column_rank n A = true ->
  List.length T0 = n ->
  (forall c, (c < k)%nat -> Forall2 Qeq (col c B) (matvec A (col c T0))) ->
  (forall i c, (i < n)%nat -> (c < k)%nat ->
     entry (fst (lstsq n k A B)) i c == entry T0 i c) /\
  ((n < List.length A)%nat ->
   List.length (snd (lstsq n k A B)) = k /\
   Forall (fun r => r == 0) (snd (lstsq n k A B))).
Proof.
  intros H L0 HB. destruct (full_rank_solve n k A B H) as (X & E).
  unfold lstsq. rewrite E. cbn [fst snd].
  destruct (solve_spec n k _ _ X E (tmul_length n n A A) (tmul_length n k A B))
    as (Sh & _ & Uniq).
  assert (U : forall i c, (i < n)%nat -> (c < k)%nat -> entry T0 i c == entry X i c).
  { apply Uniq; [exact L0|].
    apply (sat_augment n k (gram n A) (tmul n k A B) T0); try apply tmul_length.
    - exact L0.
    - intros i Hi. apply tmul_row_length. exact Hi.
    - intros i c Hi Hc. rewrite tmul_entry by assumption.
      unfold gram. rewrite gram_row by exact Hi.
      rewrite (dot_compat_r _ _ _ (HB c Hc)).
      symmetry. apply dot_transpose. rewrite col_length, L0. lia. }
  split.
  - intros i c Hi Hc. symmetry. apply U; assumption.
  - intros HA. apply Nat.ltb_lt in HA. rewrite HA.
    split; [rewrite length_map, length_seq; reflexivity|].
    apply Forall_map, Forall_forall. intros c Hc. apply in_seq in Hc.
    rewrite Qred_correct. apply sumsq_vsub_zero.
    rewrite col_mmul by lia.
    assert (F : Forall2 Qeq (col c T0) (col c X)).
    { apply Forall2_nth_Qeq.
      - rewrite !col_length. destruct Sh as [Sh _]. unfold matrix, vec in *. lia.
      - intros i Hi. rewrite col_length, L0 in Hi. rewrite !nth_col. apply U; lia. }
    pose proof (HB c ltac:(lia)) as HBc.
    pose proof (matvec_compat A _ _ F) as M.
    clear - HBc M. revert M. generalize (matvec A (col c X)).
    induction HBc as [|x y u v E1 _ IH]; intros w M; inversion M; subst; constructor.
    + rewrite E1. assumption.
    + apply IH. assumption.
Qed.

(** *** Minimality *)

Lemma dot_comm (u v : vec) : dot u v == dot v u.
Proof.
  revert v. induction u as [|x u IH]; intros [|y v]; cbn; try reflexivity.
  rewrite IH. ring.
Qed.

Lemma dot_vadd_r (s u v : vec) : dot s (vadd u v) == dot s u + dot s v.
Proof. rewrite dot_comm, dot_vadd, (dot_comm u), (dot_comm v). reflexivity. Qed.

Lemma dot_vscale_r (c : Q) (s u : vec) : dot s (vscale c u) == c * dot s u.
Proof. rewrite dot_comm, dot_vscale, (dot_comm u). reflexivity. Qed.

Lemma dot_vsub_r (s u v : vec) : dot s (vsub u v) == dot s u - dot s v.
Proof. unfold vsub. rewrite dot_vadd_r, dot_vscale_r. ring. Qed.

Lemma dot_vsub_l (u v s : vec) : dot (vsub u v) s == dot u s - dot v s.
Proof. unfold vsub. rewrite dot_vadd, dot_vscale. ring. Qed.

Lemma sumsq_nonneg (u : vec) : 0 <= sumsq u.
Proof.
  unfold sumsq. induction u as [|x u IH]; cbn; [discriminate|].
  apply Qle_trans with (0 + 0); [discriminate|].
  apply Qplus_le_compat; [|exact IH].
  unfold Qle, Qmult. cbn [Qnum Qden]. nia.
Qed.

Lemma dot_compat_l (u v w : vec) : Forall2 Qeq u v -> dot u w == dot v w.
Proof. intros H. rewrite (dot_comm u), (dot_comm v). apply dot_compat_r. exact H. Qed.

Lemma sumsq_compat (u v : vec) : Forall2 Qeq u v -> sumsq u == sumsq v.
Proof.
  intros H. unfold sumsq. rewrite (dot_compat_l u v u H). apply dot_compat_r. exact H.
Qed.

Lemma matvec_vsub (A : matrix) (u v : vec) :
  Forall2 Qeq (matvec A (vsub u v)) (vsub (matvec A u) (matvec A v)).
Proof.
  induction A as [|a A IH]; [constructor|].
  unfold matvec. cbn [map]. unfold vsub at 2, vscale. cbn [map vadd]. constructor.
  - rewrite dot_vsub_r. ring.
  - exact IH.
Qed.

Lemma vsub_vsub (b p q : vec) :
  List.length p = List.length b -> List.length q = List.length b ->
  Forall2 Qeq (vsub b q) (vsub (vsub b p) (vsub q p)).
Proof.
  revert p q. induction b as [|x b IH]; intros [|y p] [|z q] Lp Lq; try discriminate.
  - constructor.
  - unfold vsub, vscale. cbn [map vadd]. constructor; [ring|].
    apply (IH p q); cbn in Lp, Lq; lia.
Qed.

Lemma Forall2_Qeq_trans (u v w : vec) :
  Forall2 Qeq u v -> Forall2 Qeq v w -> Forall2 Qeq u w.
Proof.
  intros H. revert w. induction H as [|x y u v E _ IH]; intros w H2; inversion H2; subst;
    constructor; [rewrite E; assumption | apply IH; assumption].
Qed.

Lemma Forall2_Qeq_sym (u v : vec) : Forall2 Qeq u v -> Forall2 Qeq v u.
Proof. intros H. induction H; constructor; [symmetry; assumption|assumption]. Qed.

Lemma vsub_compat_r (b u v : vec) :
  Forall2 Qeq u v -> Forall2 Qeq (vsub b u) (vsub b v).
Proof.
  intros H. revert b. induction H as [|x y u v E _ IH]; intros [|z b].
  - constructor.
  - unfold vsub. cbn. constructor; [reflexivity|]. clear. induction b; constructor;
      [reflexivity|assumption].
  - unfold vsub, vscale. cbn [map vadd]. constructor; [rewrite E; reflexivity|].
    exact (IH []).
  - unfold vsub, vscale. cbn [map vadd]. constructor; [rewrite E; reflexivity|].
    exact (IH b).
Qed.

Lemma matvec_length (A : matrix) (t : vec) : List.length (matvec A t) = List.length A.
Proof. apply length_map. Qed.

(** Pythagoras for a residual that is orthogonal to the columns of [A]:
    moving the coefficients from [t] to [t'] adds [|A (t' - t)|^2]. *)
Lemma residual_split (n : nat) (A : matrix) (b t t' : vec) :
  List.length b = List.length A ->
  List.length t = n -> List.length t' = n ->
  (forall j, (j < n)%nat -> dot (col j A) (vsub b (matvec A t)) == 0) ->
  sumsq (vsub b (matvec A t')) ==
  sumsq (vsub b (matvec A t)) + sumsq (matvec A (vsub t' t)).
Proof.
  intros Lb Lt Lt' NE.
  set (e := vsub b (matvec A t)).
  set (w := matvec A (vsub t' t)).
  assert (E1 : Forall2 Qeq (vsub b (matvec A t')) (vsub e w)).
  { apply Forall2_Qeq_trans with (vsub e (vsub (matvec A t') (matvec A t))).
    - apply vsub_vsub; rewrite matvec_length; lia.
    - apply vsub_compat_r. apply Forall2_Qeq_sym. apply matvec_vsub. }
  rewrite (sumsq_compat _ _ E1). unfold sumsq.
  rewrite dot_vsub_l, !dot_vsub_r.
  assert (O : dot e w == 0).
  { unfold w. rewrite (dot_transpose A e (vsub t' t) n).
    - transitivity (dot (map (fun _ : nat => 0) (seq 0 n)) (vsub t' t));
        [|apply dot_map_zero].
      assert (NE' : forall j, (j < n)%nat -> dot e (col j A) == 0)
        by (intros j Hj; rewrite dot_comm; apply NE; exact Hj).
      assert (G : forall l u, (forall j, In j l -> (j < n)%nat) ->
                dot (map (fun j => dot e (col j A)) l) u
                == dot (map (fun _ : nat => 0) l) u).
      { induction l as [|j l IH]; intros [|y v] Hl; cbn [map dot]; try reflexivity.
        rewrite IH by (intros j' Hj'; apply Hl; right; exact Hj').
        rewrite (NE' j) by (apply Hl; left; reflexivity). reflexivity. }
      apply G. intros j Hj. apply in_seq in Hj. lia.
    - unfold vsub, vscale.
      assert (L : forall u v : vec, List.length u = List.length v ->
                List.length (vadd u v) = List.length u).
      { induction u as [|x u IH]; intros [|y v] H; try discriminate; [reflexivity|].
        cbn. rewrite IH; [reflexivity | cbn in H; lia]. }
      rewrite L by (rewrite length_map; lia). lia. }
  rewrite (dot_comm w e), O. ring.
Qed.

(** The solution of the normal equations minimises the sum of squared
    residuals of every column. *)
Lemma lstsq_minimal (n k : nat) (A B : matrix) (c : nat) (t' : vec) :
  full_column_rank n A = true ->
  List.length B = List.length A ->
  (c < k)%nat -> List.length t' = n ->
  sumsq (vsub (col c B) (matvec A (col c (fst (lstsq n k A B)))))
  <= sumsq (vsub (col c B) (matvec A t')).
Proof.
  intros HR LB Hc Lt'.
  destruct (lstsq_normal_equations n k A B HR) as [Sh NE].
  set (X := fst (lstsq n k A B)) in *.
  assert (LX : List.length (col c X) = n) by (rewrite col_length; apply Sh).
  rewrite (residual_split n A (col c B) (col c X) t').
  - rewrite <- (Qplus_0_r (sumsq (vsub (col c B) (matvec A (col c X))))) at 1.
    apply Qplus_le_compat; [apply Qle_refl | apply sumsq_nonneg].
  - rewrite col_length. exact LB.
  - exact LX.
  - exact Lt'.
  - intros j Hj. rewrite dot_vsub_r.
    rewrite (dot_transpose A (col j A) (col c X) n) by lia.
    specialize (NE j c Hj Hc). unfold gram in NE. rewrite gram_row in NE by exact Hj.
    rewrite NE, tmul_entry by assumption. ring.
Qed.

Lemma col_singletons (v : vec) : col 0 (map (fun x => [x]) v) = v.
Proof. unfold col. rewrite map_map. cbn. apply map_id. Qed.

Lemma dot_zero_r (u v : vec) : Forall (fun x => x == 0) v -> dot u v == 0.
Proof.
  intros H. revert u. induction H as [|y v E _ IH]; intros [|x u]; cbn; try reflexivity.
  rewrite E, IH. ring.
Qed.

(** What [full_column_rank] computes implies that the columns are
    linearly independent: only the zero vector is sent to zero. *)
Lemma full_column_rank_injective (n : nat) (A : matrix) (v : vec) :
  full_column_rank n A = true -> List.length v = n ->
  Forall (fun x => x == 0) (matvec A v) -> Forall (fun x => x == 0) v.
Proof.
  intros HR L HZ.
  set (B := map (fun x => [x]) (matvec A v)).
  assert (CB : col 0 B = matvec A v) by apply col_singletons.
  destruct (lstsq_exact n 1 A B (map (fun x => [x]) v) HR) as [E1 _].
  { rewrite length_map. exact L. }
  { intros c Hc. assert (c = 0%nat) by lia. subst c.
    rewrite CB, col_singletons.
    clear. induction (matvec A v); constructor; [reflexivity|assumption]. }
  destruct (lstsq_exact n 1 A B (map (fun _ => [0]) v) HR) as [E2 _].
  { rewrite length_map. exact L. }
  { intros c Hc. assert (c = 0%nat) by lia. subst c. rewrite CB.
    assert (Z0 : Forall (fun x => x == 0) (col 0 (map (fun _ : Q => [0]) v))).
    { unfold col. rewrite map_map. cbn. clear. induction v; constructor;
        [reflexivity|assumption]. }
    unfold matvec in *. clear - HZ Z0.
    induction A as [|a A IH]; [constructor|].
    cbn [map] in *. inversion HZ as [|? ? H0 HZ']; subst.
    constructor; [|apply IH; exact HZ'].
    rewrite H0. symmetry. apply dot_zero_r. exact Z0. }
  apply Forall_forall. intros x Hx.
  destruct (In_nth v x 0 Hx) as (i & Hi & <-).
  specialize (E1 i 0%nat ltac:(lia) ltac:(lia)).
  specialize (E2 i 0%nat ltac:(lia) ltac:(lia)).
  rewrite <- !nth_col in E1, E2.
  assert (C2 : col 0 (map (fun _ : Q => [0]) v) = map (fun _ => 0) v)
    by (unfold col; rewrite map_map; reflexivity).
  rewrite col_singletons in E1. rewrite C2 in E2.
  rewrite <- E1, E2.
  clear. revert i. induction v as [|y v IH]; intros [|i]; cbn; try reflexivity.
  apply IH.
Qed.

End LinAlgFacts.

(** ** The calibration solver *)

Module SolverFacts.
Import Np LinAlg LinAlgSpec Detect Calib Scenario NpFacts CalibFacts LinAlgFacts.

Lemma design_matrix_rows (pts : list ((Q * Q) * (Q * Q))) :
  design_matrix pts =
  map (fun rp => let x := fst (snd rp) in let y := snd (snd rp) in
                 [x * x; y * y; x * y; x; y; 1]) pts.
Proof. reflexivity. Qed.

Lemma noise_free_cols (T0 : matrix) (pts : list ((Q * Q) * (Q * Q))) :
  noise_free T0 pts ->
  forall c, (c < 2)%nat ->
  Forall2 Qeq (col c (real_matrix pts)) (matvec (design_matrix pts) (col c T0)).
Proof.
  intros H c Hc. induction H as [|rp pts [H0 H1] _ IH]; [constructor|].
  cbn [real_matrix design_matrix map col matvec]. constructor; [|exact IH].
  destruct c as [|[|c]]; [exact H0 | exact H1 | lia].
Qed.

Lemma good_pts_noise_free : noise_free T0 good_pts.
Proof. repeat constructor; vm_compute; reflexivity. Qed.

Lemma line_pts_noise_free : noise_free T0 line_pts.
Proof. repeat constructor; vm_compute; reflexivity. Qed.

(** Ten noise-free samples on one pixel row: the recovered matrix has 0
    where the known one has 9.6, and the residual is [nan]. *)
Lemma roundtrip_degenerate_counterexample :
  ~ (forall (pts : list ((Q * Q) * (Q * Q))) (T : matrix),
       List.length pts = 10%nat -> has_shape 6 2 T -> noise_free T pts ->
       (forall i c, (i < 6)%nat -> (c < 2)%nat ->
          Qabs (entry (fst (least_square_mapping pts)) i c - entry T i c)
          <= 1 # 1000000) /\
       exists r, snd (least_square_mapping pts) = Finite r /\ Qabs r <= 1 # 1000000).
Proof.
  intros H.
  destruct (H line_pts T0 eq_refl) as [_ (r & E & _)].
  - split; [reflexivity | repeat constructor].
  - exact line_pts_noise_free.
  - assert (N : snd (least_square_mapping line_pts) = NaN) by (vm_compute; reflexivity).
    rewrite N in E. discriminate E.
Qed.

Lemma process_10 (e : env) (s : ctl) :
  state s = 10%Z -> process e s = process_solve e s.
Proof. intros H. unfold process. rewrite H. reflexivity. Qed.

(** [collinear_state] is the state in which the sweep [collinear_dets]
    enters the state switch for the last time, and that run ends in the
    alignment stage with a [nan] residual. *)
Lemma collinear_state_reached :
  exists s,
    calibrate_loop env0 (init [] None) (firstn 24 collinear_dets) = Waiting s /\
    collinear_state =
      store (det_at (640, 240)%Z (100 - (294 # 1000), 100 - (405 # 1000)))
        (average (accumulate
           (store (det_at (640, 240)%Z (100 - (294 # 1000), 100 - (405 # 1000))) s))).
Proof. eexists. split; vm_compute; reflexivity. Qed.

Lemma collinear_run :
  exists s,
    calibrateTool env0 [] None collinear_dets = Waiting s /\
    state s = 200%Z /\ transform_residual s = Some NaN.
Proof. eexists. split; [vm_compute; reflexivity|]. split; reflexivity. Qed.

(** Eleven samples on one pixel row do not make the solve step fail. *)
Lemma solver_failure_counterexample :
  ~ (forall (e : env) (s : ctl) (tc : Q * Q) (input : list ((Q * Q) * (Q * Q))),
       state s = 10%Z -> tool_coordinates s = Some tc -> mpp s <> None ->
       transform_input e (space_coordinates s ++ [tc]) (camera_coordinates s ++ [xy s])
         = Some input ->
       full_column_rank 6 (design_matrix input) = false ->
       exists err s', process e s = Raise err s').
Proof.
  intros H.
  destruct (transform_input env0
              (space_coordinates collinear_state ++ [(100 - (294 # 1000), 100 - (405 # 1000))])
              (camera_coordinates collinear_state ++ [xy collinear_state]))
    as [input|] eqn:Ei; [|vm_compute in Ei; discriminate].
  destruct (H env0 collinear_state _ input eq_refl eq_refl ltac:(discriminate) Ei)
    as (err & s' & E).
  - vm_compute in Ei. injection Ei as <-. vm_compute. reflexivity.
  - assert (C : is_continue (process env0 collinear_state) = true)
      by (vm_compute; reflexivity).
    rewrite E in C. discriminate C.
Qed.

End SolverFacts.

(** ** Ranges of the measured quantities *)

Module RangeFacts.
Import Np LinAlg Detect Calib NpFacts CalibFacts MppFacts Scenario.

(** [np.rint] is monotone. *)
Lemma rint_mono (x y : Q) : x <= y -> (rint x <= rint y)%Z.
Proof.
  intros H. pose proof (Qfloor_resp_le _ _ H) as F.
  assert (Lx : (rint x <= Qfloor x + 1)%Z).
  { unfold rint. destruct (Qcompare _ _); [destruct (Z.even _)| |]; lia. }
  assert (Ly : (Qfloor y <= rint y)%Z).
  { unfold rint. destruct (Qcompare _ _); [destruct (Z.even _)| |]; lia. }
  destruct (Z.eq_dec (Qfloor x) (Qfloor y)) as [E|N]; [|lia].
  unfold rint. rewrite <- E.
  assert (D : x - inject_Z (Qfloor x) <= y - inject_Z (Qfloor x)).
  { apply Qplus_le_compat; [exact H | apply Qle_refl]. }
  destruct (Qcompare (x - inject_Z (Qfloor x)) (1 # 2)) eqn:Cx;
    destruct (Qcompare (y - inject_Z (Qfloor x)) (1 # 2)) eqn:Cy;
    try (destruct (Z.even (Qfloor x)); lia); try lia; exfalso.
  - apply Qeq_alt in Cx. apply Qlt_alt in Cy. rewrite Cx in D.
    apply (Qlt_irrefl (1 # 2)). eapply Qle_lt_trans; eassumption.
  - apply Qgt_alt in Cx. apply Qeq_alt in Cy. rewrite Cy in D.
    apply (Qlt_irrefl (1 # 2)). eapply Qlt_le_trans; eassumption.
  - apply Qgt_alt in Cx. apply Qlt_alt in Cy.
    apply (Qlt_irrefl (1 # 2)). eapply Qlt_le_trans; [exact Cx|].
    eapply Qle_trans; [exact D|]. apply Qlt_le_weak. exact Cy.
Qed.

Lemma around_mono (d : nat) (x y : Q) : x <= y -> around d x <= around d y.
Proof.
  intros H. unfold around. rewrite !Qred_correct.
  unfold Qle. cbn [Qnum Qden].
  apply Z.mul_le_mono_nonneg_r; [lia|].
  apply rint_mono. apply Qmult_le_compat_r; [exact H | discriminate].
Qed.

Lemma around_int (d : nat) (z : Z) : around d (inject_Z z) == inject_Z z.
Proof.
  rewrite around_value.
  rewrite (rint_comp _ (inject_Z (z * Zpos (pow10 d)))) by (rewrite inject_Z_mult; reflexivity).
  rewrite rint_inject_Z, inject_Z_mult. field. discriminate.
Qed.

(** Two distinct pixel positions are at least one pixel apart. *)
Lemma getDistance_ge_1 (p0 p1 : Z * Z) :
  p0 <> p1 -> 1 <= getDistance (fst p0) (snd p0) (fst p1) (snd p1).
Proof.
  intros N. unfold getDistance, around_sqrt. rewrite Qred_correct.
  set (n := ((fst p0 - fst p1) ^ 2 + (snd p0 - snd p1) ^ 2)%Z).
  assert (Hn : (1 <= n)%Z).
  { assert (n <> 0)%Z.
    { intros E. apply N. apply sq_dist_zero in E. destruct p0, p1, E; cbn in *; congruence. }
    pose proof (sq_dist_nonneg (fst p0) (snd p0) (fst p1) (snd p1)). fold n in H0. lia. }
  cbn [pow10]. unfold Qle. cbn [Qnum Qden].
  assert (L : (2000 * 2000 <= 4 * 1000 * 1000 * n)%Z) by lia.
  pose proof (Z.sqrt_le_mono _ _ L) as M. rewrite Z.sqrt_square in M by lia.
  change (Z.pos (10 * (10 * (10 * 1)))) with 1000%Z.
  revert M. generalize (Z.sqrt (4 * 1000 * 1000 * n)). intros t M.
  Z.div_mod_to_equations. lia.
Qed.

(** Property X1.  The scale factor computed in sweep state 1 is [inf] or lies between
    0 and 0.5 millimetres per pixel: it is never negative and never
    [nan]. *)
Theorem mpp_range (p0 p1 : Z * Z) :
  (p0 <> p1 -> 1 <= getDistance (fst p0) (snd p0) (fst p1) (snd p1)) /\
  (calc_mpp p0 p1 = PosInf \/
   exists q, calc_mpp p0 p1 = Finite q /\ 0 <= q /\ q <= 1 # 2).
Proof.
  split; [apply getDistance_ge_1|].
  unfold calc_mpp, np_div.
  set (dist := getDistance (fst p0) (snd p0) (fst p1) (snd p1)).
  destruct (Qeq_bool dist 0) eqn:E.
  - left. reflexivity.
  - right. eexists. split; [reflexivity|].
    assert (N : p0 <> p1).
    { intros ->. apply Qeq_bool_neq in E. apply E. apply getDistance_zero. reflexivity. }
    pose proof (getDistance_ge_1 p0 p1 N) as G. fold dist in G.
    assert (P : 0 < dist) by (eapply Qlt_le_trans; [|exact G]; reflexivity).
    split.
    + rewrite <- (around_int 4 0). apply around_mono.
      apply Qlt_le_weak. apply Qlt_shift_div_l; [exact P|]. rewrite Qmult_0_l. reflexivity.
    + setoid_replace (1 # 2) with (around 4 (1 # 2)) at 2 by reflexivity.
      apply around_mono. apply Qle_shift_div_r; [exact P|].
      setoid_replace (1 # 2) with ((1 # 2) * 1) at 1 by ring.
      apply Qmult_le_l; [reflexivity | exact G].
Qed.

Lemma normalize_axis (p : Z) (w : positive) :
  (0 <= p <= Zpos w)%Z ->
  (-(1 # 2) <= inject_Z p / inject_Z (Zpos w) - (1 # 2) /\
   inject_Z p / inject_Z (Zpos w) - (1 # 2) <= 1 # 2) /\
  inject_Z p == (inject_Z p / inject_Z (Zpos w) - (1 # 2) + (1 # 2)) * inject_Z (Zpos w).
Proof.
  intros Hp.
  assert (E : inject_Z p / inject_Z (Zpos w) == p # w).
  { rewrite (Qmake_Qdiv p w). reflexivity. }
  rewrite E. split.
  - unfold Qle, Qminus, Qplus, Qopp. cbn [Qnum Qden]. split; nia.
  - unfold Qeq, Qminus, Qplus, Qopp, Qmult, inject_Z. cbn [Qnum Qden]. nia.
Qed.

Lemma normalize_axis_zero (p : Z) (w : positive) :
  inject_Z p / inject_Z (Zpos w) - (1 # 2) == 0 <-> (2 * p = Zpos w)%Z.
Proof.
  assert (E : inject_Z p / inject_Z (Zpos w) == p # w).
  { rewrite (Qmake_Qdiv p w). reflexivity. }
  rewrite E. unfold Qeq, Qminus, Qplus, Qopp. cbn [Qnum Qden]. split; intros H; nia.
Qed.

(** Property X2.  A pixel inside the frame is normalized into the square
    [-0.5, 0.5] x [-0.5, 0.5]; the pixel is recovered from its
    normalized coordinates, and a coordinate is 0 exactly for the pixel
    in the middle of the frame. *)
Theorem normalize_coords_range (e : env) (px py : Z) :
  (0 <= px <= Zpos (camera_width e))%Z ->
  (0 <= py <= Zpos (camera_height e))%Z ->
  let c := normalize_coords e (px, py) in
  (-(1 # 2) <= fst c /\ fst c <= 1 # 2) /\
  (-(1 # 2) <= snd c /\ snd c <= 1 # 2) /\
  inject_Z px == (fst c + (1 # 2)) * inject_Z (Zpos (camera_width e)) /\
  inject_Z py == (snd c + (1 # 2)) * inject_Z (Zpos (camera_height e)) /\
  (fst c == 0 <-> (2 * px = Zpos (camera_width e))%Z) /\
  (snd c == 0 <-> (2 * py = Zpos (camera_height e))%Z).
Proof.
  intros Hx Hy c. unfold c, normalize_coords. cbn [fst snd].
  destruct (normalize_axis px (camera_width e) Hx) as (R1 & I1).
  destruct (normalize_axis py (camera_height e) Hy) as (R2 & I2).
  split; [exact R1|]. split; [exact R2|]. split; [exact I1|]. split; [exact I2|].
  split; apply normalize_axis_zero.
Qed.

Lemma normalize_coords_range_witness :
  fst (normalize_coords env0 (320, 240)%Z) == 0 /\
  -(1 # 2) <= snd (normalize_coords env0 (320, 480)%Z) <= 1 # 2.
Proof.
  split.
  - apply (normalize_coords_range env0 320 240); cbn; lia.
  - pose proof (normalize_coords_range env0 320 480 ltac:(cbn; lia) ltac:(cbn; lia)) as H.
    cbv zeta in H. tauto.
Defined.

Lemma around_sqrt_square (d : nat) (k : Z) :
  around_sqrt d (k * k) == inject_Z (Z.abs k).
Proof.
  unfold around_sqrt. rewrite Qred_correct.
  set (s := Zpos (pow10 d)).
  replace (4 * s * s * (k * k))%Z with ((2 * s * Z.abs k) * (2 * s * Z.abs k))%Z by nia.
  rewrite Z.sqrt_square by (unfold s; nia).
  replace ((2 * s * Z.abs k + 1) / 2)%Z with (s * Z.abs k)%Z
    by (apply Z.div_unique with 1%Z; lia).
  unfold Qeq, inject_Z. cbn [Qnum Qden]. fold s. ring.
Qed.

(** Property X3.  [getDistance] does not depend on the order of the
    two points nor on where they lie in the frame, and for two points
    on one pixel row or column it is the exact number of pixels between
    them. *)
Theorem getDistance_symmetric_exact (x1 y1 x0 y0 : Z) :
  getDistance x1 y1 x0 y0 = getDistance x0 y0 x1 y1 /\
  getDistance x1 y1 x0 y1 == inject_Z (Z.abs (x1 - x0)) /\
  getDistance x1 y1 x1 y0 == inject_Z (Z.abs (y1 - y0)) /\
  (forall a b : Z,
     getDistance (x1 + a) (y1 + b) (x0 + a) (y0 + b) = getDistance x1 y1 x0 y0).
Proof.
  unfold getDistance. split; [f_equal; ring|]. split; [|split].
  - replace ((x1 - x0) ^ 2 + (y1 - y1) ^ 2)%Z with ((x1 - x0) * (x1 - x0))%Z by ring.
    apply around_sqrt_square.
  - replace ((x1 - x1) ^ 2 + (y1 - y0) ^ 2)%Z with ((y1 - y0) * (y1 - y0))%Z by ring.
    apply around_sqrt_square.
  - intros a b. f_equal. ring.
Qed.

End RangeFacts.

(** ** The alignment step and the frame centre *)

Module AlignFacts.
Import Np LinAlg LinAlgSpec Detect Calib NpFacts CalibFacts SweepFacts SolverFacts Scenario AlignSpec.

Lemma predict_centre (T : matrix) (c : Q * Q) (j : nat) :
  fst c == 0 -> snd c == 0 ->
  dot (feature_row c 1) (col j T) == entry T 5 j.
Proof.
  intros Hx Hy. unfold feature_row, entry, col.
  destruct T as [|r0 [|r1 [|r2 [|r3 [|r4 [|r5 T]]]]]]; cbn [map dot nth];
    try (destruct j); rewrite ?Hx, ?Hy; ring.
Qed.




Lemma new_centre_entry (T : matrix) (j : nat) :
  (j < 2)%nat ->
  nth j (matvec (transpose 2 T) [0; 0; 0; 0; 0; 1]) 0 == entry T 5 j.
Proof.
  intros Hj. unfold matvec, transpose, entry, col.
  destruct j as [|[|j]]; [| |lia];
    destruct T as [|r0 [|r1 [|r2 [|r3 [|r4 [|r5 T]]]]]]; cbn [seq map dot nth];
    rewrite ?LinAlgFacts.dot_nil_r; ring.
Qed.

(** Property X6.  When the sweep is complete the carriage is sent, by an absolute
    move, to the constant row of the fitted transform rounded to 3
    decimals: the machine position that the fit gives for the middle of
    the frame. *)
Theorem solve_moves_to_centre (e : env) (s : ctl) (tc : Q * Q) (m : npfloat) :
  state s = 10%Z ->
  tool_coordinates s = Some tc ->
  mpp s = Some m ->
  List.length (space_coordinates s) = List.length (camera_coordinates s) ->
  exists s',
    process e s = Continue s' /\
    guess_position s' =
      (around 3 (entry (transform_matrix s') 5 0), around 3 (entry (transform_matrix s') 5 1)) /\
    guess_position s' =
      (around 3 (fst (predict (transform_matrix s') (0, 0))),
       around 3 (snd (predict (transform_matrix s') (0, 0)))) /\
    trace s' = trace s ++
      [EvGCode (G90_G1 (fst (guess_position s')) (snd (guess_position s')) 1000)].
Proof.
  intros Hst Htc Hm HL. rewrite (process_10 e s Hst). unfold process_solve.
  rewrite Hm, Htc.
  destruct (transform_input_length e (space_coordinates s ++ [tc])
              (camera_coordinates s ++ [xy s])) as (input & Ei & _).
  { rewrite !length_app, HL. reflexivity. }
  rewrite Ei. destruct (least_square_mapping input) as [T residual].
  eexists. split; [reflexivity|].
  cbn [guess_position transform_matrix trace fst snd].
  split; [|split; [|reflexivity]].
  - f_equal; apply around_comp; apply new_centre_entry; lia.
  - f_equal; apply around_comp.
    + rewrite new_centre_entry by lia. symmetry. apply predict_centre; reflexivity.
    + rewrite new_centre_entry by lia. symmetry. apply predict_centre; reflexivity.
Qed.

Lemma solve_moves_to_centre_witness :
  state collinear_state = 10%Z /\
  tool_coordinates collinear_state = Some (100 - (294 # 1000), 100 - (405 # 1000)) /\
  mpp collinear_state = Some (Finite (39 # 5000)) /\
  List.length (space_coordinates collinear_state)
    = List.length (camera_coordinates collinear_state) /\
  exists s', process env0 collinear_state = Continue s' /\
             guess_position s' =
               (around 3 (entry (transform_matrix s') 5 0),
                around 3 (entry (transform_matrix s') 5 1)).
Proof.
  assert (H1 : state collinear_state = 10%Z) by reflexivity.
  assert (H2 : tool_coordinates collinear_state
               = Some (100 - (294 # 1000), 100 - (405 # 1000))) by reflexivity.
  assert (H3 : mpp collinear_state = Some (Finite (39 # 5000))) by reflexivity.
  assert (H4 : List.length (space_coordinates collinear_state)
               = List.length (camera_coordinates collinear_state)) by reflexivity.
  repeat (split; [assumption|]).
  destruct (solve_moves_to_centre env0 collinear_state _ _ H1 H2 H3 H4)
    as (s' & E & G & _).
  exists s'. split; assumption.
Defined.

End AlignFacts.

(** ** Shape and residual of the solver's answer *)

Module ResidualFacts.
Import Np LinAlg LinAlgSpec Detect Calib NpFacts CalibFacts SweepFacts SolverFacts LinAlgFacts.
Import Scenario.

Lemma zeros_shape (n k : nat) : has_shape n k (zeros n k).
Proof.
  unfold zeros. split; [apply repeat_length|].
  apply Forall_forall. intros r Hr. apply repeat_spec in Hr. subst. apply repeat_length.
Qed.

Lemma tmul_shape (n k : nat) (A B : matrix) : has_shape n k (tmul n k A B).
Proof.
  split; [apply tmul_length|].
  unfold tmul. apply Forall_forall. intros r Hr.
  apply in_map_iff in Hr. destruct Hr as (i & <- & _).
  rewrite length_map, length_seq. reflexivity.
Qed.

Lemma map_Qred_shape (n k : nat) (M : matrix) :
  has_shape n k M -> has_shape n k (map (map Qred) M).
Proof.
  intros [L F]. split; [rewrite length_map; exact L|].
  apply Forall_forall. intros r Hr. apply in_map_iff in Hr.
  destruct Hr as (r0 & <- & Hr0). rewrite length_map.
  rewrite Forall_forall in F. apply F. exact Hr0.
Qed.

Lemma min_norm_shape (n k : nat) (A B : matrix) : has_shape n k (min_norm n k A B).
Proof.
  unfold min_norm. destruct (rref (seq 0 n) [] A []) as [R pivs].
  destruct (solve _ _ _ _); [|apply zeros_shape].
  destruct (solve _ _ _ _); [|apply zeros_shape].
  apply map_Qred_shape, tmul_shape.
Qed.

Lemma full_column_rank_cases (n : nat) (A : matrix) :
  full_column_rank n A = true \/ full_column_rank n A = false.
Proof. destruct (full_column_rank n A); auto. Qed.

(** The matrix returned by the solver is a 6 x 2 array, whatever the
    samples. *)
Lemma least_square_mapping_shape (pts : list ((Q * Q) * (Q * Q))) :
  has_shape 6 2 (fst (least_square_mapping pts)).
Proof.
  unfold least_square_mapping. cbn [fst].
  destruct (full_column_rank_cases 6 (design_matrix pts)) as [H|H].
  - apply (lstsq_normal_equations 6 2 _ _ H).
  - unfold lstsq. rewrite (rank_deficient_solve 6 2 _ _ H). cbn [fst].
    apply min_norm_shape.
Qed.

Lemma Qred_nonneg (q : Q) : 0 <= q -> 0 <= Qred q.
Proof. intros H. rewrite Qred_correct. exact H. Qed.

End ResidualFacts.

(** ** Invariants of the calibration loop *)

Module LoopFacts.
Import Np LinAlg LinAlgSpec Detect Calib NpFacts CalibFacts SweepFacts SolverFacts LinAlgFacts.
Import Scenario Scenario2 AlignSpec TraceSpec ResidualFacts.

(** *** Which branch of the state switch is taken *)

Lemma process_cases (e : env) (s : ctl) :
  (state s = 0%Z /\ process e s = process_first e s) \/
  ((1 <= state s < 10)%Z /\ process e s = process_sweep e s) \/
  (state s = 10%Z /\ process e s = process_solve e s) \/
  (state s = 200%Z /\ process e s = process_align e s) \/
  (((state s < 0)%Z \/ (10 < state s < 200)%Z \/ (200 < state s)%Z) /\
   process e s = Continue s).
Proof.
  unfold process.
  change (Z.of_nat (List.length calibrationCoordinates)) with 10%Z.
  destruct (state s =? 0)%Z eqn:E0; [apply Z.eqb_eq in E0; auto|].
  apply Z.eqb_neq in E0.
  destruct ((1 <=? state s)%Z && (state s <? 10)%Z) eqn:E1.
  { apply andb_true_iff in E1. destruct E1 as [A B].
    apply Z.leb_le in A. apply Z.ltb_lt in B. right. left. split; [lia|reflexivity]. }
  destruct (state s =? 10)%Z eqn:E2; [apply Z.eqb_eq in E2; auto|].
  apply Z.eqb_neq in E2.
  destruct (state s =? 200)%Z eqn:E3; [apply Z.eqb_eq in E3; auto 6|].
  apply Z.eqb_neq in E3.
  do 4 right. split; [|reflexivity].
  apply andb_false_iff in E1. destruct E1 as [A|B].
  - apply Z.leb_gt in A. lia.
  - apply Z.ltb_ge in B. lia.
Qed.

(** *** Invariants of the loop *)

Section LoopInvariant.
Variable e : env.
Variable P : ctl -> Prop.
Hypothesis P_store : forall d s, P s -> P (store d s).
Hypothesis P_accumulate : forall s, P s -> P (accumulate s).
Hypothesis P_average : forall s, P s -> P (average s).
Hypothesis P_continue : forall s s', P s -> process e s = Continue s' -> P s'.

Lemma loop_cases_bounded (n : nat) :
  forall (dets : list (option detection)) (s : ctl),
  (List.length dets <= n)%nat -> P s ->
  match calibrate_loop e s dets with
  | Waiting s' => P s'
  | Raised err s' =>
      (err = TypeError /\ P s') \/ exists s0, P s0 /\ process e s0 = Raise err s'
  | Returned r s' _ => exists s0, P s0 /\ process e s0 = Return r s'
  end.
Proof.
  induction n as [|n IH]; intros dets s L H.
  - destruct dets; [exact H | cbn in L; lia].
  - destruct dets as [|[d|] rest]; [exact H | | left; auto].
    cbn [calibrate_loop].
    assert (H1 : P (accumulate (store d s))) by auto.
    destruct (position_iterations <=? detect_count (accumulate (store d s)))%Z.
    + assert (H2 : P (average (accumulate (store d s)))) by auto.
      destruct rest as [|[d2|] rest']; [exact H2 | | left; auto].
      assert (H3 : P (store d2 (average (accumulate (store d s))))) by auto.
      destruct (process e (store d2 (average (accumulate (store d s)))))
        as [s3|r s3|err s3] eqn:E.
      * apply IH; [cbn in L; lia | eapply P_continue; eassumption].
      * eexists. split; eassumption.
      * right. eexists. split; eassumption.
    + apply IH; [cbn in L; lia | exact H1].
Qed.

Lemma loop_cases (dets : list (option detection)) (s : ctl) :
  P s ->
  match calibrate_loop e s dets with
  | Waiting s' => P s'
  | Raised err s' =>
      (err = TypeError /\ P s') \/ exists s0, P s0 /\ process e s0 = Raise err s'
  | Returned r s' _ => exists s0, P s0 /\ process e s0 = Return r s'
  end.
Proof. apply (loop_cases_bounded (List.length dets)). lia. Qed.

End LoopInvariant.

(** What a visit of the state switch can raise or return. *)
Lemma process_raise (e : env) (s s' : ctl) (err : error) :
  process e s = Raise err s' ->
  (s' = s /\ (err = TypeError \/
              (err = AttributeError /\ state s = 10%Z /\ mpp s = None) \/
              (err = IndexError /\ state s = 10%Z /\
               List.length (space_coordinates s) <> List.length (camera_coordinates s)) \/
              (err = ValueError /\ state s = 200%Z /\
               has_shapeb 6 2 (transform_matrix s) = false))) \/
  (state s = 200%Z /\ state s' = 200%Z /\
   transform_matrix s' = transform_matrix s /\ mpp s' = mpp s /\
   calibration_moves s' = (calibration_moves s + 1)%Z /\
   (exists ox oy, trace s' = trace s ++ [EvGCode M564_S1; EvGCode (G91_G1 ox oy 1000);
                                         EvGCode (G1_F 13200)]) /\
   ((err = TypeError /\ tool_coordinates s = None) \/
    (err = AttributeError /\ mpp s = None))).
Proof.
  intros H.
  destruct (process_cases e s) as [[St E]|[[St E]|[[St E]|[[St E]|[St E]]]]];
    rewrite E in H.
  - unfold process_first in H. destruct (tool_coordinates s); inversion H; subst. auto.
  - unfold process_sweep in H. destruct (tool_coordinates s); inversion H; subst. auto.
  - unfold process_solve in H.
    destruct (mpp s) eqn:Em; [|inversion H; subst; left; split; auto].
    destruct (tool_coordinates s) as [tc|]; [|inversion H; subst; auto].
    destruct (transform_input e _ _) as [input|] eqn:Ei.
    + destruct (least_square_mapping input); discriminate H.
    + inversion H; subst. left. split; [reflexivity|]. right. right. left.
      split; [reflexivity|]. split; [exact St|]. intros L.
      destruct (transform_input_length e (space_coordinates s' ++ [tc])
                  (camera_coordinates s' ++ [xy s'])) as (i & Ei' & _).
      { rewrite !length_app, L. reflexivity. }
      congruence.
  - unfold process_align in H.
    destruct (has_shapeb 6 2 (transform_matrix s)) eqn:Hs; cbn [negb] in H.
    2:{ inversion H; subst. left. split; [reflexivity|]. do 3 right. auto. }
    destruct (Qeq_bool _ 0 && Qeq_bool _ 0); [|discriminate H].
    right. split; [exact St|].
    destruct (tool_coordinates s) eqn:Et.
    + destruct (mpp s) eqn:Em; [discriminate H|]. inversion H; subst.
      cbn [state transform_matrix mpp calibration_moves trace emit].
      repeat split; try assumption; try reflexivity.
      * eexists. eexists. rewrite <- app_assoc. reflexivity.
      * right. auto.
    + inversion H; subst.
      cbn [state transform_matrix mpp calibration_moves trace emit].
      repeat split; try assumption; try reflexivity.
      * eexists. eexists. rewrite <- app_assoc. reflexivity.
      * left. auto.
  - discriminate H.
Qed.

Lemma process_return (e : env) (s s' : ctl) (r : tool_result) :
  process e s = Return r s' ->
  state s = 200%Z /\ state s' = 200%Z /\
  has_shape 6 2 (transform_matrix s) /\
  transform_matrix s' = transform_matrix s /\ mpp s' = mpp s /\
  calibration_moves s' = (calibration_moves s + 1)%Z /\
  res_matrix r = transform_matrix s /\ mpp s = Some (res_MPP r) /\
  exists ox oy,
    ox == 0 /\ oy == 0 /\
    trace s' = trace s ++
      [EvGCode M564_S1; EvGCode (G91_G1 ox oy 1000); EvGCode (G1_F 13200);
       EvGCode (G1_F 13200);
       EvResult (result_record e (res_MPP r) (res_X r) (res_Y r))].
Proof.
  intros H.
  destruct (process_cases e s) as [[St E]|[[St E]|[[St E]|[[St E]|[St E]]]]];
    rewrite E in H.
  - unfold process_first in H. destruct (tool_coordinates s); discriminate H.
  - unfold process_sweep in H. destruct (tool_coordinates s); discriminate H.
  - unfold process_solve in H.
    destruct (mpp s); [|discriminate H].
    destruct (tool_coordinates s); [|discriminate H].
    destruct (transform_input e _ _) as [input|]; [|discriminate H].
    destruct (least_square_mapping input); discriminate H.
  - unfold process_align in H.
    destruct (has_shapeb 6 2 (transform_matrix s)) eqn:Hs; cbn [negb] in H;
      [|discriminate H].
    destruct (Qeq_bool _ 0 && Qeq_bool _ 0) eqn:Hz; [|discriminate H].
    destruct (tool_coordinates s); [|discriminate H].
    destruct (mpp s); [|discriminate H].
    inversion H; subst. clear H.
    cbn [state transform_matrix mpp calibration_moves trace emit
         res_matrix res_MPP res_X res_Y].
    apply andb_true_iff in Hz. destruct Hz as [Z0 Z1].
    apply Qeq_bool_iff in Z0, Z1. apply has_shapeb_true in Hs.
    split; [exact St|]. split; [exact St|]. split; [exact Hs|].
    do 5 (split; [reflexivity|]).
    eexists. eexists. split; [exact Z0|]. split; [exact Z1|].
    rewrite <- !app_assoc. reflexivity.
  - discriminate H.
Qed.

Lemma process_continue (e : env) (s s' : ctl) :
  process e s = Continue s' ->
  (state s = 0%Z /\ state s' = 1%Z /\ tool_coordinates s <> None /\
   process_first e s = Continue s') \/
  ((1 <= state s < 10)%Z /\ state s' = (state s + 1)%Z /\ tool_coordinates s <> None /\
   process_sweep e s = Continue s') \/
  (state s = 10%Z /\ state s' = 200%Z /\ process_solve e s = Continue s') \/
  (state s = 200%Z /\ state s' = 200%Z /\ process_align e s = Continue s') \/
  (((state s < 0)%Z \/ (10 < state s < 200)%Z \/ (200 < state s)%Z) /\ s' = s).
Proof.
  intros H.
  destruct (process_cases e s) as [[St E]|[[St E]|[[St E]|[[St E]|[St E]]]]];
    rewrite E in H.
  - left. split; [exact St|]. unfold process_first in *.
    destruct (tool_coordinates s); [|discriminate H]. inversion H; subst.
    split; [reflexivity|]. split; [discriminate|reflexivity].
  - right. left. split; [exact St|]. unfold process_sweep in *.
    destruct (tool_coordinates s); [|discriminate H]. inversion H; subst.
    split; [reflexivity|]. split; [discriminate|reflexivity].
  - do 2 right. left. split; [exact St|]. split; [|exact H].
    unfold process_solve in H.
    destruct (mpp s); [|discriminate H].
    destruct (tool_coordinates s); [|discriminate H].
    destruct (transform_input e _ _) as [input|]; [|discriminate H].
    destruct (least_square_mapping input). inversion H; subst. reflexivity.
  - do 3 right. left. split; [exact St|]. split; [|exact H].
    unfold process_align in H.
    destruct (negb (has_shapeb 6 2 (transform_matrix s))); [discriminate H|].
    destruct (Qeq_bool _ 0 && Qeq_bool _ 0).
    + destruct (tool_coordinates s); [|discriminate H].
      destruct (mpp s); discriminate H.
    + inversion H; subst. exact St.
  - do 4 right. split; [exact St|]. inversion H. reflexivity.
Qed.

(** *** The state stays in the range the switch handles *)

Lemma in_range_continue (e : env) (s s' : ctl) :
  in_range s -> process e s = Continue s' -> in_range s'.
Proof.
  unfold in_range. intros R H.
  destruct (process_continue e s s' H)
    as [(A & B & _)|[(A & B & _)|[(A & B & _)|[(A & B & _)|(A & ->)]]]]; lia.
Qed.

(** Property X8.  In every run of [calibrateTool] the state tracker only
    takes the values 0 to 10 and 200, so each visit of the state
    switch runs one of its four branches and the statements after the
    switch, at the end of the loop body, are never reached. *)
Theorem state_stays_in_range (e : env) (prev_matrix : matrix) (prev_mpp : option npfloat)
  (dets : list (option detection)) :
  let s := final_state (calibrateTool e prev_matrix prev_mpp dets) in
  ((0 <= state s <= 10)%Z \/ state s = 200%Z) /\
  (forall d : detection,
     In (process e (store d s))
        [process_first e (store d s); process_sweep e (store d s);
         process_solve e (store d s); process_align e (store d s)]).
Proof.
  intros s.
  assert (R : in_range s).
  { unfold s, calibrateTool.
    pose proof (loop_cases e in_range (fun _ _ H => H) (fun _ H => H) (fun _ H => H)
                  (in_range_continue e) dets (init prev_matrix prev_mpp)) as L.
    destruct (calibrate_loop e (init prev_matrix prev_mpp) dets) as [r s1 u|err s1|s1];
      cbn [final_state].
    - destruct L as (s0 & _ & E).
      + unfold in_range, init. cbn [state]. destruct (1 <? _)%nat; lia.
      + right. apply (process_return e s0 s1 r E).
    - destruct L as [[_ H]|(s0 & H0 & E)].
      + unfold in_range, init. cbn [state]. destruct (1 <? _)%nat; lia.
      + exact H.
      + destruct (process_raise e s0 s1 err E) as [[-> _]|(_ & St & _)];
          [exact H0 | right; exact St].
    - apply L. unfold in_range, init. cbn [state]. destruct (1 <? _)%nat; lia. }
  split; [exact R|].
  intros d.
  destruct (process_cases e (store d s)) as [[St E]|[[St E]|[[St E]|[[St E]|[St E]]]]].
  - rewrite E. cbn. auto.
  - rewrite E. cbn. auto.
  - rewrite E. cbn. auto.
  - rewrite E. cbn. auto.
  - exfalso. unfold in_range in R. cbn [state store] in St. lia.
Qed.

(** *** Where the carriage stands during the sweep *)

Lemma net_relative_app (a b : list event) :
  fst (net_relative (a ++ b)) == fst (net_relative a) + fst (net_relative b) /\
  snd (net_relative (a ++ b)) == snd (net_relative a) + snd (net_relative b).
Proof.
  unfold net_relative, relative_moves. rewrite flat_map_app, fold_right_app.
  induction (flat_map _ a) as [|m l IH]; cbn [fold_right app fst snd].
  - split; ring.
  - destruct IH as [I1 I2]. rewrite I1, I2. split; ring.
Qed.

Lemma at_circle_point_continue (e : env) (s s' : ctl) :
  at_circle_point s -> process e s = Continue s' -> at_circle_point s'.
Proof.
  intros [P0 Pk] H.
  destruct (process_continue e s s' H)
    as [(A & B & _ & E)|[(A & B & _ & E)|[(A & B & _)|[(A & B & _)|(A & ->)]]]].
  - unfold process_first in E. destruct (tool_coordinates s); [|discriminate E].
    inversion E; subst. clear E. split; [cbn [state]; lia|].
    intros k Hk Sk. cbn [state] in Sk. assert (k = 1%nat) by lia. subst k.
    cbn [offsetX offsetY trace]. rewrite (P0 A).
    split; [reflexivity|]. split; vm_compute; reflexivity.
  - unfold process_sweep in E. destruct (tool_coordinates s); [|discriminate E].
    inversion E; subst. clear E. split; [cbn [state]; lia|].
    intros k Hk Sk. cbn [state] in Sk.
    assert (Ek : Z.to_nat (state s) = (k - 1)%nat) by lia.
    destruct (Pk (k - 1)%nat ltac:(lia) ltac:(lia)) as (O & N1 & N2).
    cbn [offsetX offsetY trace]. rewrite Ek.
    split; [symmetry; apply surjective_pairing|].
    destruct (net_relative_app (trace s)
                [EvGCode (G91_G1 (-(1) * offsetX s) (-(1) * offsetY s) 3000);
                 EvGCode (G91_G1 (fst (nth_pair (k - 1) calibrationCoordinates))
                                 (snd (nth_pair (k - 1) calibrationCoordinates)) 3000)])
      as [R1 R2].
    rewrite R1, R2, N1, N2.
    assert (Ox : offsetX s = fst (nth_pair (k - 1 - 1) calibrationCoordinates))
      by (rewrite <- O; reflexivity).
    assert (Oy : offsetY s = snd (nth_pair (k - 1 - 1) calibrationCoordinates))
      by (rewrite <- O; reflexivity).
    rewrite Ox, Oy. unfold net_relative. cbn [relative_moves flat_map app fold_right fst snd].
    split; ring.
  - split; [lia|]. intros k Hk Sk. lia.
  - split; [lia|]. intros k Hk Sk. lia.
  - split; assumption.
Qed.

(** Property X9.  In a run that starts without a transform, whenever
    the controller is in sweep state [k] (1 to 10) the relative moves
    sent so far add up to circle point [k - 1] of the calibration move
    set, which is also the offset stored for the way back: every sample
    of the sweep is taken at the start position plus one circle
    point. *)
Theorem sweep_position (e : env) (prev_mpp : option npfloat)
  (dets : list (option detection)) (k : nat) :
  let s := final_state (calibrateTool e [] prev_mpp dets) in
  (1 <= k <= 10)%nat -> state s = Z.of_nat k ->
  (offsetX s, offsetY s) = nth_pair (k - 1) calibrationCoordinates /\
  fst (net_relative (trace s)) == fst (nth_pair (k - 1) calibrationCoordinates) /\
  snd (net_relative (trace s)) == snd (nth_pair (k - 1) calibrationCoordinates).
Proof.
  intros s Hk Sk.
  assert (R : at_circle_point s).
  { unfold s, calibrateTool.
    assert (I : at_circle_point (init [] prev_mpp)).
    { split; [reflexivity|]. intros k0 Hk0 S0. cbn [init state Nat.ltb Nat.leb List.length] in S0. lia. }
    pose proof (loop_cases e at_circle_point (fun _ _ H => H) (fun _ H => H) (fun _ H => H)
                  (at_circle_point_continue e) dets (init [] prev_mpp) I) as L.
    destruct (calibrate_loop e (init [] prev_mpp) dets) as [r s1 u|err s1|s1];
      cbn [final_state].
    - destruct L as (s0 & _ & E).
      pose proof (process_return e s0 s1 r E) as (_ & St & _).
      split; [lia|]. intros; lia.
    - destruct L as [[_ H]|(s0 & H0 & E)]; [exact H|].
      destruct (process_raise e s0 s1 err E) as [[-> _]|(_ & St & _)]; [exact H0|].
      split; [lia|]. intros; lia.
    - exact L. }
  apply R; assumption.
Qed.

Lemma sweep_position_witness :
  let s := final_state (calibrateTool env0 [] None (firstn 10 sweep_dets)) in
  state s = 3%Z /\
  (offsetX s, offsetY s) = (476 # 1000, -(155 # 1000)) /\
  fst (net_relative (trace s)) == 476 # 1000 /\
  snd (net_relative (trace s)) == -(155 # 1000).
Proof.
  intros s.
  assert (St : state s = Z.of_nat 3) by (vm_compute; reflexivity).
  split; [exact St|].
  exact (sweep_position env0 None (firstn 10 sweep_dets) 3 ltac:(lia) St).
Defined.

(** *** Results are sent on return only *)

Lemma results_app (a b : list event) : results (a ++ b) = results a ++ results b.
Proof. unfold results. apply flat_map_app. Qed.

Lemma no_results_continue (e : env) (s s' : ctl) :
  results (trace s) = [] -> process e s = Continue s' -> results (trace s') = [].
Proof.
  intros P H.
  destruct (process_continue e s s' H)
    as [(A & B & _ & E)|[(A & B & _ & E)|[(A & B & E)|[(A & B & E)|(A & ->)]]]].
  - unfold process_first in E. destruct (tool_coordinates s); [|discriminate E].
    inversion E; subst. cbn [trace]. rewrite results_app, P. reflexivity.
  - unfold process_sweep in E. destruct (tool_coordinates s); [|discriminate E].
    inversion E; subst. cbn [trace]. rewrite results_app, P. reflexivity.
  - unfold process_solve in E.
    destruct (mpp s); [|discriminate E].
    destruct (tool_coordinates s); [|discriminate E].
    destruct (transform_input e _ _) as [input|]; [|discriminate E].
    destruct (least_square_mapping input). inversion E; subst.
    cbn [trace]. rewrite results_app, P. reflexivity.
  - unfold process_align in E.
    destruct (negb (has_shapeb 6 2 (transform_matrix s))); [discriminate E|].
    destruct (Qeq_bool _ 0 && Qeq_bool _ 0).
    + destruct (tool_coordinates s); [|discriminate E].
      destruct (mpp s); discriminate E.
    + inversion E; subst. cbn [trace]. rewrite results_app, P. reflexivity.
  - exact P.
Qed.

(** Property X10.  A call of [calibrateTool] sends a result record only
    when it returns, and then exactly one, as the last thing it sends:
    it follows ['M564 S1'], a relative move by (0, 0) and two
    ['G1 F13200'], and it carries the values that are returned.  A call
    that raises, or that is still waiting for a detection, has sent no
    record. *)
Theorem result_sent_on_return (e : env) (prev_matrix : matrix)
  (prev_mpp : option npfloat) (dets : list (option detection)) :
  match calibrateTool e prev_matrix prev_mpp dets with
  | Returned r s _ =>
      exists tr ox oy,
        results tr = [] /\ ox == 0 /\ oy == 0 /\
        trace s = tr ++ [EvGCode M564_S1; EvGCode (G91_G1 ox oy 1000);
                         EvGCode (G1_F 13200); EvGCode (G1_F 13200);
                         EvResult (result_record e (res_MPP r) (res_X r) (res_Y r))] /\
        results (trace s) = [result_record e (res_MPP r) (res_X r) (res_Y r)]
  | Raised _ s => results (trace s) = []
  | Waiting s => results (trace s) = []
  end.
Proof.
  unfold calibrateTool.
  pose proof (loop_cases e (fun s => results (trace s) = [])
                (fun _ _ H => H) (fun _ H => H) (fun _ H => H)
                (no_results_continue e) dets (init prev_matrix prev_mpp) eq_refl) as L.
  destruct (calibrate_loop e (init prev_matrix prev_mpp) dets) as [r s1 u|err s1|s1].
  - destruct L as (s0 & P & E).
    destruct (process_return e s0 s1 r E) as (_ & _ & _ & _ & _ & _ & _ & _ & ox & oy & Zx & Zy & T).
    exists (trace s0), ox, oy. repeat (split; [assumption|]).
    rewrite T, results_app, P. reflexivity.
  - destruct L as [[_ H]|(s0 & P & E)]; [exact H|].
    destruct (process_raise e s0 s1 err E) as [[-> _]|(_ & _ & _ & _ & _ & (ox & oy & T) & _)];
      [exact P|].
    rewrite T, results_app, P. reflexivity.
  - exact L.
Qed.

(** *** The move counter *)

Lemma count_M564_app (a b : list event) :
  count_M564 (a ++ b) = (count_M564 a + count_M564 b)%nat.
Proof. unfold count_M564. rewrite filter_app, length_app. reflexivity. Qed.

Lemma relative_moves_app (a b : list event) :
  relative_moves (a ++ b) = relative_moves a ++ relative_moves b.
Proof. unfold relative_moves. apply flat_map_app. Qed.

Lemma absolute_moves_app (a b : list event) :
  absolute_moves (a ++ b) = absolute_moves a ++ absolute_moves b.
Proof. unfold absolute_moves. apply flat_map_app. Qed.

Section LoopFinal.
Variable e : env.
Variable P : ctl -> Prop.
Hypothesis P_store : forall d s, P s -> P (store d s).
Hypothesis P_accumulate : forall s, P s -> P (accumulate s).
Hypothesis P_average : forall s, P s -> P (average s).
Hypothesis P_step : forall s, P s -> P (step_state (process e s)).

Lemma loop_final (dets : list (option detection)) (s : ctl) :
  P s -> P (final_state (calibrate_loop e s dets)).
Proof.
  intros H.
  assert (C : forall s0 s1, P s0 -> process e s0 = Continue s1 -> P s1).
  { intros s0 s1 H0 E. pose proof (P_step s0 H0) as S. rewrite E in S. exact S. }
  pose proof (loop_cases e P P_store P_accumulate P_average C dets s H) as L.
  destruct (calibrate_loop e s dets) as [r s1 u|err s1|s1]; cbn [final_state].
  - destruct L as (s0 & H0 & E). pose proof (P_step s0 H0) as S. rewrite E in S. exact S.
  - destruct L as [[_ H1]|(s0 & H0 & E)]; [exact H1|].
    pose proof (P_step s0 H0) as S. rewrite E in S. exact S.
  - exact L.
Qed.

End LoopFinal.

Ltac open_process e s :=
  let St := fresh "St" in
  let E := fresh "E" in
  destruct (process_cases e s) as [[St E]|[[St E]|[[St E]|[[St E]|[St E]]]]];
  rewrite E; clear E;
  [ unfold process_first; destruct (tool_coordinates s)
  | unfold process_sweep; destruct (tool_coordinates s)
  | unfold process_solve; destruct (mpp s) eqn:?Em;
    [ destruct (tool_coordinates s);
      [ destruct (transform_input e _ _) as [?input|];
        [ destruct (least_square_mapping input) eqn:?EL | ] | ] | ]
  | unfold process_align;
    destruct (has_shapeb 6 2 (transform_matrix s)) eqn:?Hs; cbn [negb];
    [ destruct (Qeq_bool _ 0 && Qeq_bool _ 0) eqn:?Hz;
      [ destruct (tool_coordinates s); [ destruct (mpp s) eqn:?Em | ] | ] | ]
  | ];
  cbn [step_state].

Lemma alignment_moves_app (a b : list event) :
  alignment_moves (a ++ b) = alignment_moves a ++ alignment_moves b.
Proof. unfold alignment_moves. rewrite relative_moves_app, filter_app. reflexivity. Qed.

Lemma moves_counted_step (e : env) (s : ctl) :
  moves_counted s -> moves_counted (step_state (process e s)).
Proof.
  unfold moves_counted. intros [M C].
  open_process e s; cbn [calibration_moves trace emit];
    rewrite ?count_M564_app, ?alignment_moves_app, ?length_app;
    cbn [count_M564 alignment_moves relative_moves filter flat_map app List.length snd Z.eqb
         Pos.eqb];
    split; lia.
Qed.

(** Property X11.  The move counter of [calibrateTool] equals the number
    of ['M564 S1'] commands sent, and each of them goes with one
    relative move at feed rate 1000; the moves of the sweep are not
    counted. *)
Theorem calibration_moves_counts (e : env) (prev_matrix : matrix)
  (prev_mpp : option npfloat) (dets : list (option detection)) :
  let s := final_state (calibrateTool e prev_matrix prev_mpp dets) in
  calibration_moves s = Z.of_nat (count_M564 (trace s)) /\
  count_M564 (trace s) = List.length (alignment_moves (trace s)).
Proof.
  intros s. unfold s, calibrateTool.
  apply (loop_final e moves_counted (fun _ _ H => H) (fun _ H => H) (fun _ H => H)
           (moves_counted_step e)).
  split; reflexivity.
Qed.

(** *** Errors of a fresh run *)

Lemma consistent_step (e : env) (s : ctl) :
  consistent s -> consistent (step_state (process e s)).
Proof.
  intros C.
  open_process e s; try exact C; unfold consistent in *;
    cbn [state space_coordinates camera_coordinates mpp transform_matrix emit].
  - right. left. split; [lia|]. split; [reflexivity|]. intros; lia.
  - right. left. destruct C as [C|[(R & L & M)|(R & _)]]; try lia.
    split; [lia|]. split; [rewrite !length_app, L; reflexivity|].
    intros _. destruct (state s =? 1)%Z eqn:E1; [discriminate|].
    apply M. apply Z.eqb_neq in E1. lia.
  - right. right. split; [reflexivity|]. split; [|discriminate].
    pose proof (least_square_mapping_shape input) as Sh.
    rewrite EL in Sh. exact Sh.
  - right. right. destruct C as [C|[(R & _)|(_ & Sh & M)]]; try lia.
    split; [assumption|]. split; [assumption|]. discriminate.
  - exfalso. destruct C as [C|[(R & _)|(_ & Sh & M)]]; try lia. congruence.
Qed.

(** Property X12.  A run of [calibrateTool] that starts without a
    transform can fail only with a TypeError (no detection or no
    machine coordinates): the lists it zips have equal lengths, mpp is
    set before it is read, and the transform it multiplies with is the
    6 x 2 array of the solver. *)
Theorem fresh_run_raises_only_type_error (e : env) (prev_mpp : option npfloat)
  (dets : list (option detection)) (err : error) (s : ctl) :
  calibrateTool e [] prev_mpp dets = Raised err s -> err = TypeError.
Proof.
  unfold calibrateTool. intros H.
  assert (C : forall s0 s1, consistent s0 -> process e s0 = Continue s1 -> consistent s1).
  { intros s0 s1 H0 E. pose proof (consistent_step e s0 H0) as S. rewrite E in S. exact S. }
  pose proof (loop_cases e consistent (fun _ _ H => H) (fun _ H => H) (fun _ H => H)
                C dets (init [] prev_mpp) (or_introl eq_refl)) as L.
  rewrite H in L. destruct L as [[-> _]|(s0 & C0 & E)]; [reflexivity|].
  destruct (process_raise e s0 s err E) as [[_ D]|(St & _ & _ & _ & _ & _ & D)].
  - destruct D as [T|[(_ & St & M)|[(_ & St & Ln)|(_ & St & Sh)]]]; [exact T | | |];
      exfalso; destruct C0 as [C0|[(R & L & M')|(R & Sh' & M')]]; try lia.
    + apply M'; [lia | exact M].
    + apply has_shapeb_true in Sh'. congruence.
  - destruct D as [[T _]|[_ M]]; [exact T|].
    exfalso. destruct C0 as [C0|[(R & L & M')|(R & Sh' & M')]]; try lia.
    apply M'. exact M.
Qed.

Lemma fresh_run_raises_only_type_error_witness :
  exists s, calibrateTool env0 [] None (firstn 3 sweep_dets ++ [None]) = Raised TypeError s.
Proof.
  destruct (calibrateTool env0 [] None (firstn 3 sweep_dets ++ [None])) as [r s u|err s|s] eqn:E;
    [vm_compute in E; discriminate E | | vm_compute in E; discriminate E].
  exists s. rewrite (fresh_run_raises_only_type_error env0 None _ err s E). reflexivity.
Defined.

(** *** Calls that reuse the transform *)

Lemma reusing_step (e : env) (pm : matrix) (pp : option npfloat) (s : ctl) :
  reusing pm pp s -> reusing pm pp (step_state (process e s)).
Proof.
  intros R. pose proof R as (St0 & Tm & Mp & Ab & Re).
  open_process e s; try exact R; try lia; unfold reusing;
    cbn [state transform_matrix mpp trace emit];
    rewrite ?absolute_moves_app, ?relative_moves_app, ?Ab;
    cbn [absolute_moves relative_moves flat_map app];
    (split; [assumption|]); (split; [assumption|]);
    (split; [first [assumption | congruence]|]); (split; [reflexivity|]);
    rewrite ?app_nil_r;
    try (apply Forall_app; split; [exact Re|]); repeat constructor.
Qed.

Lemma reusing_init (pm : matrix) (pp : option npfloat) :
  (1 < List.length pm)%nat -> reusing pm pp (init pm pp).
Proof.
  intros L. unfold reusing, init. cbn [state transform_matrix mpp trace].
  apply Nat.ltb_lt in L. rewrite L. repeat split. constructor.
Qed.

Lemma reusing_run (e : env) (pm : matrix) (pp : option npfloat)
  (dets : list (option detection)) :
  (1 < List.length pm)%nat ->
  reusing pm pp (final_state (calibrateTool e pm pp dets)).
Proof.
  intros L. unfold calibrateTool.
  apply (loop_final e (reusing pm pp) (fun _ _ H => H) (fun _ H => H) (fun _ H => H)
           (reusing_step e pm pp)).
  apply reusing_init. exact L.
Qed.

(** What a call returns is what it leaves in the thread. *)
Lemma returned_values (e : env) (pm : matrix) (pp : option npfloat)
  (dets : list (option detection)) (r : tool_result) (s : ctl)
  (rest : list (option detection)) :
  calibrateTool e pm pp dets = Returned r s rest ->
  transform_matrix s = res_matrix r /\ mpp s = Some (res_MPP r) /\
  has_shape 6 2 (res_matrix r).
Proof.
  unfold calibrateTool. intros H.
  pose proof (loop_cases e (fun _ => True) (fun _ _ H => H) (fun _ H => H) (fun _ H => H)
                (fun _ _ _ _ => I) dets (init pm pp) I) as L.
  rewrite H in L. destruct L as (s0 & _ & E).
  destruct (process_return e s0 s r E) as (_ & _ & Sh & Tm & Mp & _ & Rm & Rp & _).
  rewrite Tm, Mp, Rm. auto.
Qed.

(** Property X13.  A call of [calibrateTool] that finds a transform
    kept from an earlier call (more than one row) does no sweep: it
    sends no absolute move and only relative moves at feed rate 1000,
    it leaves mpp as it was, and when it returns, the matrix and the
    mpp it returns are the kept ones, the matrix being a 6 x 2
    array. *)
Theorem kept_matrix_run (e : env) (prev_matrix : matrix) (prev_mpp : option npfloat)
  (dets : list (option detection)) :
  (1 < List.length prev_matrix)%nat ->
  let run := calibrateTool e prev_matrix prev_mpp dets in
  mpp (final_state run) = prev_mpp /\
  absolute_moves (trace (final_state run)) = [] /\
  Forall (fun m => snd m = 1000%Z) (relative_moves (trace (final_state run))) /\
  (forall r s rest, run = Returned r s rest ->
     res_matrix r = prev_matrix /\ prev_mpp = Some (res_MPP r) /\
     has_shape 6 2 prev_matrix).
Proof.
  intros L run.
  assert (I : reusing prev_matrix prev_mpp (init prev_matrix prev_mpp)).
  { unfold reusing, init. cbn [state transform_matrix mpp trace].
    apply Nat.ltb_lt in L. rewrite L. repeat split. constructor. }
  pose proof (loop_final e (reusing prev_matrix prev_mpp) (fun _ _ H => H) (fun _ H => H)
                (fun _ H => H) (reusing_step e prev_matrix prev_mpp) dets _ I)
    as (_ & _ & Mp & Ab & Re).
  split; [exact Mp|]. split; [exact Ab|]. split; [exact Re|].
  intros r s rest E.
  assert (C : forall s0 s1, reusing prev_matrix prev_mpp s0 -> process e s0 = Continue s1 ->
                            reusing prev_matrix prev_mpp s1).
  { intros s0 s1 H0 E0. pose proof (reusing_step e _ _ s0 H0) as S. rewrite E0 in S. exact S. }
  pose proof (loop_cases e (reusing prev_matrix prev_mpp) (fun _ _ H => H) (fun _ H => H)
                (fun _ H => H) C dets _ I) as Lc.
  unfold run, calibrateTool in E. rewrite E in Lc.
  destruct Lc as (s0 & (_ & Tm & Mp0 & _) & E0).
  destruct (process_return e s0 s r E0) as (_ & _ & Sh & _ & _ & _ & Rm & Rp & _).
  rewrite Tm in *. rewrite Mp0 in Rp. auto.
Qed.

Lemma kept_matrix_run_witness :
  (1 < List.length T0)%nat /\
  exists r s rest,
    calibrateTool env0 T0 (Some (Finite (1 # 50))) centre_dets = Returned r s rest /\
    res_matrix r = T0 /\ res_MPP r = Finite (1 # 50).
Proof.
  assert (L : (1 < List.length T0)%nat) by (cbn; lia).
  split; [exact L|].
  destruct (calibrateTool env0 T0 (Some (Finite (1 # 50))) centre_dets)
    as [r s rest|err s|s] eqn:E;
    [ | vm_compute in E; discriminate E | vm_compute in E; discriminate E].
  exists r, s, rest. split; [reflexivity|].
  destruct (kept_matrix_run env0 T0 (Some (Finite (1 # 50))) centre_dets L)
    as (_ & _ & _ & K).
  destruct (K r s rest E) as (A & B & _).
  split; [exact A|]. inversion B. reflexivity.
Defined.

(** *** Detection switched off during a call *)

Lemma detection_off_bounded (e : env) (n : nat) :
  forall (pre : list (option detection)) (s s' : ctl) (rest : list (option detection)),
  (List.length pre <= n)%nat ->
  calibrate_loop e s pre = Waiting s' ->
  calibrate_loop e s (pre ++ None :: rest) = Raised TypeError s'.
Proof.
  induction n as [|n IH]; intros pre s s' rest L H.
  - destruct pre; [|cbn in L; lia]. cbn in H. inversion H; subst. reflexivity.
  - destruct pre as [|[d|] pre']; [cbn in H; inversion H; subst; reflexivity| |discriminate H].
    cbn [calibrate_loop app] in *.
    destruct (position_iterations <=? detect_count (accumulate (store d s)))%Z.
    + destruct pre' as [|[d2|] pre'']; [inversion H; subst; reflexivity| |discriminate H].
      cbn [app].
      destruct (process e (store d2 (average (accumulate (store d s)))))
        as [s3|r s3|err s3]; [|discriminate H|discriminate H].
      apply IH; [cbn in L; lia | exact H].
    + apply IH; [cbn in L; lia | exact H].
Qed.

(** Property X14.  When [analyzeFrame] answers [None] (detection was
    switched off) while [calibrateTool] waits for a detection, the call
    fails with a TypeError in the state it had reached: nothing more is
    sent to the printer. *)
Theorem detection_off_raises (e : env) (s s' : ctl)
  (pre rest : list (option detection)) :
  calibrate_loop e s pre = Waiting s' ->
  calibrate_loop e s (pre ++ None :: rest) = Raised TypeError s'.
Proof. apply (detection_off_bounded e (List.length pre)). lia. Qed.

Lemma detection_off_raises_witness :
  calibrateTool env0 [] None (firstn 10 sweep_dets ++ [None]) =
  Raised TypeError (final_state (calibrateTool env0 [] None (firstn 10 sweep_dets))).
Proof.
  unfold calibrateTool.
  destruct (calibrate_loop env0 (init [] None) (firstn 10 sweep_dets)) as [r s u|err s|s] eqn:E;
    [vm_compute in E; discriminate E | vm_compute in E; discriminate E |].
  cbn [final_state]. apply (detection_off_raises env0 _ s _ [] E).
Defined.

End LoopFacts.

(** ** The detection gate outside the alignment mode *)

Module ModeFacts.
Import Np Detect Scenario Scenario3.

Lemma analyze_loop_modes (frames : list frame) :
  forall (rd n : Z),
  messages (analyze_loop false rd n frames) = messages (analyze_loop true rd n frames) /\
  snd (analyze_loop false rd n frames) = snd (analyze_loop true rd n frames) /\
  outcome (analyze_loop false rd n frames) =
    match outcome (analyze_loop true rd n frames) with
    | AfFound _ => AfUnbound
    | o => o
    end.
Proof.
  unfold messages, outcome.
  induction frames as [|f rest IH]; intros rd n; [repeat split|].
  cbn [analyze_loop].
  destruct (negb (f_detection_on f)); [repeat split|].
  destruct (negb (f_ret f)); [apply IH|].
  destruct (25 <? n)%Z.
  { specialize (IH rd 0%Z).
    destruct (analyze_loop false rd 0 rest) as [[o1 m1] r1].
    destruct (analyze_loop true rd 0 rest) as [[o2 m2] r2].
    cbn [fst snd] in *. destruct IH as (A & B & C). rewrite A, B, C. repeat split. }
  destruct (f_keypoints f) as [|k [|k2 ks]].
  - destruct (25 <? f_clock f - rd)%Z; [|apply IH].
    specialize (IH rd (n + 1)%Z).
    destruct (analyze_loop false rd (n + 1) rest) as [[o1 m1] r1].
    destruct (analyze_loop true rd (n + 1) rest) as [[o2 m2] r2].
    cbn [fst snd] in *. destruct IH as (A & B & C). rewrite A, B, C. repeat split.
  - repeat split.
  - destruct (25 <? f_clock f - rd)%Z; [|apply IH].
    specialize (IH rd n).
    destruct (analyze_loop false rd n rest) as [[o1 m1] r1].
    destruct (analyze_loop true rd n rest) as [[o2 m2] r2].
    cbn [fst snd] in *. destruct IH as (A & B & C). rewrite A, B, C. repeat split.
Qed.

(** Property X15.  With the alignment flag off (detect-only mode)
    [analyzeFrame] reads the same frames and sends the same messages
    as with the flag on, but it never returns a detection: where the
    alignment mode returns one, the [return] statement reads
    [toolCoordinates], which was never assigned, and raises
    UnboundLocalError. *)
Theorem detect_only_never_returns (rd n : Z) (frames : list frame) :
  messages (analyze_loop false rd n frames) = messages (analyze_loop true rd n frames) /\
  snd (analyze_loop false rd n frames) = snd (analyze_loop true rd n frames) /\
  outcome (analyze_loop false rd n frames) =
    match outcome (analyze_loop true rd n frames) with
    | AfFound _ => AfUnbound
    | o => o
    end /\
  (forall d : detection, outcome (analyze_loop false rd n frames) <> AfFound d) /\
  (outcome (analyze_loop false rd n frames) = AfUnbound <->
   exists d, outcome (analyze_loop true rd n frames) = AfFound d).
Proof.
  destruct (analyze_loop_modes frames rd n) as (A & B & C).
  split; [exact A|]. split; [exact B|]. split; [exact C|]. split.
  - intros d. rewrite C. destruct (outcome (analyze_loop true rd n frames)); discriminate.
  - rewrite C. split.
    + intros H. destruct (outcome (analyze_loop true rd n frames)) as [d| | |m] eqn:E;
        try discriminate H.
      * exists d. reflexivity.
      * exfalso. clear - E. revert n E. unfold outcome.
        induction frames as [|f rest IH]; intros n E; [discriminate E|].
        cbn [analyze_loop] in E.
        destruct (negb (f_detection_on f)); [discriminate E|].
        destruct (negb (f_ret f)); [apply (IH n E)|].
        destruct (25 <? n)%Z.
        { destruct (analyze_loop true rd 0 rest) as [[o m] r] eqn:E0.
          apply (IH 0%Z). rewrite E0. exact E. }
        destruct (f_keypoints f) as [|k [|k2 ks]].
        -- destruct (25 <? f_clock f - rd)%Z; [|apply (IH n E)].
           destruct (analyze_loop true rd (n + 1) rest) as [[o m] r] eqn:E0.
           apply (IH (n + 1)%Z). rewrite E0. exact E.
        -- discriminate E.
        -- destruct (25 <? f_clock f - rd)%Z; [|apply (IH n E)].
           destruct (analyze_loop true rd n rest) as [[o m] r] eqn:E0.
           apply (IH n). rewrite E0. exact E.
    + intros [d ->]. reflexivity.
Qed.

Lemma crowded_no_error (a : bool) (rd : Z) (frames : list frame) :
  forall n : Z,
  (n <= 25)%Z -> Forall (fun f => f_keypoints f <> []) frames ->
  ~ In MsgDetectError (messages (analyze_loop a rd n frames)) /\
  ~ In MsgNoCircles (messages (analyze_loop a rd n frames)).
Proof.
  unfold messages.
  induction frames as [|f rest IH]; intros n Hn HF; [cbn; tauto|].
  inversion HF as [|? ? Hk HF']; subst.
  cbn [analyze_loop].
  destruct (negb (f_detection_on f)); [cbn; tauto|].
  destruct (negb (f_ret f)); [apply IH; assumption|].
  replace (25 <? n)%Z with false by (symmetry; apply Z.ltb_ge; lia).
  destruct (f_keypoints f) as [|k [|k2 ks]]; [contradiction| |].
  - cbn. split; intros [H|[]]; discriminate H.
  - destruct (25 <? f_clock f - rd)%Z; [|apply IH; assumption].
    specialize (IH n Hn HF').
    destruct (analyze_loop a rd n rest) as [[o m] r]. cbn [fst snd] in *.
    destruct IH as [I1 I2]. split; intros [H|H]; try discriminate H; auto.
Qed.

(** Property X16.  Frames with too many circles are never counted as
    failures: as long as no frame without a circle is seen,
    [analyzeFrame] sends neither 'No circles found.' nor
    'Error in detecting nozzle.', however many frames it reads. *)
Theorem crowded_frames_give_no_error (a : bool) (rd : Z) (frames : list frame) :
  Forall (fun f => f_keypoints f <> []) frames ->
  ~ In MsgDetectError (messages (analyzeFrame a rd frames)) /\
  ~ In MsgNoCircles (messages (analyzeFrame a rd frames)).
Proof. intros H. apply crowded_no_error; [lia | exact H]. Qed.

Lemma crowded_frames_give_no_error_witness :
  Forall (fun f => f_keypoints f <> []) crowd_40 /\
  ~ In MsgDetectError (messages (analyzeFrame true 0 crowd_40)) /\
  List.length (messages (analyzeFrame true 0 crowd_40)) = 40%nat.
Proof.
  assert (H : Forall (fun f => f_keypoints f <> []) crowd_40).
  { unfold crowd_40. apply Forall_forall. intros f Hf.
    apply in_map_iff in Hf. destruct Hf as (i & <- & _). discriminate. }
  split; [exact H|]. split.
  - apply (crowded_frames_give_no_error true 0 crowd_40 H).
  - vm_compute. reflexivity.
Defined.

End ModeFacts.

(** ** The printer address *)

Module UrlFacts.
Import Url.
Local Open Scope string_scope.

Lemma mem_single (x y : string) : mem x [y] = true <-> x = y.
Proof.
  unfold mem. cbn [existsb]. rewrite orb_false_r. apply String.eqb_eq.
Qed.

Lemma lower_length (s : string) : String.length (lower s) = String.length s.
Proof. induction s as [|c t IH]; cbn; [reflexivity | rewrite IH; reflexivity]. Qed.

(** Property X17.  [cleanPrinterURL] never answers with error code 3:
    an address whose scheme is https is turned down already by the
    first test, with code 1 and the message about an invalid scheme;
    the branch that holds the message about https cannot be
    reached. *)
Theorem https_is_reported_as_invalid_scheme (scheme netlocation : string) :
  errCode (cleanPrinterURL scheme netlocation) <> 3%Z /\
  (lower scheme = "https" ->
   cleanPrinterURL scheme netlocation =
   (1%Z, "Invalid scheme. Please only use http connections.", "http://localhost")).
Proof.
  unfold cleanPrinterURL, errCode. split.
  - destruct ((String.length scheme <? 4)%nat || negb (mem (lower scheme) ["http"])) eqn:E1;
      [cbn; discriminate|].
    destruct (String.length netlocation <? 1)%nat; [cbn; discriminate|].
    destruct (mem (lower scheme) ["https"]) eqn:E3; [|cbn; discriminate].
    exfalso. apply orb_false_iff in E1. destruct E1 as [_ E1].
    apply negb_false_iff in E1. apply mem_single in E1. apply mem_single in E3.
    rewrite E1 in E3. discriminate E3.
  - intros H. rewrite H.
    replace (mem "https" ["http"]) with false by reflexivity.
    rewrite orb_true_r. reflexivity.
Qed.

(** Property X18.  [cleanPrinterURL] accepts an address exactly when
    its scheme, in lower case, is http and its network location is not
    empty; the address it returns is then the scheme and the network
    location joined by [://] (path, query and fragment are dropped).
    In every other case it returns 'http://localhost' with a message
    that is not empty. *)
Theorem clean_url_accepts_http_only (scheme netlocation : string) :
  (errCode (cleanPrinterURL scheme netlocation) = 0%Z <->
   lower scheme = "http" /\ netlocation <> "") /\
  (errCode (cleanPrinterURL scheme netlocation) = 0%Z ->
   cleanPrinterURL scheme netlocation = (0%Z, "", scheme ++ "://" ++ netlocation)) /\
  (errCode (cleanPrinterURL scheme netlocation) <> 0%Z ->
   printerURL (cleanPrinterURL scheme netlocation) = "http://localhost" /\
   errMsg (cleanPrinterURL scheme netlocation) <> "").
Proof.
  unfold cleanPrinterURL, errCode, printerURL, errMsg.
  destruct (mem (lower scheme) ["http"]) eqn:E1.
  - apply mem_single in E1.
    assert (L : (String.length scheme <? 4)%nat = false).
    { apply Nat.ltb_ge. rewrite <- lower_length, E1. cbn. lia. }
    rewrite L. cbn [orb negb].
    destruct netlocation as [|c t].
    + cbn. split; [|split].
      * split; [discriminate | intros [_ H]; contradiction].
      * discriminate.
      * intros _. split; [reflexivity | discriminate].
    + cbn [String.length Nat.ltb Nat.leb].
      rewrite E1. replace (mem "http" ["https"]) with false by reflexivity.
      cbn [fst snd]. split; [|split].
      * split; [intros _; split; [reflexivity | discriminate] | reflexivity].
      * reflexivity.
      * intros H. contradiction.
  - rewrite orb_true_r. cbn [fst snd]. split; [|split].
    + split; [discriminate|]. intros [H _]. rewrite H in E1. discriminate E1.
    + discriminate.
    + intros _. split; [reflexivity | discriminate].
Qed.

End UrlFacts.

(** ** The results read back *)

Module DataFacts.
Import Np Fmt Calib Results NpFacts FmtFacts RecordFacts Scenario Scenario4.
Local Open Scope string_scope.

(** The records that [calibrateTool] sends can be read back. *)
Lemma result_record_readable (e : env) (m : npfloat) (x y : Q) :
  readable (result_record e m x y).
Proof.
  destruct (record_fields e m x y) as (_ & T & C & _ & X & Y).
  unfold get_int, get_float in *. unfold readable, read_int, read_float.
  destruct (lookup "tool" _); [|discriminate T]. rewrite T.
  destruct (lookup "cycle" _); [|discriminate C]. rewrite C.
  destruct (lookup "X" _); [|discriminate X]. rewrite X.
  destruct (lookup "Y" _); [|discriminate Y]. rewrite Y.
  repeat eexists.
Qed.

Lemma readable_tool (line : list (string * string)) :
  readable line -> read_int "tool" line = Ok (tool_of line).
Proof.
  intros (t & c & x & y & T & _). unfold tool_of. rewrite T. reflexivity.
Qed.

Lemma mapM_ok {A B : Type} (f : A -> result B) (g : A -> B) (l : list A) :
  Forall (fun a => f a = Ok (g a)) l -> mapM f l = Ok (map g l).
Proof.
  induction 1 as [|a l H _ IH]; [reflexivity|].
  cbn [mapM map]. rewrite H. cbn [bind]. rewrite IH. reflexivity.
Qed.

Lemma mapM_length {A B : Type} (f : A -> result B) (l : list A) (r : list B) :
  mapM f l = Ok r -> List.length r = List.length l.
Proof.
  revert r. induction l as [|a l IH]; intros r H; cbn in H.
  - inversion H. reflexivity.
  - destruct (f a); [|discriminate H]. cbn [bind] in H.
    destruct (mapM f l) as [bs|]; [|discriminate H]. cbn [bind] in H.
    inversion H. cbn. rewrite (IH bs eq_refl). reflexivity.
Qed.

Lemma mapM_nth {A B : Type} (f : A -> result B) (l : list A) (r : list B) :
  mapM f l = Ok r ->
  forall i b, nth_error r i = Some b -> exists a, nth_error l i = Some a /\ f a = Ok b.
Proof.
  revert r. induction l as [|a l IH]; intros r H i b Hi; cbn in H.
  - inversion H; subst. destruct i; discriminate Hi.
  - destruct (f a) as [b0|] eqn:E; [|discriminate H]. cbn [bind] in H.
    destruct (mapM f l) as [bs|]; [|discriminate H]. cbn [bind] in H.
    inversion H; subst. destruct i as [|i]; cbn in Hi |- *.
    + inversion Hi; subst. exists a. auto.
    + apply (IH bs eq_refl i b Hi).
Qed.

Lemma mapM_fail {A B : Type} (f : A -> result B) (l : list A) (a : A) (fl : failure) :
  In a l -> f a = Err fl ->
  (forall a', In a' l -> exists b, f a' = Ok b \/ f a' = Err fl) ->
  mapM f l = Err fl.
Proof.
  induction l as [|a0 l IH]; intros Hin Hf Hall; [contradiction|].
  cbn [mapM]. destruct (Hall a0 (or_introl eq_refl)) as (b & [E|E]); rewrite E; cbn [bind];
    [|reflexivity].
  destruct Hin as [->|Hin]; [congruence|].
  rewrite (IH Hin Hf); [reflexivity|]. intros a' H'. apply Hall. right. exact H'.
Qed.

(** *** Columns *)

Lemma column_readable (key : string) (raw : list (list (string * string))) (i : Z)
  (val : list (string * string) -> Q) :
  Forall (fun line => readable line /\ read_float key line = Ok (Finite (val line))) raw ->
  column key raw i =
  Ok (map (fun line => Finite (val line)) (filter (fun line => (tool_of line =? i)%Z) raw)).
Proof.
  induction 1 as [|line raw [R V] _ IH]; [reflexivity|].
  cbn [column filter]. rewrite (readable_tool line R). cbn [bind].
  destruct (tool_of line =? i)%Z.
  - rewrite V. cbn [bind]. rewrite IH. reflexivity.
  - exact IH.
Qed.

Lemma readable_X (raw : list (list (string * string))) :
  Forall readable raw ->
  Forall (fun line => readable line /\ read_float "X" line = Ok (Finite (x_of line))) raw.
Proof.
  intros H. eapply Forall_impl; [|exact H]. intros line R. split; [exact R|].
  destruct R as (t & c & x & y & _ & _ & X & _). unfold x_of. rewrite X. reflexivity.
Qed.

Lemma readable_Y (raw : list (list (string * string))) :
  Forall readable raw ->
  Forall (fun line => readable line /\ read_float "Y" line = Ok (Finite (y_of line))) raw.
Proof.
  intros H. eapply Forall_impl; [|exact H]. intros line R. split; [exact R|].
  destruct R as (t & c & x & y & _ & _ & _ & Y). unfold y_of. rewrite Y. reflexivity.
Qed.

Lemma tool_data_readable (raw : list (list (string * string))) (i : Z) :
  Forall readable raw ->
  ((forall line, In line raw -> tool_of line <> i) -> tool_data raw i = Err ValueError) /\
  ((exists line, In line raw /\ tool_of line = i) -> exists d, tool_data raw i = Ok d).
Proof.
  intros H. unfold tool_data.
  rewrite (column_readable "X" raw i x_of (readable_X raw H)).
  rewrite (column_readable "Y" raw i y_of (readable_Y raw H)).
  cbn [bind].
  destruct (filter (fun line => (tool_of line =? i)%Z) raw) as [|l0 ls] eqn:F.
  - split; [reflexivity|]. intros (line & Hin & Ht). exfalso.
    assert (In line (filter (fun line => (tool_of line =? i)%Z) raw)).
    { apply filter_In. split; [exact Hin | apply Z.eqb_eq; exact Ht]. }
    rewrite F in H0. contradiction.
  - split.
    + intros Hno. exfalso.
      assert (Hin : In l0 (filter (fun line => (tool_of line =? i)%Z) raw))
        by (rewrite F; left; reflexivity).
      apply filter_In in Hin. destruct Hin as [Hin Ht]. apply Z.eqb_eq in Ht.
      apply (Hno l0 Hin Ht).
    + intros _. cbn [map]. eexists. reflexivity.
Qed.

Lemma tool_data_cases (raw : list (list (string * string))) (i : Z) :
  Forall readable raw ->
  (exists d, tool_data raw i = Ok d) \/ tool_data raw i = Err ValueError.
Proof.
  intros H. destruct (tool_data_readable raw i H) as [A B].
  destruct (filter (fun line => (tool_of line =? i)%Z) raw) as [|l0 ls] eqn:F.
  - right. apply A. intros line Hin Ht.
    assert (In line (filter (fun line => (tool_of line =? i)%Z) raw)).
    { apply filter_In. split; [exact Hin | apply Z.eqb_eq; exact Ht]. }
    rewrite F in H0. contradiction.
  - left. apply B. exists l0.
    assert (Hin : In l0 (filter (fun line => (tool_of line =? i)%Z) raw))
      by (rewrite F; left; reflexivity).
    apply filter_In in Hin. destruct Hin as [Hin Ht]. apply Z.eqb_eq in Ht. auto.
Qed.

(** *** The highest tool number *)

Lemma fold_max_ge (l : list Z) (x : Z) :
  (x <= fold_left Z.max l x)%Z /\ Forall (fun y => (y <= fold_left Z.max l x)%Z) l.
Proof.
  revert x. induction l as [|a l IH]; intros x; cbn [fold_left].
  - split; [lia | constructor].
  - destruct (IH (Z.max x a)) as [I1 I2]. split; [lia|].
    constructor; [lia | exact I2].
Qed.

Lemma fold_max_in (l : list Z) (x : Z) :
  fold_left Z.max l x = x \/ In (fold_left Z.max l x) l.
Proof.
  revert x. induction l as [|a l IH]; intros x; cbn [fold_left]; [auto|].
  destruct (IH (Z.max x a)) as [E|E]; [|right; right; exact E].
  rewrite E. destruct (Z.max_spec x a) as [[_ ->]|[_ ->]]; [right; left; reflexivity | auto].
Qed.

Lemma range_In (n i : Z) : In i (range n) <-> (0 <= i < n)%Z.
Proof.
  unfold range. rewrite in_map_iff. split.
  - intros (k & <- & Hk). apply in_seq in Hk. lia.
  - intros H. exists (Z.to_nat i). split; [lia|]. apply in_seq. lia.
Qed.

Lemma mapM_all_ok {A B : Type} (f : A -> result B) (l : list A) :
  (forall a, In a l -> exists b, f a = Ok b) -> exists r, mapM f l = Ok r.
Proof.
  induction l as [|a l IH]; intros H; [eexists; reflexivity|].
  destruct (H a (or_introl eq_refl)) as (b & E).
  destruct IH as (r & Er); [intros a' H'; apply H; right; exact H'|].
  exists (b :: r). cbn [mapM]. rewrite E. cbn [bind]. rewrite Er. reflexivity.
Qed.

Lemma run_results_readable : Forall readable run_results.
Proof. repeat constructor; apply result_record_readable. Qed.

Lemma tool_1_results_readable : Forall readable tool_1_results.
Proof.
  assert (E : tool_1_results = [nth 1 run_results []; nth 3 run_results []])
    by (vm_compute; reflexivity).
  rewrite E. repeat constructor; apply result_record_readable.
Qed.

Lemma fold_max_attained (f : list (string * string) -> Z) (l0 : list (string * string))
  (raw : list (list (string * string))) :
  exists line, In line (l0 :: raw) /\ f line = fold_left Z.max (map f raw) (f l0).
Proof.
  destruct (fold_max_in (map f raw) (f l0)) as [E|E].
  - exists l0. split; [left; reflexivity | symmetry; exact E].
  - apply in_map_iff in E. destruct E as (lm & E1 & E2).
    exists lm. split; [right; exact E2 | exact E1].
Qed.

(** Property X19.  On records that can be read, as the ones sent by
    [calibrateTool] can, [parseData] fails exactly when the list is
    empty or when a tool number between 0 and the highest one in the
    list has no record: [np.max] is then applied to an empty list and
    raises ValueError.  In every other case it returns the highest tool
    number plus one, the highest cycle number and one pair of columns
    per tool. *)
Theorem parseData_fails_on_missing_tool (rawData : list (list (string * string))) :
  Forall readable rawData ->
  (rawData = [] -> parseData rawData = Err ValueError) /\
  (forall i line0,
     (0 <= i)%Z -> In line0 rawData -> (i <= tool_of line0)%Z ->
     (forall line, In line rawData -> tool_of line <> i) ->
     parseData rawData = Err ValueError) /\
  (rawData <> [] ->
   (forall i line0, (0 <= i)%Z -> In line0 rawData -> (i <= tool_of line0)%Z ->
      exists line, In line rawData /\ tool_of line = i) ->
   exists nt cyc data,
     parseData rawData = Ok (nt, cyc, data) /\
     List.length data = Z.to_nat nt /\
     (exists line, In line rawData /\ nt = (tool_of line + 1)%Z) /\
     (forall line, In line rawData -> (tool_of line + 1 <= nt)%Z) /\
     (exists line, In line rawData /\ cyc = cycle_of line) /\
     (forall line, In line rawData -> (cycle_of line <= cyc)%Z)).
Proof.
  intros H.
  assert (HT : mapM (read_int "tool") rawData = Ok (map tool_of rawData)).
  { apply mapM_ok. eapply Forall_impl; [|exact H]. intros line R. apply readable_tool, R. }
  assert (HC : mapM (read_int "cycle") rawData = Ok (map cycle_of rawData)).
  { apply mapM_ok. eapply Forall_impl; [|exact H]. intros line (t & c & x & y & _ & C & _).
    unfold cycle_of. rewrite C. reflexivity. }
  split; [intros ->; reflexivity|].
  destruct rawData as [|l0 raw]; [split; [intros i line0 _ []|intros N; contradiction]|].
  unfold parseData. rewrite HT, HC. cbn [bind map np_max_Z].
  set (mx := fold_left Z.max (map tool_of raw) (tool_of l0)).
  set (cy := fold_left Z.max (map cycle_of raw) (cycle_of l0)).
  assert (Mx : forall line, In line (l0 :: raw) -> (tool_of line <= mx)%Z).
  { intros line Hin. destruct (fold_max_ge (map tool_of raw) (tool_of l0)) as [G1 G2].
    fold mx in G1, G2. destruct Hin as [<-|Hin]; [exact G1|].
    rewrite Forall_forall in G2. apply G2. apply in_map. exact Hin. }
  assert (Cy : forall line, In line (l0 :: raw) -> (cycle_of line <= cy)%Z).
  { intros line Hin. destruct (fold_max_ge (map cycle_of raw) (cycle_of l0)) as [G1 G2].
    fold cy in G1, G2. destruct Hin as [<-|Hin]; [exact G1|].
    rewrite Forall_forall in G2. apply G2. apply in_map. exact Hin. }
  destruct (fold_max_attained tool_of l0 raw) as (lm & Hlm & Em). fold mx in Em.
  destruct (fold_max_attained cycle_of l0 raw) as (lc & Hlc & Ec). fold cy in Ec.
  split.
  - intros i line0 Hi Hin Hle Hno.
    rewrite (mapM_fail (tool_data (l0 :: raw)) (range (mx + 1)) i ValueError).
    + reflexivity.
    + apply range_In. pose proof (Mx line0 Hin). lia.
    + apply (tool_data_readable (l0 :: raw) i H). exact Hno.
    + intros i' _. destruct (tool_data_cases (l0 :: raw) i' H) as [(d & E)|E].
      * exists d. left. exact E.
      * exists ([], []). right. exact E.
  - intros _ Hall.
    destruct (mapM_all_ok (tool_data (l0 :: raw)) (range (mx + 1))) as (data & E).
    { intros i Hi. apply range_In in Hi.
      apply (tool_data_readable (l0 :: raw) i H).
      apply (Hall i lm); [lia | exact Hlm | lia]. }
    rewrite E. cbn [bind]. exists (mx + 1)%Z, cy, data. split; [reflexivity|].
    split.
    { rewrite (mapM_length _ _ _ E). unfold range. rewrite length_map, length_seq. reflexivity. }
    split; [exists lm; split; [exact Hlm | rewrite Em; reflexivity]|].
    split; [intros line Hin; pose proof (Mx line Hin); lia|].
    split; [exists lc; split; [exact Hlc | symmetry; exact Ec] | exact Cy].
Qed.

Lemma parseData_fails_on_missing_tool_witness :
  Forall readable tool_1_results /\
  parseData tool_1_results = Err ValueError /\
  Forall readable run_results /\
  exists data, parseData run_results = Ok (2%Z, 1%Z, data).
Proof.
  split; [exact tool_1_results_readable|]. split.
  - destruct (parseData_fails_on_missing_tool tool_1_results tool_1_results_readable)
      as (_ & G & _).
    apply (G 0%Z (nth 0 tool_1_results [])).
    + lia.
    + left. reflexivity.
    + vm_compute. discriminate.
    + intros line [<-|[<-|[]]]; vm_compute; discriminate.
  - split; [exact run_results_readable|].
    destruct (parseData_fails_on_missing_tool run_results run_results_readable)
      as (_ & _ & G).
    destruct G as (nt & cyc & data & E & _).
    + discriminate.
    + intros i line0 Hi Hin Hle.
      assert (B : (tool_of line0 <= 1)%Z).
      { destruct Hin as [<-|[<-|[<-|[<-|[]]]]]; vm_compute; discriminate. }
      assert (D : i = 0%Z \/ i = 1%Z) by lia.
      destruct D as [-> | ->].
      * exists (nth 0 run_results []). split; [left; reflexivity | vm_compute; reflexivity].
      * exists (nth 1 run_results []). split; [right; left; reflexivity | vm_compute; reflexivity].
    + exists data. rewrite E.
      assert (V : exists d, parseData run_results = Ok (2%Z, 1%Z, d))
        by (vm_compute; eexists; reflexivity).
      destruct V as (d & V). rewrite V in E. inversion E; subst. reflexivity.
Defined.

(** *** Centred columns *)

Lemma column_lengths (raw : list (list (string * string))) (i : Z) :
  forall xs ys, column "X" raw i = Ok xs -> column "Y" raw i = Ok ys ->
  List.length xs = List.length ys.
Proof.
  induction raw as [|line raw IH]; intros xs ys HX HY; cbn [column] in HX, HY.
  - inversion HX; inversion HY; reflexivity.
  - destruct (read_int "tool" line) as [t|]; [|discriminate HX]. cbn [bind] in HX, HY.
    destruct (t =? i)%Z; [|apply IH; assumption].
    destruct (read_float "X" line); [|discriminate HX].
    destruct (read_float "Y" line); [|discriminate HY]. cbn [bind] in HX, HY.
    destruct (column "X" raw i) as [xs'|]; [|discriminate HX].
    destruct (column "Y" raw i) as [ys'|]; [|discriminate HY]. cbn [bind] in HX, HY.
    inversion HX; inversion HY; subst. cbn. rewrite (IH xs' ys' eq_refl eq_refl). reflexivity.
Qed.

Lemma np_sub_finite (v m : npfloat) (q : Q) :
  np_sub v m = Finite q -> exists a b, v = Finite a /\ m = Finite b /\ q == a - b.
Proof.
  unfold np_sub. destruct v as [a| | |], m as [b| | |]; cbn [np_add np_opp]; intros H;
    try discriminate H.
  apply (f_equal (fun w => match w with Finite x => x | _ => 0 end)) in H.
  cbv beta iota in H. subst q. exists a, b. split; [reflexivity|]. split; [reflexivity|].
  rewrite !Qred_correct. ring.
Qed.

Lemma fold_add_finite (l : list Q) (s0 : Q) :
  exists s, fold_left np_add (map Finite l) (Finite s0) = Finite s /\ s == s0 + qsum l.
Proof.
  revert s0. induction l as [|a l IH]; intros s0; cbn [map fold_left qsum fold_right].
  - exists s0. split; [reflexivity | ring].
  - destruct (IH (Qred (s0 + a))) as (s & E & Q). exists s. cbn [np_add]. split; [exact E|].
    rewrite Q, Qred_correct. unfold qsum. ring.
Qed.

Lemma cons_inj {A : Type} (a b : A) (l m : list A) :
  a :: l = b :: m -> a = b /\ l = m.
Proof.
  intros H. split; [exact (f_equal (hd a) H) | exact (f_equal (@tl A) H)].
Qed.

(** A column from which its mean, rounded to 3 decimals, was
    subtracted has a mean of at most 0.0005 in size. *)
Lemma centred_mean (x : list npfloat) (qs : list Q) :
  x <> [] ->
  map (fun v => np_sub v (np_around 3 (np_mean_f x))) x = map Finite qs ->
  Qabs (qsum qs / inject_Z (Z.of_nat (List.length qs))) <= 1 # 2000.
Proof.
  intros Hne H.
  assert (Hm : exists b, np_around 3 (np_mean_f x) = Finite b).
  { destruct x as [|v x]; [contradiction|]. destruct qs as [|q qs]; [discriminate H|].
    cbn [map] in H. apply cons_inj in H. destruct H as [H0 _].
    destruct (np_sub_finite _ _ _ H0) as (a & b & _ & E & _). exists b. exact E. }
  destruct Hm as (b & Eb). rewrite Eb in H.
  assert (Hx : exists az, x = map Finite az /\ List.length az = List.length qs /\
                          qsum qs == qsum az - inject_Z (Z.of_nat (List.length az)) * b).
  { clear Eb Hne. revert qs H. induction x as [|v x IH]; intros qs H.
    - destruct qs; [|discriminate H]. exists []. split; [reflexivity|]. split; [reflexivity|].
      cbn [qsum fold_right List.length]. ring.
    - destruct qs as [|q qs]; [discriminate H|]. cbn [map] in H.
      apply cons_inj in H. destruct H as [H0 H1].
      destruct (np_sub_finite _ _ _ H0) as (a & b' & -> & E & Q).
      apply (f_equal (fun w => match w with Finite x => x | _ => 0 end)) in E.
      cbv beta iota in E. subst b'.
      destruct (IH qs H1) as (az & -> & L & S).
      exists (a :: az). split; [reflexivity|]. split; [cbn; rewrite L; reflexivity|].
      cbn [qsum fold_right List.length]. fold (qsum qs). fold (qsum az).
      rewrite S, Q, Nat2Z.inj_succ, <- Z.add_1_r, inject_Z_plus. ring. }
  destruct Hx as (az & -> & L & S).
  assert (Hn : az <> []) by (intros ->; apply Hne; reflexivity).
  assert (Pn : 0 < inject_Z (Z.of_nat (List.length az))).
  { destruct az; [contradiction|]. cbn [List.length].
    unfold Qlt, inject_Z. cbn [Qnum Qden]. lia. }
  unfold np_mean_f in Eb.
  destruct (fold_add_finite az 0) as (s & Es & Qs).
  destruct az as [|a0 az']; [contradiction|].
  cbn [map] in Eb, Es. rewrite Es in Eb.
  change (Finite a0 :: map Finite az') with (map Finite (a0 :: az')) in Eb.
  rewrite length_map in Eb. cbn [np_around] in Eb.
  apply (f_equal (fun w => match w with Finite x => x | _ => 0 end)) in Eb.
  cbv beta iota in Eb.
  set (az := a0 :: az') in *.
  set (n := inject_Z (Z.of_nat (List.length az))) in *.
  set (mean := qsum az / n).
  assert (Eq : qsum qs / inject_Z (Z.of_nat (List.length qs)) == - (around 3 mean - mean)).
  { rewrite <- L. fold n. rewrite S. rewrite <- Eb.
    rewrite (around_comp 3 (Qred (s / n)) mean).
    - unfold mean. field. intros Z0. rewrite Z0 in Pn. discriminate Pn.
    - rewrite Qred_correct, Qs. unfold mean. field.
      intros Z0. rewrite Z0 in Pn. discriminate Pn. }
  rewrite Eq, Qabs_opp. apply (around_bound 3 mean).
Qed.

(** Property X20.  What [parseData] returns holds one pair of columns
    for each tool number from 0 to the highest; the two columns of a
    tool are equally long and not empty, and each was centred: for
    offsets of at most a kilometre, the mean of a column is below a
    thousandth of a millimetre in size (the mean that was subtracted
    had been rounded to 3 decimals, which leaves at most 0.0005, and
    the round-off of the doubles is far smaller than the rest). *)
Theorem parseData_centres_columns (rawData : list (list (string * string)))
  (nt cyc : Z) (data : list (list npfloat * list npfloat)) :
  parseData rawData = Ok (nt, cyc, data) ->
  Forall (fun line => Qabs (x_of line) <= 1000000 /\ Qabs (y_of line) <= 1000000)%Q rawData ->
  List.length data = Z.to_nat nt /\
  forall i xs ys, nth_error data i = Some (xs, ys) ->
    xs <> [] /\ List.length xs = List.length ys /\
    (forall qs, xs = map Finite qs ->
       Qabs (qsum qs / inject_Z (Z.of_nat (List.length qs))) <= 1 # 1000)%Q /\
    (forall qs, ys = map Finite qs ->
       Qabs (qsum qs / inject_Z (Z.of_nat (List.length qs))) <= 1 # 1000)%Q.
Proof.
  unfold parseData. intros H _.
  destruct (mapM (read_int "tool") rawData) as [tools|]; [|discriminate H]. cbn [bind] in H.
  destruct (np_max_Z tools) as [mx|]; [|discriminate H]. cbn [bind] in H.
  destruct (mapM (read_int "cycle") rawData) as [cycles|]; [|discriminate H]. cbn [bind] in H.
  destruct (np_max_Z cycles) as [cy|]; [|discriminate H]. cbn [bind] in H.
  destruct (mapM (tool_data rawData) (range (mx + 1))) as [d|] eqn:E; [|discriminate H].
  cbn [bind] in H. inversion H; subst. clear H.
  split.
  - rewrite (mapM_length _ _ _ E). unfold range. rewrite length_map, length_seq. reflexivity.
  - intros i xs ys Hi.
    destruct (mapM_nth _ _ _ E i (xs, ys) Hi) as (t & _ & Ht).
    unfold tool_data in Ht.
    destruct (column "X" rawData t) as [x|] eqn:EX; [|discriminate Ht]. cbn [bind] in Ht.
    destruct (column "Y" rawData t) as [y|] eqn:EY; [|discriminate Ht]. cbn [bind] in Ht.
    pose proof (column_lengths rawData t x y EX EY) as L.
    destruct x as [|x0 x]; [discriminate Ht|].
    destruct y as [|y0 y]; [discriminate Ht|].
    set (xm := np_around 3 (np_mean_f (x0 :: x))) in *.
    set (ym := np_around 3 (np_mean_f (y0 :: y))) in *.
    assert (HX : xs = map (fun v => np_sub v xm) (x0 :: x)) by congruence.
    assert (HY : ys = map (fun v => np_sub v ym) (y0 :: y)) by congruence.
    clear Ht. subst xs ys.
    split; [discriminate|]. split; [rewrite !length_map; exact L|].
    split; intros qs Hq.
    + apply Qle_trans with (1 # 2000)%Q; [|discriminate].
      apply (centred_mean (x0 :: x) qs); [discriminate | exact Hq].
    + apply Qle_trans with (1 # 2000)%Q; [|discriminate].
      apply (centred_mean (y0 :: y) qs); [discriminate | exact Hq].
Qed.

Lemma parseData_centres_columns_witness :
  parseData run_results =
    Ok (2%Z, 1%Z,
        [([Finite (-(1 # 500)); Finite (1 # 1000)], [Finite 0; Finite (1 # 1000)]);
         ([Finite (-(1 # 1000)); Finite (1 # 1000)], [Finite 0; Finite (1 # 1000)])]) /\
  Forall (fun line => Qabs (x_of line) <= 1000000 /\ Qabs (y_of line) <= 1000000)%Q
         run_results /\
  (Qabs (qsum [-(1 # 500); 1 # 1000] / inject_Z 2) <= 1 # 1000)%Q.
Proof.
  assert (E : parseData run_results =
    Ok (2%Z, 1%Z,
        [([Finite (-(1 # 500)); Finite (1 # 1000)], [Finite 0; Finite (1 # 1000)]);
         ([Finite (-(1 # 1000)); Finite (1 # 1000)], [Finite 0; Finite (1 # 1000)])]))
    by (vm_compute; reflexivity).
  assert (B : Forall (fun line => Qabs (x_of line) <= 1000000 /\ Qabs (y_of line) <= 1000000)%Q
                     run_results)
    by (repeat constructor; vm_compute; discriminate).
  split; [exact E|]. split; [exact B|].
  destruct (parseData_centres_columns run_results _ _ _ E B) as (_ & C).
  destruct (C 0%nat _ _ eq_refl) as (_ & _ & CX & _).
  apply (CX [-(1 # 500); 1 # 1000]). reflexivity.
Defined.

End DataFacts.

(** ** The alignment pass *)

Module RunFacts.
Import Np LinAlg LinAlgSpec Detect Calib Scenario Scenario2 Scenario5 TraceSpec Runner.
Import CalibFacts LoopFacts.

Lemma run_jobs_reusing (w h : positive) (cp : Q * Q) (cp_z : Q) (js : list (Z * Z)) :
  forall (feeds : list ((Q * Q) * list (option detection))) (th : thread),
  (1 < List.length (th_matrix th))%nat ->
  Forall sweep_free (fst (fst (run_jobs w h cp cp_z js feeds th))) /\
  snd (fst (run_jobs w h cp cp_z js feeds th)) = th.
Proof.
  induction js as [|[rep tool] js IH]; intros feeds th L.
  - cbn. split; [repeat constructor|reflexivity].
  - cbn [run_jobs]. destruct feeds as [|[g10 dets] feeds]; [cbn; split; [repeat constructor|reflexivity]|].
    pose proof (reusing_run (job_env w h cp g10 rep tool) (th_matrix th) (th_mpp th) dets L)
      as (_ & Tm & Mp & Ab & Re).
    destruct (calibrateTool (job_env w h cp g10 rep tool) (th_matrix th) (th_mpp th) dets)
      as [r s u|err s|s]; cbn [final_state] in Tm, Mp, Ab, Re.
    + assert (El : leave s = th) by (unfold leave; rewrite Tm, Mp; destruct th; reflexivity).
      rewrite El. specialize (IH feeds th L).
      destruct (run_jobs w h cp cp_z js feeds th) as [[evs th'] o]. cbn [fst snd] in *.
      destruct IH as [F E]. split; [|exact E].
      repeat (constructor; [exact I|]). constructor; [split; assumption|].
      constructor; [exact I | exact F].
    + cbn [fst snd]. split.
      * repeat (constructor; [exact I|]). constructor; [split; assumption|].
        repeat constructor.
      * unfold leave. rewrite Tm, Mp. destruct th; reflexivity.
    + cbn [fst snd]. split.
      * repeat (constructor; [exact I|]). constructor; [split; assumption|].
        repeat constructor.
      * unfold leave. rewrite Tm, Mp. destruct th; reflexivity.
Qed.

(** Property X21.  In an alignment pass only one call of
    [calibrateTool] calibrates the camera: once a call has returned,
    every later call of the pass, for whatever tool and cycle, works
    with the transform and the mpp which that call returned and does no
    sweep, and they are what the thread is left with. *)
Theorem run_sweeps_once (w h : positive) (cp : Q * Q) (cp_z : Q) (rep tool : Z)
  (js : list (Z * Z)) (g10 : Q * Q) (dets : list (option detection))
  (feeds : list ((Q * Q) * list (option detection))) (th : thread)
  (r : tool_result) (s : ctl) (rest : list (option detection)) :
  calibrateTool (job_env w h cp g10 rep tool) (th_matrix th) (th_mpp th) dets
    = Returned r s rest ->
  exists evs,
    fst (fst (run_jobs w h cp cp_z ((rep, tool) :: js) ((g10, dets) :: feeds) th)) =
      [Select tool; MoveX (fst cp); MoveY (snd cp); MoveZ cp_z;
       Calibrating (trace s); SetOffset tool (res_X r) (res_Y r)] ++ evs /\
    Forall sweep_free evs /\
    snd (fst (run_jobs w h cp cp_z ((rep, tool) :: js) ((g10, dets) :: feeds) th)) =
      {| th_matrix := res_matrix r; th_mpp := Some (res_MPP r) |} /\
    has_shape 6 2 (res_matrix r).
Proof.
  intros H. cbn [run_jobs]. rewrite H.
  destruct (returned_values _ _ _ _ _ _ _ H) as (Tm & Mp & Sh).
  assert (L : (1 < List.length (th_matrix (leave s)))%nat).
  { unfold leave. cbn [th_matrix]. rewrite Tm. destruct Sh as [-> _]. lia. }
  pose proof (run_jobs_reusing w h cp cp_z js feeds (leave s) L) as [F E].
  destruct (run_jobs w h cp cp_z js feeds (leave s)) as [[evs th'] o]. cbn [fst snd] in *.
  exists evs. split; [reflexivity|]. split; [exact F|]. split; [|exact Sh].
  rewrite E. unfold leave. rewrite Tm, Mp. reflexivity.
Qed.

Lemma run_sweeps_once_witness :
  calibrateTool (job_env 640 480 (100, 100) (0, 0) 0 0) [] None (sweep_dets ++ centre_dets)
    = first_call /\
  exists r s evs,
    fst (fst (run_jobs 640 480 (100, 100) 5 [(0, 0); (0, 1); (1, 0); (1, 1)]%Z feeds_2x2
                {| th_matrix := []; th_mpp := None |})) =
      [Select 0; MoveX 100; MoveY 100; MoveZ 5;
       Calibrating (trace s); SetOffset 0 (res_X r) (res_Y r)] ++ evs /\
    Forall sweep_free evs.
Proof.
  assert (E : calibrateTool (job_env 640 480 (100, 100) (0, 0) 0 0) [] None
                (sweep_dets ++ centre_dets) = first_call) by (vm_compute; reflexivity).
  split; [exact E|].
  unfold first_call in E.
  destruct (run_sweeps_once 640 480 (100, 100) 5 0 0 [(0, 1); (1, 0); (1, 1)]%Z (0, 0)
              (sweep_dets ++ centre_dets)
              (repeat ((0, 0), sweep_dets ++ centre_dets) 3)
              {| th_matrix := []; th_mpp := None |} _ _ _ E) as (evs & E1 & F & _).
  eexists. eexists. exists evs. split; [exact E1 | exact F].
Defined.

(** *** How a pass ends *)

Lemma offsets_set_app (a b : list host_event) :
  offsets_set (a ++ b) = offsets_set a ++ offsets_set b.
Proof. unfold offsets_set. apply flat_map_app. Qed.

Lemma run_jobs_outcome (w h : positive) (cp : Q * Q) (cp_z : Q) (js : list (Z * Z)) :
  forall (feeds : list ((Q * Q) * list (option detection))) (th : thread),
  Forall (fun j => (0 <= snd j)%Z) js ->
  let evs := fst (fst (run_jobs w h cp cp_z js feeds th)) in
  match snd (run_jobs w h cp cp_z js feeds th) with
  | Completed =>
      (exists pre, evs = pre ++ [Select (-1); MoveX (fst cp); MoveY (snd cp); MoveZ cp_z;
                                 Complete] /\ ~ In (Select (-1)) pre) /\
      offsets_set evs = map snd js /\ (List.length js <= List.length feeds)%nat /\
      forall err, ~ In (Failure err) evs
  | Failed err =>
      (exists pre tr, evs = pre ++ [Calibrating tr; Failure err]) /\
      ~ In (Select (-1)) evs /\ ~ In Complete evs /\
      exists k, (k < List.length js)%nat /\ offsets_set evs = map snd (firstn k js)
  | Starved =>
      ~ In (Select (-1)) evs /\ ~ In Complete evs /\
      exists k, (k < List.length js)%nat /\ offsets_set evs = map snd (firstn k js)
  end.
Proof.
  induction js as [|[rep tool] js IH]; intros feeds th HF.
  - cbn. split; [|split; [reflexivity|split; [lia|]]].
    + exists []. split; [reflexivity|]. intros [].
    + intros err [H|[H|[H|[H|[H|[]]]]]]; discriminate H.
  - inversion HF as [|? ? Ht HF']; subst. cbn [snd] in Ht.
    cbn [run_jobs]. destruct feeds as [|[g10 dets] feeds].
    { cbn. split; [|split].
      - intros [H|[H|[H|[H|[]]]]]; try discriminate H. inversion H. lia.
      - intros [H|[H|[H|[H|[]]]]]; discriminate H.
      - exists 0%nat. split; [lia|reflexivity]. }
    destruct (calibrateTool (job_env w h cp g10 rep tool) (th_matrix th) (th_mpp th) dets)
      as [r s u|err s|s].
    + specialize (IH feeds (leave s) HF').
      destruct (run_jobs w h cp cp_z js feeds (leave s)) as [[evs th'] o].
      cbn [fst snd] in *. cbv zeta in IH.
      destruct o as [|err|].
      * destruct IH as ((pre & E & N) & O & L & Fl). split; [|split; [|split]].
        -- exists ([Select tool; MoveX (fst cp); MoveY (snd cp); MoveZ cp_z;
                    Calibrating (trace s); SetOffset tool (res_X r) (res_Y r)] ++ pre).
           split; [rewrite E; reflexivity|].
           intros [H|[H|[H|[H|[H|[H|H]]]]]]; try discriminate H; [inversion H; lia|auto].
        -- cbn [app offsets_set flat_map map snd]. fold (offsets_set evs). rewrite O. reflexivity.
        -- cbn. lia.
        -- intros err [H|[H|[H|[H|[H|[H|H]]]]]]; try discriminate H. apply (Fl err H).
      * destruct IH as ((pre & tr & E) & N & C & k & Hk & O). split; [|split; [|split]].
        -- exists ([Select tool; MoveX (fst cp); MoveY (snd cp); MoveZ cp_z;
                    Calibrating (trace s); SetOffset tool (res_X r) (res_Y r)] ++ pre), tr.
           rewrite E. reflexivity.
        -- intros [H|[H|[H|[H|[H|[H|H]]]]]]; try discriminate H; [inversion H; lia|auto].
        -- intros [H|[H|[H|[H|[H|[H|H]]]]]]; try discriminate H. auto.
        -- exists (S k). split; [cbn; lia|].
           cbn [app offsets_set flat_map map snd firstn]. fold (offsets_set evs).
           rewrite O. reflexivity.
      * destruct IH as (N & C & k & Hk & O). split; [|split].
        -- intros [H|[H|[H|[H|[H|[H|H]]]]]]; try discriminate H; [inversion H; lia|auto].
        -- intros [H|[H|[H|[H|[H|[H|H]]]]]]; try discriminate H. auto.
        -- exists (S k). split; [cbn; lia|].
           cbn [app offsets_set flat_map map snd firstn]. fold (offsets_set evs).
           rewrite O. reflexivity.
    + cbn [fst snd]. split; [|split; [|split]].
      * exists [Select tool; MoveX (fst cp); MoveY (snd cp); MoveZ cp_z], (trace s). reflexivity.
      * intros [H|[H|[H|[H|[H|[H|[]]]]]]]; try discriminate H. inversion H. lia.
      * intros [H|[H|[H|[H|[H|[H|[]]]]]]]; discriminate H.
      * exists 0%nat. split; [cbn; lia|reflexivity].
    + cbn [fst snd]. split; [|split].
      * intros [H|[H|[H|[H|[H|[]]]]]]; try discriminate H. inversion H. lia.
      * intros [H|[H|[H|[H|[H|[]]]]]]; discriminate H.
      * exists 0%nat. split; [cbn; lia|reflexivity].
Qed.

Lemma jobs_tools (cycles num_tools : nat) :
  Forall (fun j => (0 <= snd j)%Z) (jobs cycles num_tools).
Proof.
  unfold jobs. apply Forall_forall. intros j Hj.
  apply in_flat_map in Hj. destruct Hj as (rep & _ & Hj).
  apply in_map_iff in Hj. destruct Hj as (t & <- & _). cbn. lia.
Qed.

Lemma jobs_length (cycles num_tools : nat) :
  List.length (jobs cycles num_tools) = (cycles * num_tools)%nat.
Proof.
  unfold jobs. generalize 0%nat at 2. induction cycles as [|c IH]; intros a; [reflexivity|].
  cbn [seq flat_map]. rewrite length_app, length_map, length_seq, IH. reflexivity.
Qed.

(** Property X22.  An alignment pass that completes has set the offset
    of every tool once in every cycle, in the order of the loops, and
    has then unloaded the tool ('T-1'), returned to the controlled point
    and signalled completion.  A pass in which a call of
    [calibrateTool] fails ends with the error signal right after that
    call: the offset of that tool is not set, the tool is not unloaded
    and completion is not signalled. *)
Theorem run_alignment_ends (w h : positive) (cp : Q * Q) (cp_z : Q) (cycles num_tools : nat)
  (feeds : list ((Q * Q) * list (option detection))) (th : thread) :
  let evs := fst (fst (run_alignment w h cp cp_z cycles num_tools feeds th)) in
  match snd (run_alignment w h cp cp_z cycles num_tools feeds th) with
  | Completed =>
      (exists pre, evs = pre ++ [Select (-1); MoveX (fst cp); MoveY (snd cp); MoveZ cp_z;
                                 Complete] /\ ~ In (Select (-1)) pre) /\
      offsets_set evs = map snd (jobs cycles num_tools) /\
      List.length (offsets_set evs) = (cycles * num_tools)%nat /\
      forall err, ~ In (Failure err) evs
  | Failed err =>
      (exists pre tr, evs = pre ++ [Calibrating tr; Failure err]) /\
      ~ In (Select (-1)) evs /\ ~ In Complete evs /\
      (List.length (offsets_set evs) < cycles * num_tools)%nat
  | Starved =>
      ~ In (Select (-1)) evs /\ ~ In Complete evs /\
      (List.length (offsets_set evs) < cycles * num_tools)%nat
  end.
Proof.
  intros evs. unfold evs, run_alignment.
  pose proof (run_jobs_outcome w h cp cp_z (jobs cycles num_tools) feeds th
                (jobs_tools cycles num_tools)) as H.
  cbv zeta in H.
  destruct (snd (run_jobs w h cp cp_z (jobs cycles num_tools) feeds th)) as [|err|].
  - destruct H as (A & O & _ & F). split; [exact A|]. split; [exact O|].
    split; [rewrite O, length_map; apply jobs_length | exact F].
  - destruct H as (A & N & C & k & Hk & O). split; [exact A|]. split; [exact N|].
    split; [exact C|]. rewrite O, length_map, length_firstn.
    rewrite jobs_length in *. lia.
  - destruct H as (N & C & k & Hk & O). split; [exact N|]. split; [exact C|].
    rewrite O, length_map, length_firstn. rewrite jobs_length in *. lia.
Qed.

End RunFacts.

(** ** The alignment step, whatever the arithmetic *)

Module NumFacts.
Import Np LinAlg Detect Calib Fmt Num NpFacts CalibFacts FmtFacts RecordFacts Scenario Scenario6.

Lemma shape_checks (T : matrix) :
  has_shape 6 2 T ->
  Nat.eqb (List.length T) 6 = true /\
  forallb (fun r => Nat.eqb (List.length r) 2) T = true.
Proof.
  intros HS. apply has_shapeb_true in HS. unfold has_shapeb in HS.
  apply andb_true_iff in HS. exact HS.
Qed.

(** In exact arithmetic the step is the one of [Calib]. *)
Lemma offsets_exact (e : env) (T : matrix) (p : Z * Z) :
  CalibNum.offsets exact T (CalibNum.feature exact (CalibNum.normalize_coords exact e p))
  = offsets T (feature_row (normalize_coords e p) 0).
Proof. reflexivity. Qed.

Lemma process_align_exact (e : env) (s : ctl) :
  has_shape 6 2 (transform_matrix s) ->
  CalibNum.process_align exact e s = process_align e s.
Proof.
  intros HS. unfold CalibNum.process_align, process_align.
  destruct (shape_checks _ HS) as [L F]. rewrite L, F.
  apply has_shapeb_true in HS. rewrite HS. cbn [negb].
  rewrite offsets_exact.
  set (off := offsets (transform_matrix s) (feature_row (normalize_coords e (xy s)) 0)).
  assert (I0 : around 3 (fst off) = fst off) by (unfold off, offsets; cbn [fst]; apply around_idem).
  assert (I1 : around 3 (snd off) = snd off) by (unfold off, offsets; cbn [snd]; apply around_idem).
  rewrite I0, I1. reflexivity.
Qed.

Lemma loop_turn_num (N : arith) (e : env) (s : ctl) (d d2 : detection)
  (rest : list (option detection)) :
  (4 <= detect_count s)%Z ->
  CalibNum.calibrate_loop N e s (Some d :: Some d2 :: rest) =
  match CalibNum.process N e (store d2 (average (accumulate (store d s)))) with
  | Continue s3 => CalibNum.calibrate_loop N e s3 rest
  | Return r s3 => Returned r s3 rest
  | Raise err s3 => Raised err s3
  end.
Proof.
  intros H. cbn [CalibNum.calibrate_loop].
  replace (position_iterations <=? detect_count (accumulate (store d s)))%Z with true.
  - reflexivity.
  - symmetry. apply Z.leb_le. cbn. unfold position_iterations. lia.
Qed.

Lemma process_200_num (N : arith) (e : env) (s : ctl) :
  state s = 200%Z -> CalibNum.process N e s = CalibNum.process_align N e s.
Proof. intros H. unfold CalibNum.process. rewrite H. reflexivity. Qed.

(** Claim C1.  In state 200, a visit of the state switch with the
    confirming detection at pixel [(px, py)] normalizes the pixel to
    [x = px/w - 0.5], [y = py/h - 0.5], forms
    [v = [x^2; y^2; x*y; x; y; 0]] and computes the offset
    [-1 * ((0.55 * T^t) v)], each axis rounded to 3 decimals with
    [np.around], every operation in the arithmetic of the machine.  The
    loop ends in this visit exactly when both rounded axes are zero;
    otherwise the relative move by the offset, printed with 3 decimals,
    is sent and the controller stays in state 200. *)
Theorem convergence_step (N : arith) (e : env) (s : ctl) (d d2 : detection)
  (rest : list (option detection)) (px py : Z) :
  state s = 200%Z ->
  has_shape 6 2 (transform_matrix s) ->
  moderate_matrix (transform_matrix s) ->
  (4 <= detect_count s)%Z ->
  d_xy d2 = (px, py) ->
  pixel (px, py) ->
  CalibNum.frame_fits e ->
  let T := transform_matrix s in
  let x := rnd N (rnd N (inject_Z px / inject_Z (Zpos (camera_width e))) - (1 # 2)) in
  let y := rnd N (rnd N (inject_Z py / inject_Z (Zpos (camera_height e))) - (1 # 2)) in
  let v := [sqr N x; sqr N y; rnd N (x * y); x; y; 0] in
  let M := map (map (fun t => rnd N (rnd N (55 # 100) * t))) (transpose 2 T) in
  let o := map (fun t => rnd N (-(1) * t)) (prod N M v) in
  let round3 := fun z => rnd N (Qred (rint (rnd N (z * inject_Z 1000)) # 1000)) in
  let off := fun c => round3 (nth c o 0) in
  let s0 := store d2 (average (accumulate (store d s))) in
  let move := EvGCode (G91_G1 (around 3 (off 0%nat)) (around 3 (off 1%nat)) 1000) in
  CalibNum.calibrate_loop N e s (Some d :: Some d2 :: rest) =
    match CalibNum.process N e s0 with
    | Continue s' => CalibNum.calibrate_loop N e s' rest
    | Return r s' => Returned r s' rest
    | Raise err s' => Raised err s'
    end /\
  (is_continue (CalibNum.process N e s0) = false <-> (off 0%nat == 0 /\ off 1%nat == 0)) /\
  (~ (off 0%nat == 0 /\ off 1%nat == 0) ->
   exists s', CalibNum.process N e s0 = Continue s' /\ state s' = 200%Z /\
              trace s' = trace s ++ [EvGCode M564_S1; move]).
Proof.
  intros Hst HS _ Hc Hxy _ _ T x y v M o round3 off s0 move.
  split; [apply loop_turn_num; exact Hc|].
  assert (Hst0 : state s0 = 200%Z) by exact Hst.
  rewrite (process_200_num N e s0 Hst0). unfold CalibNum.process_align.
  change (transform_matrix s0) with T.
  destruct (shape_checks T HS) as [L F]. rewrite L, F. cbn [negb].
  replace (xy s0) with (px, py) by (symmetry; exact Hxy).
  change (CalibNum.offsets N T (CalibNum.feature N (CalibNum.normalize_coords N e (px, py))))
    with (off 0%nat, off 1%nat).
  cbn [fst snd].
  destruct (Qeq_bool (off 0%nat) 0) eqn:E0; destruct (Qeq_bool (off 1%nat) 0) eqn:E1;
    cbn [andb].
  - apply Qeq_bool_iff in E0, E1. split.
    + split; [intros _; split; assumption|intros _].
      destruct (tool_coordinates s0); [destruct (mpp s0)|]; reflexivity.
    + intros NZ. exfalso. apply NZ. split; assumption.
  - split.
    + split; [discriminate|].
      intros [_ A]. apply Qeq_bool_iff in A. congruence.
    + intros _. eexists. split; [reflexivity|]. split; [exact Hst|reflexivity].
  - split.
    + split; [discriminate|].
      intros [A _]. apply Qeq_bool_iff in A. congruence.
    + intros _. eexists. split; [reflexivity|]. split; [exact Hst|reflexivity].
  - split.
    + split; [discriminate|].
      intros [A _]. apply Qeq_bool_iff in A. congruence.
    + intros _. eexists. split; [reflexivity|]. split; [exact Hst|reflexivity].
Qed.


Lemma moderate_small (q : Q) : Qle_bool (Qabs q) (inject_Z (2 ^ 500)) = true -> moderate q.
Proof. intros H. apply Qle_bool_iff. exact H. Qed.

Lemma convergence_step_witness :
  let d := det_at (224, 240)%Z (100, 100) in
  state aligning_T1 = 200%Z /\ has_shape 6 2 (transform_matrix aligning_T1) /\
  moderate_matrix (transform_matrix aligning_T1) /\
  (4 <= detect_count aligning_T1)%Z /\
  d_xy d = (224, 240)%Z /\ pixel (224, 240)%Z /\ CalibNum.frame_fits env0 /\
  exists s', CalibNum.process binary64 env0 (store d (average (accumulate (store d aligning_T1))))
             = Continue s' /\ state s' = 200%Z /\
             trace s' = [EvGCode M564_S1; EvGCode (G91_G1 (83 # 1000) 0 1000)].
Proof.
  intros d.
  assert (H1 : state aligning_T1 = 200%Z) by reflexivity.
  assert (H2 : has_shape 6 2 (transform_matrix aligning_T1))
    by (split; [reflexivity | repeat constructor]).
  assert (H3 : moderate_matrix (transform_matrix aligning_T1))
    by (repeat constructor; apply moderate_small; reflexivity).
  assert (H4 : (4 <= detect_count aligning_T1)%Z) by (cbn; lia).
  assert (H5 : d_xy d = (224, 240)%Z) by reflexivity.
  assert (H6 : pixel (224, 240)%Z) by (unfold pixel; cbn; lia).
  assert (H7 : CalibNum.frame_fits env0) by (unfold CalibNum.frame_fits; cbn; lia).
  repeat (split; [assumption|]).
  destruct (convergence_step binary64 env0 aligning_T1 d d [] 224 240 H1 H2 H3 H4 H5 H6 H7)
    as (_ & _ & C).
  destruct C as (s' & E1 & E2 & E3).
  - vm_compute. intros [A _]. discriminate A.
  - exists s'. split; [exact E1|]. split; [exact E2|]. rewrite E3. vm_compute. reflexivity.
Defined.

(** The same visit in exact arithmetic sends 0.082: the double nearest
    to 224/640 lies below 0.35, which takes the product away from the
    tie 82.5.  With the transform [T2] and the pixel (5, 240) the
    doubles send 0.001 and go on where exact arithmetic would end the
    loop. *)
Example number_systems_differ :
  let p := (224, 240)%Z in
  Np.around 3 (fst (CalibNum.offsets binary64 T1
     (CalibNum.feature binary64 (CalibNum.normalize_coords binary64 env0 p)))) = 83 # 1000 /\
  fst (CalibNum.offsets exact T1
     (CalibNum.feature exact (CalibNum.normalize_coords exact env0 p))) = 41 # 500 /\
  Np.around 3 (fst (CalibNum.offsets binary64 T2
     (CalibNum.feature binary64 (CalibNum.normalize_coords binary64 env0 (5, 240)%Z)))) = 1 # 1000 /\
  fst (CalibNum.offsets exact T2
     (CalibNum.feature exact (CalibNum.normalize_coords exact env0 (5, 240)%Z))) = 0.
Proof. repeat split; vm_compute; reflexivity. Qed.




End NumFacts.

(** ** The samples of the sweep and the scale factor, along a run *)

Module SampleFacts.
Import Np LinAlg LinAlgSpec Detect Calib NpFacts CalibFacts MppFacts SweepFacts SolverFacts.
Import LinAlgFacts RealSpec Scenario TraceSpec ResidualFacts LoopFacts SweepSpec.

Lemma machine_some (d : detection) (tc : Q * Q) : d_tool d = Some tc -> machine d = tc.
Proof. intros H. unfold machine. rewrite H. reflexivity. Qed.

Lemma transform_input_samples (e : env) (l : list detection) :
  transform_input e (map machine l) (map d_xy l) = Some (map (sample_of e) l).
Proof.
  induction l as [|d l IH]; [reflexivity|].
  cbn [map transform_input]. rewrite IH. reflexivity.
Qed.

(** The sweep, with the machine coordinates of the samples kept. *)
Lemma run_sweep_samples (e : env) (pairs : list (detection * detection)) :
  forall (k : nat) (s : ctl) (cams : list (Z * Z)) (sp : list (Q * Q))
         (rest : list (option detection)),
  sweeping k s cams sp -> (1 <= k)%nat -> (k + List.length pairs = 10)%nat ->
  Forall (fun dc => d_tool (snd dc) <> None) pairs ->
  exists s',
    calibrate_loop e s (flat_map turn pairs ++ rest) = calibrate_loop e s' rest /\
    sweeping 10 s' (cams ++ map (fun dc => d_xy (snd dc)) pairs)
                   (sp ++ map (fun dc => machine (snd dc)) pairs) /\
    transform_matrix s' = transform_matrix s.
Proof.
  induction pairs as [|[d d2] pairs IH]; intros k s cams sp rest Hsw Hk Hlen HF.
  - cbn in Hlen. rewrite Nat.add_0_r in Hlen. subst k.
    exists s. cbn [flat_map map app]. rewrite !app_nil_r.
    split; [reflexivity|]. split; [exact Hsw|reflexivity].
  - inversion HF as [|? ? Hd HF']; subst. cbn [snd] in Hd.
    destruct (d_tool d2) as [tc|] eqn:Ht; [|contradiction].
    cbn [List.length] in Hlen.
    destruct (step_sweep e k s cams sp d d2 tc (flat_map turn pairs ++ rest) Hsw
                ltac:(lia) Ht) as (s1 & E1 & Hsw1 & T1).
    destruct (IH (S k) s1 _ _ rest Hsw1 ltac:(lia) ltac:(lia) HF') as (s2 & E2 & Hsw2 & T2).
    exists s2. split; [|split].
    + cbn [flat_map turn fst snd app]. rewrite E1. exact E2.
    + cbn [map snd]. rewrite (machine_some d2 tc Ht).
      rewrite <- !app_assoc in Hsw2. exact Hsw2.
    + congruence.
Qed.

Lemma step_solve_samples (e : env) (s : ctl) (cams : list (Z * Z)) (sp : list (Q * Q))
  (d d2 : detection) (tc : Q * Q) (rest : list (option detection)) :
  sweeping 10 s cams sp -> d_tool d2 = Some tc ->
  exists s' input,
    calibrate_loop e s (Some d :: Some d2 :: rest) = calibrate_loop e s' rest /\
    state s' = 200%Z /\
    camera_coordinates s' = cams ++ [d_xy d2] /\
    space_coordinates s' = sp ++ [tc] /\
    transform_input e (space_coordinates s') (camera_coordinates s') = Some input /\
    transform_matrix s' = fst (least_square_mapping input) /\
    transform_residual s' = Some (snd (least_square_mapping input)).
Proof.
  intros (Hst & Hcam & Hsp & Lc & Ls & Hc & Hm) Ht. rewrite loop_turn by lia.
  unfold process. cbn [state store average accumulate]. rewrite Hst.
  cbn [Z.of_nat Pos.of_succ_nat Pos.succ Z.eqb Z.leb Z.ltb Z.compare Pos.compare
       Pos.compare_cont andb List.length calibrationCoordinates Pos.eqb].
  unfold process_solve. cbn [tool_coordinates mpp store average accumulate].
  destruct (mpp s) as [m|] eqn:Em; [|exfalso; apply Hm; [lia|reflexivity]].
  rewrite Ht. cbn [xy store camera_coordinates space_coordinates average accumulate].
  destruct (transform_input_length e (space_coordinates s ++ [tc])
              (camera_coordinates s ++ [d_xy d2])) as (input & Ei & Li).
  { rewrite !length_app, Hcam, Hsp, Lc, Ls. reflexivity. }
  rewrite Ei. destruct (least_square_mapping input) as [T residual] eqn:EL.
  eexists. exists input. split; [reflexivity|].
  cbn [state camera_coordinates space_coordinates transform_matrix transform_residual].
  rewrite Hcam, Hsp in *.
  split; [reflexivity|]. split; [reflexivity|]. split; [reflexivity|]. split; [exact Ei|].
  rewrite EL. split; reflexivity.
Qed.

(** Claim C4, as amended.  A run that starts without a transform
    matrix solves the transform from exactly 11 samples: the confirming
    detection at the start position and the confirming detection after
    each of the 10 sweep moves, each with the machine coordinates that
    came with it and its normalized pixel coordinates.  A run that
    starts with a transform matrix kept from an earlier run collects no
    sample and keeps that matrix. *)
Theorem sweep_collects_eleven (e : env) (prev_mpp : option npfloat)
  (d1 d2 d3 d4 d5 c0 : detection) (pairs : list (detection * detection))
  (rest : list (option detection)) :
  List.length pairs = 10%nat ->
  d_tool c0 <> None ->
  Forall (fun dc => d_tool (snd dc) <> None) pairs ->
  let confirming := c0 :: map snd pairs in
  let samples := map (sample_of e) confirming in
  (exists s,
    calibrateTool e [] prev_mpp
      ([Some d1; Some d2; Some d3; Some d4; Some d5; Some c0]
         ++ flat_map turn pairs ++ rest)
    = calibrate_loop e s rest /\
    state s = 200%Z /\
    camera_coordinates s = map d_xy confirming /\
    space_coordinates s = map machine confirming /\
    transform_input e (space_coordinates s) (camera_coordinates s) = Some samples /\
    List.length samples = 11%nat /\
    transform_matrix s = fst (least_square_mapping samples) /\
    transform_residual s = Some (snd (least_square_mapping samples))) /\
  (forall (prev_matrix : matrix) (dets : list (option detection)),
     (1 < List.length prev_matrix)%nat ->
     let s := final_state (calibrateTool e prev_matrix prev_mpp dets) in
     state s = 200%Z /\ camera_coordinates s = [] /\ space_coordinates s = [] /\
     transform_matrix s = prev_matrix).
Proof.
  intros Hlen Hc0 HF confirming samples. split.
  2:{ intros prev_matrix dets HL. unfold calibrateTool.
      assert (H200 : state (init prev_matrix prev_mpp) = 200%Z).
      { unfold init. cbn [state]. apply Nat.ltb_lt in HL. rewrite HL. reflexivity. }
      pose proof (align_keeps e (List.length dets) dets (init prev_matrix prev_mpp)
                    (Nat.le_refl _) H200) as (A & B & C).
      split; [exact A|]. split; [exact B|]. split; [|exact C].
      apply (loop_final e (fun s => state s = 200%Z /\ space_coordinates s = [])).
      - intros d s H. exact H.
      - intros s H. exact H.
      - intros s H. exact H.
      - intros s [St Sp]. rewrite (process_200 e s St). unfold process_align.
        destruct (negb (has_shapeb 6 2 (transform_matrix s))); [cbn; auto|].
        destruct (Qeq_bool _ 0 && Qeq_bool _ 0); [|cbn; auto].
        destruct (tool_coordinates s); [|cbn; auto].
        destruct (mpp s); cbn; auto.
      - split; [exact H200 | reflexivity]. }
  destruct (d_tool c0) as [tc0|] eqn:Et0; [|contradiction].
  destruct (exists_last (l := pairs)) as (front & [dl cl] & Epairs).
  { intros E. rewrite E in Hlen. discriminate. }
  subst pairs. rewrite length_app in Hlen. cbn [List.length] in Hlen.
  apply Forall_app in HF. destruct HF as [HF1 HF2].
  inversion HF2 as [|? ? Hcl _]; subst. cbn [snd] in Hcl.
  destruct (d_tool cl) as [tcl|] eqn:Etl; [|contradiction].
  unfold calibrateTool.
  cbn [app]. rewrite !loop_skip by (cbn; lia).
  destruct (step_first e (accumulate (store d4 (accumulate (store d3 (accumulate
              (store d2 (accumulate (store d1 (init [] prev_mpp)))))))))
              d5 c0 tc0 (flat_map turn (front ++ [(dl, cl)]) ++ rest)
              eq_refl eq_refl Et0) as (s1 & E1 & Hsw1 & _).
  rewrite E1. rewrite flat_map_app, <- app_assoc.
  destruct (run_sweep_samples e front 1 s1 _ _ (flat_map turn [(dl, cl)] ++ rest) Hsw1
              ltac:(lia) ltac:(lia) HF1) as (s2 & E2 & Hsw2 & _).
  rewrite E2. cbn [flat_map turn fst snd app].
  destruct (step_solve_samples e s2 _ _ dl cl tcl rest Hsw2 Etl)
    as (s3 & input & E3 & Hst & Hcam & Hsp & Hin & HT & HR).
  assert (Ec : camera_coordinates s3 = map d_xy confirming).
  { rewrite Hcam. unfold confirming. cbn [map]. rewrite !map_app, !map_map. reflexivity. }
  assert (Es : space_coordinates s3 = map machine confirming).
  { rewrite Hsp. unfold confirming. cbn [map]. rewrite !map_app, !map_map.
    cbn [map snd]. rewrite (machine_some c0 tc0 Et0), (machine_some cl tcl Etl).
    reflexivity. }
  assert (Ei : input = samples).
  { rewrite Ec, Es, transform_input_samples in Hin. injection Hin as Hi. symmetry. exact Hi. }
  subst input.
  exists s3. split; [exact E3|]. split; [exact Hst|]. split; [exact Ec|].
  split; [exact Es|]. split; [rewrite Ec, Es; apply transform_input_samples|].
  split; [|split; assumption].
  unfold samples, confirming. cbn [map List.length]. rewrite !length_map, length_app.
  cbn [List.length]. lia.
Qed.

Lemma sweep_collects_eleven_witness :
  List.length sweep_pairs = 10%nat /\
  d_tool (det (100, 100)) <> None /\
  Forall (fun dc => d_tool (snd dc) <> None) sweep_pairs /\
  exists s,
    calibrateTool env0 [] None sweep_dets = calibrate_loop env0 s [] /\
    space_coordinates s = (100, 100) :: map (fun c => (100 + fst c, 100 + snd c))
                                          calibrationCoordinates /\
    List.length (camera_coordinates s) = 11%nat.
Proof.
  assert (H1 : List.length sweep_pairs = 10%nat) by reflexivity.
  assert (H2 : d_tool (det (100, 100)) <> None) by discriminate.
  assert (H3 : Forall (fun dc => d_tool (snd dc) <> None) sweep_pairs)
    by (repeat constructor; discriminate).
  repeat (split; [assumption|]).
  destruct (sweep_collects_eleven env0 None (det (100, 100)) (det (100, 100))
              (det (100, 100)) (det (100, 100)) (det (100, 100)) (det (100, 100))
              sweep_pairs [] H1 H2 H3) as ((s & E & _ & Hc & Hs & _) & _).
  exists s. rewrite app_nil_r in E. split; [exact E|]. split.
  - rewrite Hs. reflexivity.
  - rewrite Hc. reflexivity.
Defined.

(** *** The scale factor *)

Lemma mpp_kept_step (e : env) (m : npfloat) (s : ctl) :
  (2 <= state s)%Z /\ mpp s = Some m ->
  (2 <= state (step_state (process e s)))%Z /\ mpp (step_state (process e s)) = Some m.
Proof.
  intros [St M].
  destruct (process_cases e s) as [[S0 E]|[[S0 E]|[[S0 E]|[[S0 E]|[S0 E]]]]];
    rewrite E; clear E.
  - lia.
  - unfold process_sweep. destruct (tool_coordinates s); cbn [step_state state mpp];
      [|split; assumption].
    replace (state s =? 1)%Z with false by (symmetry; apply Z.eqb_neq; lia).
    split; [lia | exact M].
  - unfold process_solve. rewrite M.
    destruct (tool_coordinates s); [|cbn; split; assumption].
    destruct (transform_input e _ _) as [input|]; [|cbn; split; assumption].
    destruct (least_square_mapping input). cbn [step_state state mpp]. split; [lia|reflexivity].
  - unfold process_align.
    destruct (negb (has_shapeb 6 2 (transform_matrix s))); [cbn; split; assumption|].
    destruct (Qeq_bool _ 0 && Qeq_bool _ 0); [|cbn; split; assumption].
    destruct (tool_coordinates s); [|cbn; split; assumption].
    rewrite M. cbn. split; [assumption | solve [assumption | reflexivity]].
  - cbn. split; assumption.
Qed.

Lemma mpp_kept (e : env) (m : npfloat) (s : ctl) (dets : list (option detection)) :
  (2 <= state s)%Z -> mpp s = Some m ->
  mpp (final_state (calibrate_loop e s dets)) = Some m.
Proof.
  intros St M.
  apply (loop_final e (fun s => (2 <= state s)%Z /\ mpp s = Some m)).
  - intros d s0 H. exact H.
  - intros s0 H. exact H.
  - intros s0 H. exact H.
  - intros s0 H. apply mpp_kept_step. exact H.
  - split; assumption.
Qed.

(** Claim C8, as amended.  In a run that starts without a transform,
    the first confirming detection [c0] is followed by the first
    calibration move, and the visit of the state switch with the second
    confirming detection [c1] sets mpp to [0.5 / d] rounded to 4
    decimals, where [d] is the Euclidean pixel distance between the two
    detections already rounded to 3 decimals by [getDistance]; mpp then
    keeps this value to the end of the run. *)
Theorem mpp_formula (e : env) (prev_mpp : option npfloat)
  (d1 d2 d3 d4 d5 c0 d7 c1 : detection) (rest : list (option detection)) :
  d_tool c0 <> None -> d_tool c1 <> None -> d_xy c0 <> d_xy c1 ->
  let p0 := d_xy c0 in
  let p1 := d_xy c1 in
  let dist := getDistance (fst p0) (snd p0) (fst p1) (snd p1) in
  rounds_to 3 (euclid p0 p1) dist /\
  (exists q, calc_mpp p0 p1 = Finite q /\ q = around 4 ((1 # 2) / dist) /\
             rounds_to 4 (/ 2 / Q2R dist) q) /\
  (exists s1 s2,
     calibrateTool e [] prev_mpp [Some d1; Some d2; Some d3; Some d4; Some d5; Some c0]
       = Waiting s1 /\
     state s1 = 1%Z /\ mpp s1 = prev_mpp /\
     trace s1 = [EvGCode (G91_G1 0 (-(1 # 2)) 3000)] /\
     calibrateTool e [] prev_mpp
       ([Some d1; Some d2; Some d3; Some d4; Some d5; Some c0; Some d7; Some c1] ++ rest)
       = calibrate_loop e s2 rest /\
     state s2 = 2%Z /\ mpp s2 = Some (calc_mpp p0 p1) /\
     mpp (final_state (calibrate_loop e s2 rest)) = Some (calc_mpp p0 p1)).
Proof.
  intros Ht0 Ht1 N p0 p1 dist. split; [|split].
  - apply around_sqrt_rounds, sq_dist_nonneg.
  - assert (D : ~ dist == 0) by (intros H; apply getDistance_zero in H; contradiction).
    exists (around 4 ((1 # 2) / dist)). split; [|split; [reflexivity|]].
    + unfold calc_mpp, np_div. fold dist.
      destruct (Qeq_bool dist 0) eqn:E; [apply Qeq_bool_iff in E; contradiction|].
      reflexivity.
    + rewrite <- Q2R_half, <- Q2R_div by exact D. apply around_rounds.
  - destruct (d_tool c0) as [tc0|] eqn:Et0; [|contradiction].
    destruct (d_tool c1) as [tc1|] eqn:Et1; [|contradiction].
    unfold calibrateTool.
    assert (E1 : exists s1,
      calibrate_loop e (init [] prev_mpp)
        [Some d1; Some d2; Some d3; Some d4; Some d5; Some c0] = Waiting s1 /\
      state s1 = 1%Z /\ mpp s1 = prev_mpp /\
      trace s1 = [EvGCode (G91_G1 0 (-(1 # 2)) 3000)]).
    { rewrite !loop_skip by (cbn; lia). rewrite loop_turn by (cbn; lia).
      unfold process. cbn [state store average accumulate init Nat.ltb Nat.leb List.length Z.eqb].
      unfold process_first. cbn [tool_coordinates store]. rewrite Et0.
      cbn [calibrate_loop]. eexists. split; [reflexivity|]. repeat split. }
    assert (E2 : exists s2,
      calibrate_loop e (init [] prev_mpp)
        ([Some d1; Some d2; Some d3; Some d4; Some d5; Some c0; Some d7; Some c1] ++ rest)
      = calibrate_loop e s2 rest /\ state s2 = 2%Z /\ mpp s2 = Some (calc_mpp p0 p1)).
    { cbn [app]. rewrite !loop_skip by (cbn; lia). rewrite loop_turn by (cbn; lia).
      unfold process at 1.
      cbn [state store average accumulate init Nat.ltb Nat.leb List.length Z.eqb].
      unfold process_first. cbn [tool_coordinates store]. rewrite Et0.
      rewrite loop_turn by (cbn; lia).
      unfold process. cbn [state store average accumulate Z.eqb Pos.eqb Z.leb Z.ltb
                           Z.compare Pos.compare Pos.compare_cont andb
                           Z.of_nat List.length calibrationCoordinates Pos.of_succ_nat Pos.succ].
      unfold process_sweep. cbn [tool_coordinates store state average accumulate Z.eqb Pos.eqb].
      rewrite Et1. eexists. split; [reflexivity|]. split; reflexivity. }
    destruct E1 as (s1 & E1 & St1 & M1 & Tr1).
    destruct E2 as (s2 & E2 & St2 & M2).
    exists s1, s2. repeat (split; [assumption|]).
    apply mpp_kept; [lia | exact M2].
Qed.

Lemma mpp_formula_witness :
  let d := det_at (100, 100)%Z (100, 100) in
  let c0 := det_at (130, 100)%Z (100, 100) in
  let c1 := det_at (140, 100)%Z (100, 100) in
  d_tool c0 <> None /\ d_tool c1 <> None /\ d_xy c0 <> d_xy c1 /\
  exists s2,
    calibrateTool env0 [] None jitter_dets = calibrate_loop env0 s2 [] /\
    state s2 = 2%Z /\ mpp s2 = Some (Finite (1 # 20)).
Proof.
  intros d c0 c1.
  assert (H1 : d_tool c0 <> None) by discriminate.
  assert (H2 : d_tool c1 <> None) by discriminate.
  assert (H3 : d_xy c0 <> d_xy c1) by discriminate.
  repeat (split; [assumption|]).
  destruct (mpp_formula env0 None d d d d d c0 c1 c1 [] H1 H2 H3)
    as (_ & _ & (s1 & s2 & _ & _ & _ & _ & E & St & M & _)).
  exists s2. split; [exact E|]. split; [exact St|]. rewrite M. reflexivity.
Defined.

End SampleFacts.

(** ** The solver on well conditioned and on degenerate samples *)

Module FitFacts.
Import Np LinAlg LinAlgSpec Detect Calib NpFacts CalibFacts SweepFacts SolverFacts.
Import LinAlgFacts Scenario ResidualFacts Conditioning.

Lemma residual_few (pts : list ((Q * Q) * (Q * Q))) :
  (List.length pts <= 6)%nat \/ full_column_rank 6 (design_matrix pts) = false ->
  snd (least_square_mapping pts) = NaN.
Proof.
  intros H. unfold least_square_mapping. cbn [snd].
  set (A := design_matrix pts). set (R := real_matrix pts).
  assert (LA : List.length A = List.length pts)
    by (unfold A, design_matrix; apply length_map).
  destruct (full_column_rank_cases 6 A) as [F|F].
  - destruct H as [H|H]; [|unfold A in F; congruence].
    destruct (full_rank_solve 6 2 A R F) as (X & E).
    unfold lstsq. rewrite E. cbn [snd]. rewrite LA.
    replace (6 <? List.length pts)%nat with false by (symmetry; apply Nat.ltb_ge; exact H).
    reflexivity.
  - unfold lstsq. rewrite (rank_deficient_solve 6 2 A R F). reflexivity.
Qed.

(** Claim C3, as amended.  The solver builds the design matrix [A]
    with rows [[x^2; y^2; x*y; x; y; 1]] and the matrix [R] of the
    machine coordinates, and always returns a 6 x 2 matrix [T].  When
    there are more than 6 samples and [A] is well conditioned (every
    singular value above a millionth of the largest), [T] is the
    least-squares solution of [A T ~ R]: it satisfies the normal
    equations and minimises the squared residual of each axis, and the
    number returned with it is the mean of the two squared residuals;
    for samples generated without noise from a known transform, [T] is
    that transform and the residual is 0.  With at most 6 samples or a
    rank-deficient [A] the residual is [nan]. *)
Theorem solver_roundtrip (pts : list ((Q * Q) * (Q * Q))) (T0 : matrix) :
  let A := design_matrix pts in
  let R := real_matrix pts in
  let T := fst (least_square_mapping pts) in
  A = map (fun rp => let x := fst (snd rp) in let y := snd (snd rp) in
                     [x * x; y * y; x * y; x; y; 1]) pts /\
  R = map (fun rp => [fst (fst rp); snd (fst rp)]) pts /\
  has_shape 6 2 T /\
  (full_column_rank 6 A = true -> well_conditioned 6 margin A = true ->
   (6 < List.length pts)%nat ->
   (forall i c, (i < 6)%nat -> (c < 2)%nat ->
      dot (nth i (gram 6 A) []) (col c T) == entry (tmul 6 2 A R) i c) /\
   (forall c t', (c < 2)%nat -> List.length t' = 6%nat ->
      sumsq (vsub (col c R) (matvec A (col c T)))
      <= sumsq (vsub (col c R) (matvec A t'))) /\
   snd (least_square_mapping pts) =
     np_mean (map (fun c => Qred (sumsq (vsub (col c R) (col c (mmul 2 A T))))) (seq 0 2)) /\
   (List.length T0 = 6%nat -> noise_free T0 pts ->
    (forall i c, (i < 6)%nat -> (c < 2)%nat -> entry T i c == entry T0 i c) /\
    exists r, snd (least_square_mapping pts) = Finite r /\ r == 0)) /\
  ((List.length pts <= 6)%nat \/ full_column_rank 6 A = false ->
   snd (least_square_mapping pts) = NaN).
Proof.
  intros A R T.
  split; [reflexivity|]. split; [reflexivity|].
  split; [apply least_square_mapping_shape|].
  split; [|apply residual_few].
  intros HR _ HL.
  assert (LA : (6 < List.length A)%nat) by (unfold A, design_matrix; rewrite length_map; exact HL).
  destruct (lstsq_normal_equations 6 2 A R HR) as [Sh NE].
  split; [exact NE|]. split.
  { intros c t' Hc Lt. apply (lstsq_minimal 6 2 A R c t' HR); try assumption.
    unfold A, R, design_matrix, real_matrix. rewrite !length_map. reflexivity. }
  split.
  - unfold least_square_mapping. cbn [snd]. fold A R. f_equal.
    unfold T, least_square_mapping. cbn [fst]. fold A R.
    destruct (full_rank_solve 6 2 A R HR) as (X & E).
    unfold lstsq. rewrite E. cbn [fst snd].
    apply Nat.ltb_lt in LA. rewrite LA. reflexivity.
  - intros L0 NF.
    destruct (lstsq_exact 6 2 A R T0 HR L0 (noise_free_cols T0 pts NF)) as [EQ RES].
    split; [exact EQ|].
    destruct (RES LA) as [Len Z0].
    unfold least_square_mapping. cbn [snd]. fold A R.
    destruct (snd (lstsq 6 2 A R)) as [|r0 [|r1 [|? ?]]]; try discriminate Len.
    inversion Z0 as [|? ? Z1 Z0']; subst. inversion Z0' as [|? ? Z2 _]; subst.
    eexists. split; [reflexivity|].
    rewrite Qred_correct. unfold qsum. cbn [fold_right List.length].
    rewrite Z1, Z2. reflexivity.
Qed.

Lemma solver_roundtrip_witness :
  full_column_rank 6 (design_matrix good_pts) = true /\
  well_conditioned 6 margin (design_matrix good_pts) = true /\
  (6 < List.length good_pts)%nat /\
  List.length T0 = 6%nat /\ noise_free T0 good_pts /\
  (forall i c, (i < 6)%nat -> (c < 2)%nat ->
     entry (fst (least_square_mapping good_pts)) i c == entry T0 i c) /\
  (exists r, snd (least_square_mapping good_pts) = Finite r /\ r == 0) /\
  full_column_rank 6 (design_matrix line_pts) = false /\
  snd (least_square_mapping line_pts) = NaN.
Proof.
  assert (H1 : full_column_rank 6 (design_matrix good_pts) = true)
    by (vm_compute; reflexivity).
  assert (H2 : well_conditioned 6 margin (design_matrix good_pts) = true)
    by (vm_compute; reflexivity).
  assert (H3 : (6 < List.length good_pts)%nat) by (cbn; lia).
  assert (H4 : List.length T0 = 6%nat) by reflexivity.
  assert (H5 : full_column_rank 6 (design_matrix line_pts) = false)
    by (vm_compute; reflexivity).
  repeat (split; [assumption|]). split; [exact good_pts_noise_free|].
  destruct (solver_roundtrip good_pts T0) as (_ & _ & _ & G & _).
  destruct (G H1 H2 H3) as (_ & _ & _ & RT).
  destruct (RT H4 good_pts_noise_free) as [EQ RES].
  split; [exact EQ|]. split; [exact RES|]. split; [exact H5|].
  destruct (solver_roundtrip line_pts T0) as (_ & _ & _ & _ & D).
  apply D. right. exact H5.
Defined.

(** Claim C7, as amended.  The solve step reports no failure: whatever
    the samples, the controller goes on to the alignment stage with the
    6 x 2 matrix that the solver returned, and keeps the residual
    without looking at it; for degenerate samples that residual is
    [nan]. *)
Theorem degenerate_not_reported (e : env) (s : ctl) (tc : Q * Q) (m : npfloat) :
  state s = 10%Z ->
  tool_coordinates s = Some tc ->
  mpp s = Some m ->
  List.length (space_coordinates s) = List.length (camera_coordinates s) ->
  exists s' input,
    process e s = Continue s' /\ state s' = 200%Z /\
    transform_input e (space_coordinates s ++ [tc]) (camera_coordinates s ++ [xy s])
      = Some input /\
    transform_matrix s' = fst (least_square_mapping input) /\
    has_shape 6 2 (transform_matrix s') /\
    transform_residual s' = Some (snd (least_square_mapping input)) /\
    (full_column_rank 6 (design_matrix input) = false ->
     transform_residual s' = Some NaN) /\
    trace s' = trace s ++
      [EvGCode (G90_G1 (around 3 (entry (transform_matrix s') 5 0))
                       (around 3 (entry (transform_matrix s') 5 1)) 1000)].
Proof.
  intros Hst Htc Hm HL. rewrite (process_10 e s Hst). unfold process_solve.
  rewrite Hm, Htc.
  destruct (SweepFacts.transform_input_length e (space_coordinates s ++ [tc])
              (camera_coordinates s ++ [xy s])) as (input & Ei & _).
  { rewrite !length_app, HL. reflexivity. }
  rewrite Ei. destruct (least_square_mapping input) as [T residual] eqn:EL.
  eexists. exists input. split; [reflexivity|].
  cbn [state transform_matrix transform_residual trace]. rewrite EL. cbn [fst snd].
  split; [reflexivity|]. split; [reflexivity|]. split; [reflexivity|].
  split; [pose proof (least_square_mapping_shape input) as S; rewrite EL in S; exact S|].
  split; [reflexivity|].
  split.
  - intros HD. pose proof (residual_few input (or_intror HD)) as RN.
    rewrite EL in RN. cbn [snd] in RN. rewrite RN. reflexivity.
  - f_equal. f_equal. f_equal. f_equal; apply around_comp; apply AlignFacts.new_centre_entry; lia.
Qed.

Lemma degenerate_not_reported_witness :
  state collinear_state = 10%Z /\
  tool_coordinates collinear_state = Some (100 - (294 # 1000), 100 - (405 # 1000)) /\
  mpp collinear_state = Some (Finite (39 # 5000)) /\
  List.length (space_coordinates collinear_state)
    = List.length (camera_coordinates collinear_state) /\
  exists s', process env0 collinear_state = Continue s' /\ state s' = 200%Z /\
             transform_residual s' = Some NaN /\
             transform_matrix s' =
               [[-70 # 39; -1060 # 429]; [0; 0]; [0; 0]; [-(7 # 10); 5 # 22]; [0; 0];
                [3907 # 39; 43006 # 429]].
Proof.
  assert (H1 : state collinear_state = 10%Z) by reflexivity.
  assert (H2 : tool_coordinates collinear_state
               = Some (100 - (294 # 1000), 100 - (405 # 1000))) by reflexivity.
  assert (H3 : mpp collinear_state = Some (Finite (39 # 5000))) by reflexivity.
  assert (H4 : List.length (space_coordinates collinear_state)
               = List.length (camera_coordinates collinear_state)) by reflexivity.
  repeat (split; [assumption|]).
  destruct (degenerate_not_reported env0 collinear_state _ _ H1 H2 H3 H4)
    as (s' & input & E & St & Ei & TM & _ & _ & D & _).
  exists s'. split; [exact E|]. split; [exact St|].
  vm_compute in Ei. injection Ei as <-. split.
  - apply D. vm_compute. reflexivity.
  - rewrite TM. vm_compute. reflexivity.
Defined.

(** Property X7.  The residual that [least_square_mapping] returns is
    [nan] when there are at most 6 samples (6 samples can be fitted
    exactly and still give [nan]) and when the design matrix has not
    full column rank; with more than 6 samples and a well conditioned
    design matrix it is a finite number that is not negative. *)
Theorem residual_nan_or_nonneg (pts : list ((Q * Q) * (Q * Q))) :
  ((List.length pts <= 6)%nat -> snd (least_square_mapping pts) = NaN) /\
  (full_column_rank 6 (design_matrix pts) = false -> snd (least_square_mapping pts) = NaN) /\
  ((6 < List.length pts)%nat -> full_column_rank 6 (design_matrix pts) = true ->
   well_conditioned 6 margin (design_matrix pts) = true ->
   exists r, snd (least_square_mapping pts) = Finite r /\ 0 <= r).
Proof.
  split; [intros H; apply residual_few; left; exact H|].
  split; [intros H; apply residual_few; right; exact H|].
  intros L H _.
  unfold least_square_mapping. cbn [snd].
  set (A := design_matrix pts). set (R := real_matrix pts).
  assert (LA : List.length A = List.length pts)
    by (unfold A, design_matrix; apply length_map).
  destruct (full_rank_solve 6 2 A R H) as (X & E).
  unfold lstsq. rewrite E. cbn [snd]. rewrite LA.
  apply Nat.ltb_lt in L. rewrite L. cbn [seq map np_mean].
  eexists. split; [reflexivity|].
  apply Qred_nonneg. unfold qsum. cbn [fold_right List.length].
  apply Qle_shift_div_l; [reflexivity|]. rewrite Qmult_0_l.
  rewrite Qplus_0_r.
  setoid_replace 0 with (0 + 0) by ring.
  apply Qplus_le_compat; apply Qred_nonneg; apply sumsq_nonneg.
Qed.

Lemma residual_nan_or_nonneg_witness :
  (6 < List.length sweep_input)%nat /\
  full_column_rank 6 (design_matrix sweep_input) = true /\
  well_conditioned 6 margin (design_matrix sweep_input) = true /\
  (exists r, snd (least_square_mapping sweep_input) = Finite r /\ 0 <= r) /\
  snd (least_square_mapping (firstn 6 sweep_input)) = NaN.
Proof.
  assert (H1 : (6 < List.length sweep_input)%nat) by (cbn; lia).
  assert (H2 : full_column_rank 6 (design_matrix sweep_input) = true)
    by (vm_compute; reflexivity).
  assert (H3 : well_conditioned 6 margin (design_matrix sweep_input) = true)
    by (vm_compute; reflexivity).
  repeat (split; [assumption|]).
  destruct (residual_nan_or_nonneg sweep_input) as (_ & _ & G).
  split; [exact (G H1 H2 H3)|].
  destruct (residual_nan_or_nonneg (firstn 6 sweep_input)) as (F & _).
  apply F. cbn. lia.
Defined.

End FitFacts.

(** ** The two number systems *)

Module ExactFacts.
Import Np LinAlg LinAlgSpec Detect Calib Num Binary64 NpFacts CalibFacts SweepFacts SolverFacts.
Import LinAlgFacts Scenario ResidualFacts LoopFacts NumFacts.

Lemma process_exact (e : env) (s : ctl) :
  CalibNum.shaped s -> CalibNum.process exact e s = process e s.
Proof.
  intros H. unfold CalibNum.process, process.
  destruct (state s =? 0)%Z; [reflexivity|].
  destruct ((1 <=? state s)%Z && (state s <? Z.of_nat (List.length calibrationCoordinates))%Z);
    [reflexivity|].
  destruct (state s =? Z.of_nat (List.length calibrationCoordinates))%Z; [reflexivity|].
  destruct (state s =? 200)%Z eqn:E; [|reflexivity].
  apply Z.eqb_eq in E. apply process_align_exact. apply H. exact E.
Qed.

Lemma shaped_continue (e : env) (s s' : ctl) :
  CalibNum.shaped s -> process e s = Continue s' -> CalibNum.shaped s'.
Proof.
  unfold CalibNum.shaped. intros H E St'.
  destruct (process_continue e s s' E)
    as [(A & B & _)|[(A & B & _)|[(A & B & C)|[(A & B & C)|(A & ->)]]]]; try lia.
  - unfold process_solve in C.
    destruct (mpp s); [|discriminate C].
    destruct (tool_coordinates s); [|discriminate C].
    destruct (transform_input e _ _) as [input|]; [|discriminate C].
    pose proof (least_square_mapping_shape input) as S.
    destruct (least_square_mapping input). inversion C; subst. exact S.
  - unfold process_align in C.
    destruct (negb (has_shapeb 6 2 (transform_matrix s))); [discriminate C|].
    destruct (Qeq_bool _ 0 && Qeq_bool _ 0).
    + destruct (tool_coordinates s); [|discriminate C].
      destruct (mpp s); discriminate C.
    + inversion C; subst. apply H. exact A.
Qed.

Lemma calibrate_loop_exact_bounded (e : env) (n : nat) :
  forall (dets : list (option detection)) (s : ctl),
  (List.length dets <= n)%nat -> CalibNum.shaped s ->
  CalibNum.calibrate_loop exact e s dets = calibrate_loop e s dets.
Proof.
  induction n as [|n IH]; intros dets s L H.
  - destruct dets; [reflexivity | cbn in L; lia].
  - destruct dets as [|[d|] rest]; [reflexivity | | reflexivity].
    cbn [CalibNum.calibrate_loop calibrate_loop].
    destruct (position_iterations <=? detect_count (accumulate (store d s)))%Z.
    + destruct rest as [|[d2|] rest']; [reflexivity | | reflexivity].
      assert (H3 : CalibNum.shaped (store d2 (average (accumulate (store d s))))) by exact H.
      rewrite (process_exact e _ H3).
      destruct (process e (store d2 (average (accumulate (store d s)))))
        as [s3|r s3|err s3] eqn:E; [|reflexivity|reflexivity].
      apply IH; [cbn in L; lia | exact (shaped_continue e _ _ H3 E)].
    + apply IH; [cbn in L; lia | exact H].
Qed.

(** In exact arithmetic the run is the one of [Calib], for every matrix
    that the program can hold. *)
Lemma calibrateTool_exact (e : env) (prev_matrix : matrix) (prev_mpp : option npfloat)
  (dets : list (option detection)) :
  ((1 < List.length prev_matrix)%nat -> has_shape 6 2 prev_matrix) ->
  CalibNum.calibrateTool exact e prev_matrix prev_mpp dets
  = calibrateTool e prev_matrix prev_mpp dets.
Proof.
  intros H. unfold CalibNum.calibrateTool, calibrateTool.
  apply (calibrate_loop_exact_bounded e (List.length dets)); [lia|].
  unfold CalibNum.shaped, init. cbn [state transform_matrix].
  destruct (1 <? List.length prev_matrix)%nat eqn:E; [|discriminate].
  intros _. apply H. apply Nat.ltb_lt. exact E.
Qed.

(** *** Rounding to a double *)

Lemma b64_comp (x y : Q) : x == y -> b64 x = b64 y.
Proof. intros H. unfold b64. rewrite (Qred_complete x y H). reflexivity. Qed.

Lemma b64_mul_zero (x : Q) : b64 (x * 0) = 0.
Proof. rewrite (b64_comp (x * 0) 0) by ring. reflexivity. Qed.

(** Property X4.  The constant row of the transform, the machine
    position of the middle of the frame, has no influence on the
    alignment move: the last entry of the vector it is multiplied with
    is 0.  This holds in exact arithmetic and in doubles. *)
Theorem offsets_ignore_constant_row (N : arith) (T T' : matrix) (c : Q * Q) :
  N = exact \/ N = binary64 ->
  has_shape 6 2 T -> has_shape 6 2 T' -> firstn 5 T' = firstn 5 T ->
  CalibNum.offsets N T' (CalibNum.feature N c) = CalibNum.offsets N T (CalibNum.feature N c).
Proof.
  intros HN HS HS' E.
  destruct (shape_6_2 T HS) as (a0&b0&a1&b1&a2&b2&a3&b3&a4&b4&a5&b5&->).
  destruct (shape_6_2 T' HS') as (a0'&b0'&a1'&b1'&a2'&b2'&a3'&b3'&a4'&b4'&a5'&b5'&->).
  cbn [firstn] in E. inversion E; subst. clear E.
  destruct HN as [-> | ->].
  - unfold CalibNum.offsets, CalibNum.feature, CalibNum.around.
    cbn [rnd sqr prod exact matvec map transpose col seq nth dot fst snd].
    f_equal; f_equal; f_equal; apply rint_comp; ring.
  - unfold CalibNum.offsets, CalibNum.feature.
    cbn [rnd sqr prod binary64 matvec_seq dot_seq map transpose col seq nth combine
         fold_left fst snd].
    rewrite !b64_mul_zero. reflexivity.
Qed.

Lemma offsets_ignore_constant_row_witness :
  CalibNum.offsets binary64 [[0; 0]; [0; 0]; [0; 0]; [64 # 5; 0]; [0; 48 # 5]; [0; 0]]
    (CalibNum.feature binary64 (CalibNum.normalize_coords binary64 env0 (395, 180)%Z))
  = CalibNum.offsets binary64 T0
      (CalibNum.feature binary64 (CalibNum.normalize_coords binary64 env0 (395, 180)%Z)).
Proof.
  apply (offsets_ignore_constant_row binary64 T0).
  - right. reflexivity.
  - split; [reflexivity | repeat constructor].
  - split; [reflexivity | repeat constructor].
  - reflexivity.
Defined.

End ExactFacts.
